(** * cheltuieli-app/abstract: the dependency-resolving evaluator and the
      query grammar of [src/index.ts], embedded in Rocq.

    Layout: the JavaScript primitives the source relies on (strings,
    property order of plain objects), then [Tree], [parseTree] and
    [Abstract] over an arbitrary [AbstractMachine], then the reference
    interpreter of [createInterpreter], then [QueryBuilder]; the theorems
    follow the definitions. *)

From Stdlib Require Import String Ascii ZArith Lia DecimalString.
From stdpp Require Import gmap strings list fin_maps.

Local Open Scope string_scope.
Local Open Scope Z_scope.

(* ===================================================================== *)
(** ** JavaScript primitives *)
(* ===================================================================== *)

(** Strings are sequences of code units; the embedding keeps the code units
    below 256 (type [ascii]), which covers every token of the source. *)
Module JS.

(** ECMAScript [WhiteSpace] and [LineTerminator] code units below 256:
    TAB, LF, VT, FF, CR, SP and NBSP.  [String.prototype.trim] and the
    regular-expression class [\s] both use this set. *)
Definition is_whitespace (c : ascii) : bool :=
  let n := nat_of_ascii c in
  ((9 <=? n) && (n <=? 13) || (n =? 32) || (n =? 160))%nat.

(** [LineTerminator] code units below 256 (the ones [.] refuses). *)
Definition is_line_terminator (c : ascii) : bool :=
  let n := nat_of_ascii c in ((n =? 10) || (n =? 13))%nat.

Fixpoint trimStart (s : string) : string :=
  match s with
  | EmptyString => EmptyString
  | String c s' => if is_whitespace c then trimStart s' else s
  end.

Fixpoint trimEnd (s : string) : string :=
  match s with
  | EmptyString => EmptyString
  | String c s' =>
      match trimEnd s' with
      | EmptyString => if is_whitespace c then EmptyString else String c EmptyString
      | r => String c r
      end
  end.

(** [s.trim()] *)
Definition trim (s : string) : string := trimEnd (trimStart s).

(** [strip k s] is the rest of [s] after the prefix [k], when [k] is one. *)
Fixpoint strip (k s : string) : option string :=
  match k, s with
  | EmptyString, _ => Some s
  | String a k', String b s' => if Ascii.eqb a b then strip k' s' else None
  | String _ _, EmptyString => None
  end.

(** The text before and the text after the first occurrence of [k] in [s]. *)
Fixpoint cut (s k : string) : option (string * string) :=
  match strip k s with
  | Some rest => Some (EmptyString, rest)
  | None =>
      match s with
      | EmptyString => None
      | String c s' =>
          match cut s' k with
          | Some (b, a) => Some (String c b, a)
          | None => None
          end
      end
  end.

(** [s.indexOf(k)]: the position of the first occurrence, [-1] without one. *)
Definition indexOf (s k : string) : Z :=
  match cut s k with
  | Some (b, _) => Z.of_nat (String.length b)
  | None => -1
  end.

(** [GetSubstitution] for a string pattern (no captures, no named groups):
    in the replacement text [$$] is a dollar sign, [$&] the matched text,
    [$`] the text before the match and [$'] the text after it; any other
    [$] stands for itself. *)
Fixpoint GetSubstitution (matched before after template : string) : string :=
  match template with
  | EmptyString => EmptyString
  | String c rest =>
      if Ascii.eqb c "$" then
        match rest with
        | EmptyString => String c EmptyString
        | String d rest' =>
            if Ascii.eqb d "$" then String "$" (GetSubstitution matched before after rest')
            else if Ascii.eqb d "&" then matched +:+ GetSubstitution matched before after rest'
            else if Ascii.eqb d "`" then before +:+ GetSubstitution matched before after rest'
            else if Ascii.eqb d "'" then after +:+ GetSubstitution matched before after rest'
            else String c (String d (GetSubstitution matched before after rest'))
        end
      else String c (GetSubstitution matched before after rest)
  end.

(** [s.replace(k, v)] with a string pattern [k]: only the first occurrence
    is replaced, and [v] goes through [GetSubstitution]. *)
Definition replace (s k v : string) : string :=
  match cut s k with
  | Some (b, a) => b +:+ GetSubstitution k b a v +:+ a
  | None => s
  end.

(** [s.split(sep)] for a separator of one code unit. *)
Fixpoint split (s : string) (sep : ascii) : list string :=
  match s with
  | EmptyString => [EmptyString]
  | String c s' =>
      if Ascii.eqb c sep then EmptyString :: split s' sep
      else match split s' sep with
           | x :: xs => String c x :: xs
           | [] => [String c EmptyString]
           end
  end.

(** [s.charAt(0)] *)
Definition charAt0 (s : string) : string :=
  match s with
  | EmptyString => EmptyString
  | String c _ => String c EmptyString
  end.

(** [s.slice(b, e)]: negative positions count from the end, and both are
    clamped to the string. *)
Definition slice (s : string) (b e : Z) : string :=
  let len := Z.of_nat (String.length s) in
  let from := if b <? 0 then Z.max (len + b) 0 else Z.min b len in
  let to := if e <? 0 then Z.max (len + e) 0 else Z.min e len in
  String.substring (Z.to_nat from) (Z.to_nat (Z.max (to - from) 0)) s.

(** [s.slice(b)] *)
Definition slice_from (s : string) (b : Z) : string :=
  slice s b (Z.of_nat (String.length s)).

(** A value is falsy as a string exactly when it is empty. *)
Definition nonempty (s : string) : bool :=
  match s with EmptyString => false | _ => true end.

(** *** Own-property order of plain objects

    [Object.keys], [Object.entries] and [for ... in] list the array-index
    keys first, in ascending numeric order, then the other string keys in
    creation order; assigning to an existing key keeps its place. *)

(** A key is an array index when it is the canonical decimal form of an
    integer below [2^32 - 1]. *)
Definition array_index (k : string) : option N :=
  match NilEmpty.uint_of_string k with
  | Some u =>
      let n := N.of_uint u in
      if String.eqb (NilZero.string_of_uint (N.to_uint n)) k && (n <? 4294967295)%N
      then Some n else None
  | None => None
  end.

Section Obj.
Context {V : Type}.

(** An object as the list of its own entries in enumeration order. *)
Definition obj := list (string * V).

Fixpoint obj_get (o : obj) (k : string) : option V :=
  match o with
  | [] => None
  | (k', v) :: o' => if String.eqb k' k then Some v else obj_get o' k
  end.

Definition obj_keys (o : obj) : list string := map fst o.

Fixpoint obj_update (o : obj) (k : string) (v : V) : obj :=
  match o with
  | [] => []
  | (k', v') :: o' =>
      if String.eqb k' k then (k', v) :: o' else (k', v') :: obj_update o' k v
  end.

(** Where a new array-index key [n] goes: before the first entry that is
    not an array index or carries a larger one. *)
Fixpoint obj_insert_index (o : obj) (n : N) (k : string) (v : V) : obj :=
  match o with
  | [] => [(k, v)]
  | (k', v') :: o' =>
      match array_index k' with
      | Some n' =>
          if (n' <? n)%N then (k', v') :: obj_insert_index o' n k v
          else (k, v) :: o
      | None => (k, v) :: o
      end
  end.

(** [o[k] = v] *)
Definition obj_set (o : obj) (k : string) (v : V) : obj :=
  match obj_get o k with
  | Some _ => obj_update o k v
  | None =>
      match array_index k with
      | Some n => obj_insert_index o n k v
      | None => (o ++ [(k, v)])%list
      end
  end.
End Obj.
Global Arguments obj : clear implicits.

End JS.

(* ===================================================================== *)
(** ** Tokens, trees and the evaluation machine *)
(* ===================================================================== *)

Module Tokens.
Definition FUN_COMPOSITION : ascii := ":".
Definition CLAUSE_DELIMITER : ascii := ",".
Definition CLUSTER_BEGIN : ascii := "{".
Definition CLUSTER_CLOSE : ascii := "}".
Definition CLUSTER_OP_INNER : ascii := "~".
Definition CLUSTER_OP_UNION : ascii := "+".
Definition CLUSTER_OP_DIFFS : ascii := "-".
End Tokens.

(** A token as the one-character string the source passes around. *)
Definition tok (c : ascii) : string := String c EmptyString.

Definition isInBetweenBraces (text keyword : string) : bool :=
  let index := JS.indexOf text keyword in
  let start := JS.indexOf text (tok Tokens.CLUSTER_BEGIN) in
  let close := JS.indexOf text (tok Tokens.CLUSTER_CLOSE) in
  (start <? index) && (index <? close).

Definition isFunctionArgument (text keyword : string) : bool :=
  let pos := JS.indexOf text (tok Tokens.FUN_COMPOSITION) in
  (pos =? -1) || (JS.indexOf text keyword >? pos).

(** What the code can throw: an [Error] built with a message, or a
    [TypeError] raised by the language itself. *)
Inductive exn :=
| Error (message : string)
| TypeError (message : string).

(** A [Tree] object.  Trees are shared between dependency maps, so they live
    in a store (a list) and are named by their position in it; the position
    is also the index of the program line the tree was made from. *)
Record Tree := mkTree {
  ref : option string;
  input : string;
  dependencies : JS.obj nat;
  currentValue : string;
}.

Global Instance Tree_inhabited : Inhabited Tree :=
  populate (mkTree None EmptyString [] EmptyString).

(** [t.update(newValue)] *)
Definition update (newValue : string) (t : Tree) : Tree :=
  mkTree (ref t) (input t) (dependencies t) newValue.

(** [t.dependencies[a] = depTree] *)
Definition set_dependency (a : string) (depTree : nat) (t : Tree) : Tree :=
  mkTree (ref t) (input t) (JS.obj_set (dependencies t) a depTree) (currentValue t).

(** An optional name is truthy when it is a non-empty string. *)
Definition truthy_name (r : option string) : option string :=
  match r with
  | Some s => if JS.nonempty s then Some s else None
  | None => None
  end.

(** A step of a loop in the option monad; [None] stands for a computation
    that does not return. *)
Fixpoint forEach_opt {A St : Type} (body : A -> St -> option St) (xs : list A) (st : St)
  : option St :=
  match xs with
  | [] => Some st
  | x :: xs' =>
      match body x st with
      | Some st' => forEach_opt body xs' st'
      | None => None
      end
  end.

(** [Tree.expand]: [this] and the values of [deps] are positions in the
    store [h].  The recursion of the source has no measure, so the
    embedding counts nested calls down from [fuel]. *)
Fixpoint expand (fuel : nat) (deps : JS.obj nat) (this : nat) (h : list Tree)
  : option (list Tree) :=
  match fuel with
  | O => None
  | S fuel' =>
      forEach_opt
        (fun a h =>
           if JS.indexOf (currentValue (h !!! this)) a >? -1 then
             match JS.obj_get deps a with
             | Some depTree =>
                 let h1 := alter (set_dependency a depTree) this h in
                 if (0 <? length (JS.obj_keys (dependencies (h1 !!! depTree))))%nat
                 then expand fuel' deps depTree h1
                 else Some h1
             | None => Some h
             end
           else Some h)
        (JS.obj_keys deps) h
  end.

(** The values a machine computes.  In the source the accumulator starts
    as [undefined], and [m.read(k) || ...] tests a value for truthiness. *)
Class Value (T : Type) := {
  undefined : T;
  truthy : T -> bool;
}.

(** How a call ends: with a value or with a thrown exception. *)
Inductive completion (A : Type) :=
| Normal (a : A)
| Abrupt (e : exn).
Global Arguments Normal {A} a.
Global Arguments Abrupt {A} e.

(** [AbstractMachine<T>]: the four operations are functions of the caller's
    choosing; [MS] is the private state they may read and write. *)
Record AbstractMachine (T MS : Type) := {
  fold : T -> string -> nat -> list string -> MS -> completion T * MS;
  read : string -> MS -> completion T * MS;
  save : string -> T -> MS -> completion T * MS;
  swap : string -> string -> T -> MS -> completion string * MS;
}.
Global Arguments fold {T MS} _ _ _ _ _ _.
Global Arguments read {T MS} _ _ _.
Global Arguments save {T MS} _ _ _ _.
Global Arguments swap {T MS} _ _ _ _ _.

Section Evaluation.
Context {T MS : Type} `{Value T}.

(** What one [compile] call works on besides the program: the trees, the
    cache of the [Abstract] object and the state of the machine. *)
Record store := mkStore {
  heap : list Tree;
  this_cache : gmap string T;
  mstate : MS;
}.

Inductive result (A : Type) :=
| Done (a : A) (st : store)
| Raise (e : exn) (st : store)
| Diverge.
Global Arguments Done {A} a st.
Global Arguments Raise {A} e st.
Global Arguments Diverge {A}.

Definition M (A : Type) : Type := store -> result A.

Definition ret {A} (a : A) : M A := fun st => Done a st.

Definition bind {A B} (c : M A) (k : A -> M B) : M B :=
  fun st =>
    match c st with
    | Done a st' => k a st'
    | Raise e st' => Raise e st'
    | Diverge => Diverge
    end.

Definition raise {A} (e : exn) : M A := fun st => Raise e st.

Definition diverge {A} : M A := fun _ => Diverge.

(** A call of a machine operation. *)
Definition call {A} (op : MS -> completion A * MS) : M A :=
  fun st =>
    match op (mstate st) with
    | (Normal a, s') => Done a (mkStore (heap st) (this_cache st) s')
    | (Abrupt e, s') => Raise e (mkStore (heap st) (this_cache st) s')
    end.

Definition get_tree (t : nat) : M Tree := fun st => Done (heap st !!! t) st.

Definition update_tree (t : nat) (newValue : string) : M unit :=
  fun st => Done tt (mkStore (alter (update newValue) t (heap st)) (this_cache st) (mstate st)).

(** [this.cache.set(k, v)] *)
Definition cache_set (k : string) (v : T) : M unit :=
  fun st => Done tt (mkStore (heap st) (<[k := v]> (this_cache st)) (mstate st)).

Local Notation "'let*' x ':=' c 'in' k" := (bind c (fun x => k))
  (at level 10, x name, c at level 100, k at level 200).

Fixpoint forEach {A} (body : A -> M unit) (xs : list A) : M unit :=
  match xs with
  | [] => ret tt
  | x :: xs' => let* _ := body x in forEach body xs'
  end.

(** [arr.reduceRight(f, init)]: from the last element to the first, each
    call receiving the accumulator, the element, its index and [arr]. *)
Fixpoint reduceRight_go (f : T -> string -> nat -> list string -> M T)
    (arr : list string) (todo : list (nat * string)) (acc : T) : M T :=
  match todo with
  | [] => ret acc
  | (i, v) :: todo' => let* acc' := f acc v i arr in reduceRight_go f arr todo' acc'
  end.

Definition reduceRight (f : T -> string -> nat -> list string -> M T)
    (arr : list string) (init : T) : M T :=
  reduceRight_go f arr (rev (imap pair arr)) init.

Variable m : AbstractMachine T MS.

(** The last two statements of [parseTree]: fold the segments of the text,
    then publish the result when the tree has a name. *)
Definition fold_and_publish (t : nat) : M T :=
  let* tree := get_tree t in
  let* tVal := reduceRight (fun p v i r => call (fold m p v i r))
                 (JS.split (currentValue tree) Tokens.FUN_COMPOSITION) undefined in
  match truthy_name (ref tree) with
  | Some name => call (save m name tVal)
  | None => ret tVal
  end.

(** The test of the loop of [parseTree]. *)
Definition resolvable (text k : string) : bool :=
  isFunctionArgument text k || isInBetweenBraces text k.

(** What the loop of [parseTree] does for a key [k] that passed the test,
    given how the tree behind a dependency is evaluated. *)
Definition attempt (rec : nat -> M T) (t : nat) (k : string) : M unit :=
  let* tree := get_tree t in
  let* cached := call (read m k) in
  let* output := (if truthy cached then ret cached
                  else match JS.obj_get (dependencies tree) k with
                       | Some d => rec d
                       | None => raise (TypeError "Cannot read properties of undefined")
                       end) in
  let* tree1 := get_tree t in
  let* value0 := call (swap m k (currentValue tree1) output) in
  let* tree2 := get_tree t in
  if JS.nonempty value0 then update_tree t value0
  else
    match JS.obj_get (dependencies tree2) k with
    | Some d =>
        let* dep := get_tree d in
        update_tree t (JS.replace (currentValue tree2) k (currentValue dep))
    | None => raise (TypeError "Cannot read properties of undefined")
    end.

(** The body of the loop of [parseTree] for the key [k]. *)
Definition resolve (rec : nat -> M T) (t : nat) (k : string) : M unit :=
  let* tree := get_tree t in
  if resolvable (currentValue tree) k then attempt rec t k else ret tt.

(** [parseTree(t, m)]; [fuel] bounds the nesting of the recursive calls. *)
Fixpoint parseTree (fuel : nat) (t : nat) : M T :=
  match fuel with
  | O => diverge
  | S fuel' =>
      let* tree := get_tree t in
      let* _ := forEach (resolve (parseTree fuel') t) (JS.obj_keys (dependencies tree)) in
      fold_and_publish t
  end.

End Evaluation.
Global Arguments store : clear implicits.
Global Arguments result : clear implicits.
Global Arguments M : clear implicits.

(* ===================================================================== *)
(** ** [Abstract]: macro expansion, dependency scan, compile *)
(* ===================================================================== *)

(** A program line: expression text, display key, optional publish name. *)
Definition Source : Type := string * string * option string.

Definition source_text (l : Source) : string := l.1.1.
Definition source_key (l : Source) : string := l.1.2.
Definition source_ref (l : Source) : option string := l.2.

Module Abstract.
Section Abstract.
Context {T MS : Type} `{Value T}.

(** The three fields of an [Abstract] object.  The triples of [program]
    are taken to be distinct arrays, as [build] creates them, so that
    writing the text of one line leaves the other lines alone. *)
Record t := mk {
  cache : gmap string T;
  macro : JS.obj string;
  program : list Source;
}.

(** The inner loop of [expandMacro] on the text of one line. *)
Definition expandLine (kwords : JS.obj string) (text : string) : string :=
  fold_left
    (fun text kv =>
       if JS.indexOf text kv.1 >? -1 then JS.replace text kv.1 kv.2 else text)
    kwords text.

(** [expandMacro]: the text of every line is rewritten in place. *)
Definition expandMacro (kwords : JS.obj string) (p : list Source) : list Source :=
  map (fun l => (expandLine kwords (source_text l), source_key l, source_ref l)) p.

(** [if (ref) mem[ref] = tree]; assigning to [__proto__] sets the
    prototype of [mem] and creates no property. *)
Definition remember (mem : JS.obj nat) (tree : nat) (r : option string) : JS.obj nat :=
  match truthy_name r with
  | Some name => if String.eqb name "__proto__" then mem else JS.obj_set mem name tree
  | None => mem
  end.

(** The object [mem] at the end of the first loop of [scanDependencyTree]. *)
Definition scan_mem (p : list Source) : JS.obj nat :=
  fold_left (fun mem il => remember mem il.1 (source_ref il.2)) (imap pair p) [].

(** The array [trees] at the end of the first loop of [scanDependencyTree]. *)
Definition new_trees (p : list Source) : list Tree :=
  map (fun l => mkTree (source_ref l) (source_key l) [] (source_text l)) p.

Definition scanDependencyTree (fuel : nat) (p : list Source) : option (list Tree) :=
  forEach_opt (expand fuel (scan_mem p)) (seq 0 (length p)) (new_trees p).

(** How a [compile] call ends.  [Diverges] stands for calls nested without
    bound, which a JavaScript engine ends by a stack overflow. *)
Inductive execution :=
| Returned (a : t) (s : MS)
| Thrown (e : exn) (a : t) (s : MS)
| Diverges.

(** The callback of the [forEach] of [compile]. *)
Definition evaluate (m : AbstractMachine T MS) (fuel : nat) (i : nat) : M T MS unit :=
  bind (get_tree i) (fun tree =>
  bind (parseTree m fuel i) (fun v =>
  cache_set (input tree) v)).

(** The body of [compile] after the cache is cleared, on the expanded
    program [p]: the store it ends with. *)
Definition run (fuel : nat) (m : AbstractMachine T MS) (p : list Source) (s : MS)
  : result T MS unit :=
  match scanDependencyTree fuel p with
  | None => Diverge
  | Some trees => forEach (evaluate m fuel) (seq 0 (length trees)) (mkStore trees ∅ s)
  end.

(** [compile(m)] on the object [a], with the machine in state [s]. *)
Definition compile (fuel : nat) (m : AbstractMachine T MS) (a : t) (s : MS) : execution :=
  let p := expandMacro (macro a) (program a) in
  match run fuel m p s with
  | Done _ st => Returned (mk (this_cache st) (macro a) p) (mstate st)
  | Raise e st => Thrown e (mk (this_cache st) (macro a) p) (mstate st)
  | Diverge => Diverges
  end.
End Abstract.
Global Arguments t : clear implicits.
Global Arguments execution : clear implicits.
End Abstract.

(* ===================================================================== *)
(** ** The reference interpreter ([createInterpreter], [build]) *)
(* ===================================================================== *)

Inductive Solution := INDEX | TUPLE | VALUE.

(** An integer that a double holds exactly: at most 2^53 in absolute
    value. *)
Definition safe (z : Z) : bool := Z.abs z <=? 9007199254740992.

(** The numbers.  A double is [NaN]; or an exact integer, which [toString]
    prints digit by digit and which indexes an array (negative zero is the
    integer 0: it prints as [0], indexes as 0 and is above -1, and the code
    looks at nothing else); or another double (a fraction, an infinity, a
    larger number), which is the index of no element of an array, and of
    which the code observes two things besides: whether it is above -1, and
    the text that [toString] gives for it. *)
Inductive number :=
| NaN
| Integer (z : Z) (exact : Is_true (safe z))
| Other (above : bool) (text : string).

(** The exact integer written [z]. *)
Abbreviation Int z := (Integer z I) (only parsing).

Definition number_toString (n : number) : string :=
  match n with
  | NaN => "NaN"
  | Integer z _ => NilZero.string_of_int (Z.to_int z)
  | Other _ text => text
  end.

Record Tuple := mkTuple { value : number; index : number }.

Definition Accumulator : Type := list Tuple * Solution * number.

(** A slot of type [Accumulator] holds [undefined] until a resolver returns
    something; arrays are truthy. *)
Global Instance Accumulator_Value : Value (option Accumulator) := {
  undefined := None;
  truthy := fun a => match a with Some _ => true | None => false end;
}.

Definition Misinterpret : Type :=
  exn * option Accumulator * string * list string * nat.

(** A resolver is a function of its four arguments that returns an
    accumulator or throws. *)
Definition Resolver : Type :=
  string -> option Accumulator -> nat -> list string -> completion (option Accumulator).

Module Interpreter.

(** The two locals [errors] and [cache] that the closures share. *)
Record state := mk {
  errors : list Misinterpret;
  cache : gmap string (option Accumulator);
}.

Definition fresh : state := mk [] ∅.

Definition fold (resolver : Resolver) (acc : option Accumulator) (token : string)
    (n : nat) (input : list string) (s : state) : completion (option Accumulator) * state :=
  match resolver (JS.trim token) acc n input with
  | Normal a => (Normal a, s)
  | Abrupt e => (Normal acc, mk (errors s ++ [(e, acc, token, input, n)]) (cache s))
  end.

Definition read (r : string) (s : state) : completion (option Accumulator) * state :=
  (Normal (mjoin (cache s !! r)), s).

Definition save (r : string) (val : option Accumulator) (s : state)
  : completion (option Accumulator) * state :=
  (Normal val, mk (errors s) (<[r := val]> (cache s))).

(** [xs[val].value.toString()] *)
Definition element_text (xs : list Tuple) (val : number) : completion string :=
  match val with
  | Integer z _ =>
      match (if z <? 0 then None else xs !! Z.to_nat z) with
      | Some tuple => Normal (number_toString (value tuple))
      | None => Abrupt (TypeError "Cannot read properties of undefined (reading 'value')")
      end
  | NaN | Other _ _ =>
      Abrupt (TypeError "Cannot read properties of undefined (reading 'value')")
  end.

(** [val > -1] *)
Definition above_minus_one (val : number) : bool :=
  match val with
  | Integer z _ => z >? -1
  | NaN => false
  | Other above _ => above
  end.

Definition swap (r str : string) (a : option Accumulator) (s : state)
  : completion string * state :=
  match a with
  | None => (Abrupt (TypeError "undefined is not iterable"), s)
  | Some (xs, sol, val) =>
      match sol with
      | VALUE => (Normal (JS.replace str r (number_toString val)), s)
      | INDEX =>
          if above_minus_one val then
            match element_text xs val with
            | Normal txt => (Normal (JS.replace str r txt), s)
            | Abrupt e => (Abrupt e, s)
            end
          else (Normal EmptyString, s)
      | TUPLE => (Normal EmptyString, s)
      end
  end.

Definition createInterpreter (resolver : Resolver)
  : AbstractMachine (option Accumulator) state :=
  Build_AbstractMachine _ _ (fold resolver) read save swap.

End Interpreter.

(** [build(p, m)]: the display key of a line is its text. *)
Definition build (p : list (string * option string)) (m : JS.obj string)
  : Abstract.t (option Accumulator) :=
  Abstract.mk ∅ m (map (fun a => (a.1, a.1, a.2)) p).

(* ===================================================================== *)
(** ** [QueryBuilder]: grammar and predicate registry *)
(* ===================================================================== *)

(** The double quote, for the message of [parse]. *)
Definition dquote : string := String (ascii_of_nat 34) EmptyString.

Module QueryBuilder.
Section QueryBuilder.
(** The type of the rows the predicates test. *)
Context {R : Type}.

Definition Predicate : Type := R -> bool.

Record Query := mkQuery {
  text : string;
  sign : string;
  test : list Predicate;
}.

Definition QueryableClause : Type := string -> Predicate.

Record Queryable := mkQueryable {
  header : string;
  clauses : JS.obj QueryableClause;
}.

Record t := mk {
  headers : gset string;
  support : gmap string QueryableClause;
}.

(** [new QueryBuilder()] *)
Definition new : t := mk ∅ ∅.

Definition register (q : t) (c : Queryable) : t :=
  mk ({[ header c ]} ∪ headers q)
     (fold_left (fun sup opfn => <[ header c +:+ opfn.1 := opfn.2 ]> sup)
        (clauses c) (support q)).

(** The four locals of [parse] before the lookup. *)
Definition parse_expr (input : string) : string := JS.trim input.
Definition parse_head (input : string) : string :=
  JS.charAt0 (JS.trim (parse_expr input)).
Definition parse_func (input : string) : string :=
  JS.charAt0 (JS.trim (JS.slice_from (parse_expr input) 1)).
Definition parse_tail (input : string) : string :=
  JS.trim (JS.slice_from (parse_expr input)
             (JS.indexOf (parse_expr input) (parse_func input) + 1)).

Definition parse (q : t) (input : string) : completion Predicate :=
  match support q !! (parse_head input +:+ parse_func input) with
  | Some call => Normal (call (parse_tail input))
  | None => Abrupt (Error ("unexpected " +:+ dquote +:+ input +:+ dquote))
  end.

(** *** The grammar [/([~\+\-]\s*\{.+?\})/g] *)

Definition is_sign (c : ascii) : bool :=
  Ascii.eqb c Tokens.CLUSTER_OP_INNER || Ascii.eqb c Tokens.CLUSTER_OP_UNION
  || Ascii.eqb c Tokens.CLUSTER_OP_DIFFS.

(** The pieces a regular expression of the source is made of: one
    character of a class, a class repeated as often as possible ([c*]), a
    class repeated at least once and as little as possible ([c+?]), and one
    piece after the other. *)
Inductive regex :=
| Class (p : ascii -> bool)
| Star (p : ascii -> bool)
| LazyPlus (p : ascii -> bool)
| Seq (r1 r2 : regex).

(** Matching backtracks: [k] matches what follows the piece and returns the
    text after the whole match; a repetition tries its alternatives in the
    order of the language, the longest first when greedy, the shortest
    first when lazy. *)
Fixpoint star (p : ascii -> bool) (s : string) (k : string -> option string)
  : option string :=
  match s with
  | String c s' =>
      if p c then
        match star p s' k with
        | Some rest => Some rest
        | None => k s
        end
      else k s
  | EmptyString => k s
  end.

Fixpoint lazy_star (p : ascii -> bool) (s : string) (k : string -> option string)
  : option string :=
  match k s with
  | Some rest => Some rest
  | None =>
      match s with
      | String c s' => if p c then lazy_star p s' k else None
      | EmptyString => None
      end
  end.

Fixpoint run (r : regex) (s : string) (k : string -> option string) : option string :=
  match r with
  | Class p =>
      match s with
      | String c s' => if p c then k s' else None
      | EmptyString => None
      end
  | Star p => star p s k
  | LazyPlus p =>
      match s with
      | String c s' => if p c then lazy_star p s' k else None
      | EmptyString => None
      end
  | Seq r1 r2 => run r1 s (fun s' => run r2 s' k)
  end.

(** [get grammar()]: a sign, [\s*], an opening brace, [.+?] (the dot takes
    any character but a line terminator) and a closing brace. *)
Definition grammar : regex :=
  Seq (Class is_sign)
    (Seq (Star JS.is_whitespace)
       (Seq (Class (Ascii.eqb Tokens.CLUSTER_BEGIN))
          (Seq (LazyPlus (fun c => negb (JS.is_line_terminator c)))
             (Class (Ascii.eqb Tokens.CLUSTER_CLOSE))))).

(** A match of the grammar that starts at the first character of [s]:
    the matched text and what follows it. *)
Definition match_here (s : string) : option (string * string) :=
  match run grammar s Some with
  | Some rest =>
      Some (String.substring 0 (String.length s - String.length rest) s, rest)
  | None => None
  end.

(** [lexic.exec(input)] from [lastIndex]: the leftmost match in the rest
    [s] of the input, and the rest after it. *)
Fixpoint exec (s : string) : option (string * string) :=
  match match_here s with
  | Some r => Some r
  | None =>
      match s with
      | String _ s' => exec s'
      | EmptyString => None
      end
  end.

(** The successive results of [lexic.exec(input)] until [null]; every
    match takes at least one character, so [fuel] can be the length. *)
Fixpoint exec_all (fuel : nat) (s : string) : list string :=
  match fuel with
  | O => []
  | S fuel' =>
      match exec s with
      | Some (e0, rest) => e0 :: exec_all fuel' rest
      | None => []
      end
  end.

Definition matches (s : string) : list string := exec_all (String.length s) s.

(** [xs.map(this.parse.bind(this))], which stops at the first throw. *)
Fixpoint parse_all (q : t) (xs : list string) : completion (list Predicate) :=
  match xs with
  | [] => Normal []
  | x :: xs' =>
      match parse q x with
      | Normal p =>
          match parse_all q xs' with
          | Normal ps => Normal (p :: ps)
          | Abrupt e => Abrupt e
          end
      | Abrupt e => Abrupt e
      end
  end.

(** The body of the loop of [scan] for one match [e0]: nothing to yield
    for an empty [value], otherwise a [Query] or the error of [parse]. *)
Definition cluster (q : t) (e0 : string) : completion (option Query) :=
  let begin := JS.indexOf e0 (tok Tokens.CLUSTER_BEGIN) in
  let close := JS.indexOf e0 (tok Tokens.CLUSTER_CLOSE) in
  let value := JS.trim e0 in
  if (0 <? String.length value)%nat then
    match parse_all q (JS.split (JS.slice value (begin + 1) close) Tokens.CLAUSE_DELIMITER) with
    | Normal ps => Normal (Some (mkQuery value (JS.charAt0 value) ps))
    | Abrupt e => Abrupt e
    end
  else Normal None.

(** Running the generator to its end: the queries it yields, in order,
    and the exception that stops it, if one does. *)
Fixpoint drain (q : t) (es : list string) : list Query * option exn :=
  match es with
  | [] => ([], None)
  | e0 :: es' =>
      match cluster q e0 with
      | Normal (Some y) => let '(ys, e) := drain q es' in (y :: ys, e)
      | Normal None => drain q es'
      | Abrupt e => ([], Some e)
      end
  end.

(** The input that [scan] hands to the grammar. *)
Definition signed (input : string) : string :=
  if String.eqb (JS.charAt0 input) (tok Tokens.CLUSTER_BEGIN)
  then tok Tokens.CLUSTER_OP_INNER +:+ input
  else input.

Definition scan (q : t) (input : string) : list Query * option exn :=
  drain q (matches (signed input)).

End QueryBuilder.
Global Arguments Predicate : clear implicits.
Global Arguments Query : clear implicits.
Global Arguments QueryableClause : clear implicits.
Global Arguments Queryable : clear implicits.
Global Arguments t : clear implicits.
End QueryBuilder.

(* ===================================================================== *)
(** ** Sample resolvers and programs *)
(* ===================================================================== *)

Module Sample.

(** A resolver that answers the token [v] with the value 7 and passes the
    accumulator through otherwise. *)
Definition seven : Resolver :=
  fun token acc _ _ =>
    if String.eqb token "v" then Normal (Some ([], VALUE, Int 7)) else Normal acc.

(** A resolver that answers every token with an empty tuple list. *)
Definition tuples : Resolver :=
  fun _ _ _ _ => Normal (Some ([], TUPLE, NaN)).

(** A resolver that throws on every call. *)
Definition failing : Resolver :=
  fun _ _ _ _ => Abrupt (Error "no").

(** A resolver that tells the token [aa] from the others. *)
Definition spot_aa : Resolver :=
  fun token _ _ _ =>
    if String.eqb token "aa" then Normal (Some ([], VALUE, Int 1))
    else Normal (Some ([], VALUE, Int 0)).

(** A resolver that tells the token [k] from the others. *)
Definition spot_k : Resolver :=
  fun token _ _ _ =>
    if String.eqb token "k" then Normal (Some ([], TUPLE, Int 1))
    else Normal (Some ([], TUPLE, Int 0)).

(** A machine without state whose operations never throw. *)
Definition echo : AbstractMachine (option Accumulator) unit :=
  Build_AbstractMachine _ _
    (fun acc _ _ _ s => (Normal acc, s))
    (fun _ s => (Normal None, s))
    (fun _ v s => (Normal v, s))
    (fun _ _ _ s => (Normal EmptyString, s)).

(** A machine without state whose [fold] answers every token with an empty
    tuple list and whose [save] answers with the value 0, whatever it is
    given. *)
Definition zero_on_save : AbstractMachine (option Accumulator) unit :=
  Build_AbstractMachine _ _
    (fun _ _ _ _ s => (Normal (Some ([], TUPLE, NaN)), s))
    (fun _ s => (Normal None, s))
    (fun _ _ s => (Normal (Some ([], VALUE, Int 0)), s))
    (fun _ _ _ s => (Normal EmptyString, s)).

(** The resolver of the test [must scan tokens and resolve dependency tree
    as expected], which answers by the token; it throws on any other token.
    The average is 3.5 in the test. *)
Definition data : list Tuple :=
  [mkTuple (Int 2) (Int 0); mkTuple (Int 3) (Int 1); mkTuple (Int 4) (Int 2)].

Definition summed : list Tuple :=
  [mkTuple (Int 2) (Int 0); mkTuple (Int 5) (Int 1)].

Definition expected : Resolver :=
  fun token _ _ _ =>
    if String.eqb token "{...}" then Normal (Some (data, TUPLE, NaN))
    else if String.eqb token "max" then Normal (Some (data, INDEX, Int 2))
    else if String.eqb token "{s < 4}" then Normal (Some (take 2 data, TUPLE, NaN))
    else if String.eqb token "sum" then Normal (Some (summed, INDEX, Int 1))
    else if String.eqb token "tuple" then Normal (Some (summed, TUPLE, NaN))
    else if String.eqb token "avg" then Normal (Some (summed, VALUE, Other true "3.5"))
    else Abrupt (Error token).

(** The resolver of the test [must retrieve computed value from memory and
    find some errors]. *)
Definition once : Resolver :=
  fun _ acc _ _ =>
    match acc with
    | None => Normal (Some ([mkTuple (Int 0) (Int 0)], TUPLE, NaN))
    | Some _ => Abrupt (Error "must show 2 errors")
    end.

(** The resolver of the test [must run against a pseudo-sample source
    code], up to the tuples it finds. *)
Definition calc : Resolver :=
  fun token _ _ _ =>
    if String.prefix "calc!" token then Normal (Some ([], VALUE, Int 42))
    else Normal (Some ([], TUPLE, NaN)).

(** The program of the test suite whose lines refer to one another. *)
Definition references : list (string * option string) :=
  [("max: {...}", Some "reference #1");
   ("tuple: sum: {s < reference #1}", Some "reference #2");
   ("avg: reference #2", None)].

End Sample.

(* ===================================================================== *)
(** ** Vocabulary of the statements *)
(* ===================================================================== *)

(** [k] occurs in [s] with exactly [n] code units before it, and nowhere
    earlier. *)
Definition first_occurrence (s k : string) (n : nat) : Prop :=
  exists b a, s = b +:+ k +:+ a /\ String.length b = n /\
    forall b' a', s = b' +:+ k +:+ a' -> (n <= String.length b')%nat.

(** [k] does not occur in [s]. *)
Definition absent (s k : string) : Prop :=
  forall b a, s <> b +:+ k +:+ a.

(** [k] occurs somewhere in [s]. *)
Definition occurs (s k : string) : bool := JS.indexOf s k >? -1.

(** The test of [parseTree] as the specification words it: [k] occurs after
    the last [:] of the text, or inside a bracketed cluster of the text.
    The text after the last [:] is the last segment of the split (the whole
    text without a [:]); a cluster runs from an opening brace to the next
    closing brace. *)
Definition described_after_last_colon (text k : string) : bool :=
  occurs (List.last (JS.split text Tokens.FUN_COMPOSITION) EmptyString) k.

Definition described_inside_cluster (text k : string) : bool :=
  existsb
    (fun piece =>
       match JS.cut piece (tok Tokens.CLUSTER_CLOSE) with
       | Some (interior, _) => occurs interior k
       | None => false
       end)
    (tail (JS.split text Tokens.CLUSTER_BEGIN)).

Definition described_resolvable (text k : string) : bool :=
  described_after_last_colon text k || described_inside_cluster text k.

(** The text of line [i] of a program (empty past its end). *)
Definition line_text (p : list Source) (i : nat) : string :=
  match p !! i with
  | Some l => source_text l
  | None => EmptyString
  end.

(** Line [i] refers to line [j]: a name under which [scanDependencyTree]
    remembers line [j] occurs in the text of line [i]. *)
Definition refers_to (p : list Source) (i j : nat) : Prop :=
  exists a, JS.obj_get (Abstract.scan_mem p) a = Some j /\ occurs (line_text p i) a = true.

(** No name is self-referential, directly or through other lines: the
    references go down along some rank. *)
Definition acyclic (p : list Source) : Prop :=
  exists rank : nat -> nat, forall i j, refers_to p i j -> (rank j < rank i)%nat.

(** A check that [rank] goes down along the references of [p]. *)
Definition ranked (rank : nat -> nat) (p : list Source) : bool :=
  forallb (fun aj => negb (occurs EmptyString aj.1)) (Abstract.scan_mem p)
  && forallb
       (fun i =>
          forallb (fun aj => implb (occurs (line_text p i) aj.1) (rank aj.2 <? rank i)%nat)
            (Abstract.scan_mem p))
       (seq 0 (length p)).

(** A machine none of whose four operations ever throws. *)
Definition never_throws {T MS : Type} (m : AbstractMachine T MS) : Prop :=
  (forall p v i r s, exists x s', fold m p v i r s = (Normal x, s')) /\
  (forall k s, exists x s', read m k s = (Normal x, s')) /\
  (forall k v s, exists x s', save m k v s = (Normal x, s')) /\
  (forall k v x s, exists y s', swap m k v x s = (Normal y, s')).

(** Two stores of trees that differ in the links at most. *)
Definition same_texts (h h' : list Tree) : Prop :=
  forall i, currentValue (h' !!! i) = currentValue (h !!! i) /\
            input (h' !!! i) = input (h !!! i) /\ ref (h' !!! i) = ref (h !!! i).

(** Two stores of trees that differ in the current texts at most. *)
Definition same_links (h h' : list Tree) : Prop :=
  forall i, dependencies (h' !!! i) = dependencies (h !!! i) /\
            input (h' !!! i) = input (h !!! i) /\ ref (h' !!! i) = ref (h !!! i).

(** Every link of the store goes down along [rank]. *)
Definition links_ranked (rank : nat -> nat) (h : list Tree) : Prop :=
  forall i a j, JS.obj_get (dependencies (h !!! i)) a = Some j -> (rank j < rank i)%nat.

(** The trees and the cache are as they were in [st0]. *)
Definition kept {T MS : Type} (st0 st : store T MS) : Prop :=
  same_links (heap st0) (heap st) /\ this_cache st = this_cache st0.

(** The computation [c] started in [st] returns, with a result and a store
    that satisfy [Q], unless an operation of the machine throws. *)
Definition ok {T MS A : Type} (m : AbstractMachine T MS) (c : M T MS A)
    (st : store T MS) (Q : A -> store T MS -> Prop) : Prop :=
  match c st with
  | Done a st' => Q a st'
  | Raise _ _ => ~ never_throws m
  | Diverge => False
  end.

(** The exception [e] is one that an operation of the machine [m] throws,
    on some arguments and in some state. *)
Definition raises {T MS : Type} (m : AbstractMachine T MS) (e : exn) : Prop :=
  (exists p v i r s s', fold m p v i r s = (Abrupt e, s')) \/
  (exists k s s', read m k s = (Abrupt e, s')) \/
  (exists k v s s', save m k v s = (Abrupt e, s')) \/
  (exists k v x s s', swap m k v x s = (Abrupt e, s')).

(** In the run of [compile] on the expanded program [p], with the machine
    in the state [s] at first, line [i] is reached in the store [st]: the
    trees are made, and the lines before line [i] are evaluated one after
    the other, each of them returning. *)
Definition reaches {T MS : Type} `{Value T} (fuel : nat) (m : AbstractMachine T MS)
    (p : list Source) (s : MS) (i : nat) (st : store T MS) : Prop :=
  exists trees, Abstract.scanDependencyTree fuel p = Some trees /\
    forEach (Abstract.evaluate m fuel) (seq 0 i) (mkStore trees ∅ s) = Done tt st.

(** In that run, line [i] is reached and [parseTree] ends on it as [r]. *)
Definition line_ends {T MS : Type} `{Value T} (fuel : nat) (m : AbstractMachine T MS)
    (p : list Source) (s : MS) (i : nat) (r : result T MS T) : Prop :=
  exists st, reaches fuel m p s i st /\ parseTree m fuel i st = r.

(** Line [i] is the last of the lines [p] whose display key is [k]. *)
Definition last_with_key (p : list Source) (i : nat) (k : string) : Prop :=
  (exists l, p !! i = Some l /\ source_key l = k) /\
  forall j l', (i < j)%nat -> p !! j = Some l' -> source_key l' <> k.

(** The cache [c] holds the results of the first [i] lines of that run, a
    later result in the place of an earlier one under the same key: its
    keys are the display keys of these lines, and under each key it holds
    the value that [parseTree] returned for the last of these lines with
    that key. *)
Definition holds_results {T MS : Type} `{Value T} (fuel : nat) (m : AbstractMachine T MS)
    (p : list Source) (s : MS) (i : nat) (c : gmap string T) : Prop :=
  dom c = list_to_set (map source_key (take i p)) /\
  forall j k, last_with_key (take i p) j k ->
    exists v st', line_ends fuel m p s j (Done v st') /\ c !! k = Some v.

(** The number of calls of [fold] that a program without dependencies
    makes: one per segment of every line. *)
Definition segments (p : list Source) : nat :=
  list_sum (map (fun l => length (JS.split (source_text l) Tokens.FUN_COMPOSITION)) p).

(** A resolver that throws whatever it is given. *)
Definition always_throws (resolver : Resolver) : Prop :=
  forall token acc n input, exists e, resolver token acc n input = Abrupt e.

(** A text made of white space only. *)
Fixpoint blank (s : string) : bool :=
  match s with
  | EmptyString => true
  | String c s' => JS.is_whitespace c && blank s'
  end.

(** A text that starts with one of the three signs. *)
Definition signed_text (e0 : string) : Prop :=
  exists c body, e0 = String c body /\ QueryBuilder.is_sign c = true.

(** The matches [ms] lie in [s] one after the other, without overlap. *)
Fixpoint in_order (ms : list string) (s : string) : Prop :=
  match ms with
  | [] => True
  | e0 :: ms' => exists before rest, s = before +:+ e0 +:+ rest /\ in_order ms' rest
  end.

Module Clause.
Section Clause.
Context {R : Type}.

(** The key under which [parse] looks a clause up. *)
Definition clause_key (input : string) : string :=
  QueryBuilder.parse_head input +:+ QueryBuilder.parse_func input.

(** The clauses of a matched cluster, as [scan] hands them to [parse]. *)
Definition cluster_clauses (e0 : string) : list string :=
  JS.split
    (JS.slice (JS.trim e0) (JS.indexOf e0 (tok Tokens.CLUSTER_BEGIN) + 1)
       (JS.indexOf e0 (tok Tokens.CLUSTER_CLOSE)))
    Tokens.CLAUSE_DELIMITER.

(** A clause for which a handler is registered. *)
Definition known (q : QueryBuilder.t R) (c : string) : Prop :=
  QueryBuilder.support q !! clause_key c <> None.

(** The message of the error of [parse]. *)
Definition unexpected (input : string) : exn :=
  Error ("unexpected " +:+ dquote +:+ input +:+ dquote).
End Clause.
End Clause.

Module Described.
Section Described.
Context {R : Type}.

Definition is_alphanumeric (c : ascii) : bool :=
  let n := nat_of_ascii c in
  ((48 <=? n) && (n <=? 57) || (65 <=? n) && (n <=? 90) || (97 <=? n) && (n <=? 122))%nat.

(** The decomposition of a clause as the specification words it: the
    first character is the header, the first character after it that
    differs from the alphanumeric run (white space set aside) is the
    operator, and everything after the operator is the operand. *)
Fixpoint operator_and_operand (s : string) : option (string * string) :=
  match s with
  | EmptyString => None
  | String c s' =>
      if is_alphanumeric c || JS.is_whitespace c then operator_and_operand s'
      else Some (tok c, s')
  end.

Definition parse (q : QueryBuilder.t R) (input : string)
  : completion (QueryBuilder.Predicate R) :=
  match JS.trim input with
  | String h s' =>
      match operator_and_operand s' with
      | Some (op, operand) =>
          match QueryBuilder.support q !! (tok h +:+ op) with
          | Some call => Normal (call (JS.trim operand))
          | None => Abrupt (Clause.unexpected input)
          end
      | None => Abrupt (Clause.unexpected input)
      end
  | EmptyString => Abrupt (Clause.unexpected input)
  end.
End Described.
End Described.

(* ===================================================================== *)
(** ** Vocabulary of the further properties *)
(* ===================================================================== *)

(** Line [i] of [p] is published under the name [r]: its publish name is
    [r], a non-empty string other than [__proto__]. *)
Definition publishes (p : list Source) (i : nat) (r : string) : Prop :=
  exists l, p !! i = Some l /\ truthy_name (source_ref l) = Some r /\ r <> "__proto__".

(** The callback of the [forEach] of [Tree.expand], given how the nested
    call is evaluated. *)
Definition expand_body (rec : nat -> list Tree -> option (list Tree))
    (deps : JS.obj nat) (this : nat) (a : string) (h : list Tree) : option (list Tree) :=
  if JS.indexOf (currentValue (h !!! this)) a >? -1 then
    match JS.obj_get deps a with
    | Some depTree =>
        let h1 := alter (set_dependency a depTree) this h in
        if (0 <? length (JS.obj_keys (dependencies (h1 !!! depTree))))%nat
        then rec depTree h1
        else Some h1
    | None => Some h
    end
  else Some h.

(** Every link of the store is an entry of [deps] whose name occurs in
    the text of the tree that holds the link. *)
Definition links_sound (deps : JS.obj nat) (h : list Tree) : Prop :=
  forall i a j, JS.obj_get (dependencies (h !!! i)) a = Some j ->
                JS.obj_get deps a = Some j /\ occurs (currentValue (h !!! i)) a = true.

(** The store [h'] has every link of the store [h]. *)
Definition links_grow (h h' : list Tree) : Prop :=
  forall i a j, JS.obj_get (dependencies (h !!! i)) a = Some j ->
                JS.obj_get (dependencies (h' !!! i)) a = Some j.

(** The tree [i] has a link for every entry of [deps] whose name occurs in
    its text. *)
Definition linked (deps : JS.obj nat) (h : list Tree) (i : nat) : Prop :=
  forall a j, JS.obj_get deps a = Some j -> occurs (currentValue (h !!! i)) a = true ->
              JS.obj_get (dependencies (h !!! i)) a = Some j.

(** The tree [i] has a link at least, which is what [expand] tests before
    it goes down into a tree. *)
Definition has_links (h : list Tree) (i : nat) : bool :=
  (0 <? length (JS.obj_keys (dependencies (h !!! i))))%nat.

(** What a call of [expand] leaves behind: the texts, the display keys
    and the names as they were, the links it found, all of them sound, and
    the links that were there before. *)
Definition expanded (deps : JS.obj nat) (h h' : list Tree) : Prop :=
  same_texts h h' /\ length h' = length h /\ links_sound deps h' /\ links_grow h h'.

(** The names under which the lines of a program are published: the
    publish names that are not empty. *)
Definition publish_name (p : list Source) (k : string) : Prop :=
  exists l, In l p /\ truthy_name (source_ref l) = Some k.

(** Every operation of the machine [m] leaves the state of the machine in
    the relation [G] with the state it found; [save] has to do so under
    the names [K] only. *)
Definition respects {T MS : Type} (m : AbstractMachine T MS)
    (K : string -> Prop) (G : MS -> MS -> Prop) : Prop :=
  (forall p v i r s, G s (fold m p v i r s).2) /\
  (forall k s, G s (read m k s).2) /\
  (forall k v s, K k -> G s (save m k v s).2) /\
  (forall k v x s, G s (swap m k v x s).2).

(** The names of the trees of a store are among the names [K]. *)
Definition named (K : string -> Prop) (h : list Tree) : Prop :=
  forall i name, truthy_name (ref (h !!! i)) = Some name -> K name.

(** From [st] to [st'] the texts of the trees may have changed and the
    machine may have moved along [G]; the trees are otherwise the same, as
    many as before, and the cache of the [Abstract] object is as it was. *)
Definition frame {T MS : Type} (G : MS -> MS -> Prop) (st st' : store T MS) : Prop :=
  kept st st' /\ length (heap st') = length (heap st) /\ G (mstate st) (mstate st').

(** However the computation [c] ends from [st], by returning or by
    throwing, the store it ends in is related to [st] by [F], and what it
    throws is an exception of the machine [m]. *)
Definition ends_in {T MS A : Type} (m : AbstractMachine T MS)
    (F : store T MS -> store T MS -> Prop) (c : M T MS A) (st : store T MS) : Prop :=
  match c st with
  | Done _ st' => F st st'
  | Raise e st' => F st st' /\ raises m e
  | Diverge => True
  end.

(** What the reference interpreter keeps from a state [s] to a later state
    [s']: the errors logged so far, at the head of the log; the names its
    cache holds; and the values under the names outside [K]. *)
Definition grown (K : string -> Prop) (s s' : Interpreter.state) : Prop :=
  Interpreter.errors s `prefix_of` Interpreter.errors s' /\
  (forall k, is_Some (Interpreter.cache s !! k) -> is_Some (Interpreter.cache s' !! k)) /\
  (forall k, ~ K k -> Interpreter.cache s' !! k = Interpreter.cache s !! k).

(** Every character of the text satisfies [p]. *)
Fixpoint every (p : ascii -> bool) (s : string) : bool :=
  match s with
  | EmptyString => true
  | String c s' => p c && every p s'
  end.

(** The text [e0] is made of the sign [c], the white space [ws], an
    opening brace, the character [d], the characters [body] and a closing
    brace, where [d] and [body] hold no line terminator and [body] no
    closing brace: the shape of a match of the grammar of [QueryBuilder],
    whose lazy repetition stops at the first closing brace that follows one
    character at least. *)
Definition cluster_of (e0 : string) (c : ascii) (ws : string) (d : ascii) (body : string)
  : Prop :=
  e0 = String c (ws +:+ String Tokens.CLUSTER_BEGIN
                          (String d (body +:+ tok Tokens.CLUSTER_CLOSE))) /\
  QueryBuilder.is_sign c = true /\ every JS.is_whitespace ws = true /\
  JS.is_line_terminator d = false /\
  every (fun x => negb (JS.is_line_terminator x)) body = true /\
  every (fun x => negb (Ascii.eqb x Tokens.CLUSTER_CLOSE)) body = true.

Definition cluster_text (e0 : string) : Prop :=
  exists c ws d body, cluster_of e0 c ws d body.

(** The accumulator and the log of errors after the calls of [fold] that
    [reduceRight] makes for the elements [todo] of the tokens [arr], each
    element with its position. *)
Definition segment_fold (resolver : Resolver) (arr : list string)
    (todo : list (nat * string)) (start : option Accumulator * list Misinterpret)
  : option Accumulator * list Misinterpret :=
  fold_left
    (fun st iv =>
       match resolver (JS.trim iv.2) st.1 iv.1 arr with
       | Normal a => (a, st.2)
       | Abrupt e => (st.1, (st.2 ++ [(e, st.1, iv.2, arr, iv.1)])%list)
       end)
    todo start.

(** The relation [refers_to] as a test. *)
Definition refers (p : list Source) (i j : nat) : bool :=
  existsb
    (fun a =>
       match JS.obj_get (Abstract.scan_mem p) a with
       | Some j' => Nat.eqb j' j && occurs (line_text p i) a
       | None => false
       end)
    (JS.obj_keys (Abstract.scan_mem p)).

(** Every chain of references that starts from line [i] has fewer than [k]
    lines. *)
Fixpoint shallow (p : list Source) (k : nat) (i : nat) : bool :=
  match k with
  | O => false
  | S k' => forallb (fun j => implb (refers p i j) (shallow p k' j)) (seq 0 (length p))
  end.

(** The number of lines that are not shallow at [k]. *)
Definition deep_count (p : list Source) (k : nat) : nat :=
  length (List.filter (fun i => negb (shallow p k i)) (seq 0 (length p))).

(** The first [k] at which line [i] is shallow, counted among the bounds
    below the number of lines. *)
Definition height (p : list Source) (i : nat) : nat :=
  length (List.filter (fun k => negb (shallow p k i)) (seq 0 (length p))).

(* ===================================================================== *)
(** ** Properties of the JavaScript primitives *)
(* ===================================================================== *)

Example indexOf_ex1 : JS.indexOf "f: a: x" ":" = 1.
Proof. reflexivity. Qed.
Example indexOf_ex2 : JS.indexOf "abc" EmptyString = 0 /\ JS.indexOf "abc" "z" = -1.
Proof. split; reflexivity. Qed.
Example replace_ex :
  JS.replace "f: B" "B" "$&k" = "f: Bk" /\ JS.replace "aXbX" "X" "yy" = "ayybX".
Proof. split; reflexivity. Qed.
Example split_ex :
  JS.split "f: g: x" ":" = ["f"; " g"; " x"] /\ JS.split EmptyString ":" = [EmptyString].
Proof. split; reflexivity. Qed.
Example trim_ex : JS.trim "  a b  " = "a b".
Proof. reflexivity. Qed.
Example slice_ex : JS.slice "~{x = 1}" 2 7 = "x = 1" /\ JS.slice_from "abc" 1 = "bc".
Proof. split; reflexivity. Qed.
Example obj_order_ex :
  JS.obj_keys (JS.obj_set (JS.obj_set (JS.obj_set (JS.obj_set [] "b" 1) "10" 2) "a" 3) "2" 4)
  = ["2"; "10"; "b"; "a"].
Proof. reflexivity. Qed.

Example grammar_ex :
  QueryBuilder.matches "~{a} + {b} - {c}" = ["~{a}"; "+ {b}"; "- {c}"] /\
  QueryBuilder.matches "~ +{a}}{" = ["+{a}"] /\
  QueryBuilder.matches "~{}}" = ["~{}}"] /\
  QueryBuilder.matches "-{x" = [] /\
  QueryBuilder.matches ("~{" +:+ String (ascii_of_nat 10) "}+ {ab}") = ["+ {ab}"].
Proof. repeat split; reflexivity. Qed.

Section StringFacts.

Lemma append_nil_l t : EmptyString +:+ t = t.
Proof. reflexivity. Qed.

Lemma append_cons c s t : String c s +:+ t = String c (s +:+ t).
Proof. reflexivity. Qed.

Lemma append_nil_r s : s +:+ EmptyString = s.
Proof. induction s as [|c s IH]; [reflexivity|]. rewrite append_cons, IH. reflexivity. Qed.

Lemma append_assoc s t u : (s +:+ t) +:+ u = s +:+ t +:+ u.
Proof.
  induction s as [|c s IH]; [reflexivity|]. rewrite !append_cons, IH. reflexivity.
Qed.

Lemma length_append s t :
  String.length (s +:+ t) = (String.length s + String.length t)%nat.
Proof.
  induction s as [|c s IH]; [reflexivity|]. rewrite append_cons. simpl. rewrite IH. reflexivity.
Qed.

Lemma strip_spec k s r : JS.strip k s = Some r <-> s = k +:+ r.
Proof.
  revert s; induction k as [|a k IH]; intros s; simpl.
  - rewrite append_nil_l. split; [intros [= ->]; reflexivity | intros ->; reflexivity].
  - rewrite append_cons. destruct s as [|b s]; [split; discriminate|].
    destruct (Ascii.eqb_spec a b) as [->|Hne].
    + rewrite IH. split; [intros ->; reflexivity | intros [= ->]; reflexivity].
    + split; [discriminate | intros [= -> _]; contradiction].
Qed.

Lemma cut_sound s k b a : JS.cut s k = Some (b, a) -> s = b +:+ k +:+ a.
Proof.
  revert b a; induction s as [|c s IH]; intros b a; simpl.
  - destruct (JS.strip k EmptyString) eqn:E; [|discriminate].
    intros [= <- <-]. apply strip_spec in E. exact E.
  - destruct (JS.strip k (String c s)) eqn:E.
    + intros [= <- <-]. apply strip_spec in E. exact E.
    + destruct (JS.cut s k) as [[b0 a0]|] eqn:E'; [|discriminate].
      intros [= <- <-]. rewrite append_cons. f_equal. apply IH. reflexivity.
Qed.

Lemma cut_first s k b a :
  JS.cut s k = Some (b, a) ->
  forall b' a', s = b' +:+ k +:+ a' -> (String.length b <= String.length b')%nat.
Proof.
  revert b a; induction s as [|c s IH]; intros b a; simpl.
  - destruct (JS.strip k EmptyString) eqn:E; [|discriminate].
    intros [= <- <-] b' a' _. simpl. lia.
  - destruct (JS.strip k (String c s)) eqn:E.
    + intros [= <- <-] b' a' _. simpl. lia.
    + destruct (JS.cut s k) as [[b0 a0]|] eqn:E'; [|discriminate].
      intros [= <- <-] b' a' Hs. destruct b' as [|c' b'].
      * rewrite append_nil_l in Hs. apply strip_spec in Hs. congruence.
      * rewrite append_cons in Hs. injection Hs as _ Hs. simpl.
        specialize (IH _ _ eq_refl _ _ Hs). lia.
Qed.

Lemma cut_none s k : JS.cut s k = None -> absent s k.
Proof.
  induction s as [|c s IH]; simpl.
  - destruct (JS.strip k EmptyString) eqn:E; [discriminate|].
    intros _ b a Hs. destruct b.
    + rewrite append_nil_l in Hs. apply strip_spec in Hs. congruence.
    + rewrite append_cons in Hs. discriminate.
  - destruct (JS.strip k (String c s)) eqn:E; [discriminate|].
    destruct (JS.cut s k) as [[b0 a0]|] eqn:E'; [discriminate|].
    intros _ b a Hs. destruct b as [|c' b].
    + rewrite append_nil_l in Hs. apply strip_spec in Hs. congruence.
    + rewrite append_cons in Hs. injection Hs as _ Hs. exact (IH eq_refl _ _ Hs).
Qed.

Lemma cut_first_occurrence s k b a :
  JS.cut s k = Some (b, a) -> first_occurrence s k (String.length b).
Proof.
  intros Hc. exists b, a. split; [exact (cut_sound _ _ _ _ Hc)|].
  split; [reflexivity|]. exact (cut_first _ _ _ _ Hc).
Qed.

Lemma first_occurrence_unique s k n n' :
  first_occurrence s k n -> first_occurrence s k n' -> n = n'.
Proof.
  intros (b & a & Hs & Hb & Hmin) (b' & a' & Hs' & Hb' & Hmin').
  specialize (Hmin _ _ Hs'). specialize (Hmin' _ _ Hs). lia.
Qed.

Lemma first_occurrence_not_absent s k n : first_occurrence s k n -> ~ absent s k.
Proof. intros (b & a & Hs & _) Ha. exact (Ha _ _ Hs). Qed.

(** [indexOf] returns the position of the first occurrence ... *)
Lemma indexOf_found s k n :
  first_occurrence s k n <-> JS.indexOf s k = Z.of_nat n.
Proof.
  unfold JS.indexOf. destruct (JS.cut s k) as [[b a]|] eqn:Hc.
  - pose proof (cut_first_occurrence _ _ _ _ Hc) as Hf. split.
    + intros Hn. f_equal. exact (first_occurrence_unique _ _ _ _ Hf Hn).
    + intros Hn. apply Nat2Z.inj in Hn. rewrite <- Hn. exact Hf.
  - split; [|lia]. intros Hf. exfalso.
    exact (first_occurrence_not_absent _ _ _ Hf (cut_none _ _ Hc)).
Qed.

(** ... and [-1] exactly when there is none. *)
Lemma indexOf_absent s k : absent s k <-> JS.indexOf s k = -1.
Proof.
  unfold JS.indexOf. destruct (JS.cut s k) as [[b a]|] eqn:Hc.
  - split; [|lia]. intros Ha. exfalso. exact (Ha _ _ (cut_sound _ _ _ _ Hc)).
  - split; [reflexivity|]. intros _. exact (cut_none _ _ Hc).
Qed.

Lemma indexOf_cases s k :
  (absent s k /\ JS.indexOf s k = -1) \/
  (exists n, first_occurrence s k n /\ JS.indexOf s k = Z.of_nat n).
Proof.
  unfold JS.indexOf. destruct (JS.cut s k) as [[b a]|] eqn:Hc.
  - right. exists (String.length b). split; [|reflexivity].
    exact (cut_first_occurrence _ _ _ _ Hc).
  - left. split; [exact (cut_none _ _ Hc)|reflexivity].
Qed.

End StringFacts.


(* ===================================================================== *)
(** ** The test of the loop of [parseTree] *)
(* ===================================================================== *)

Lemma isFunctionArgument_positions text k :
  isFunctionArgument text k = true <->
  absent text (tok Tokens.FUN_COMPOSITION) \/
  exists p n, first_occurrence text (tok Tokens.FUN_COMPOSITION) p /\
              first_occurrence text k n /\ (p < n)%nat.
Proof.
  unfold isFunctionArgument. rewrite orb_true_iff, Z.eqb_eq, Z.gtb_ltb, Z.ltb_lt.
  split.
  - intros [Hm|Hlt]; [left; apply indexOf_absent; exact Hm|].
    destruct (indexOf_cases text (tok Tokens.FUN_COMPOSITION)) as [[Ha _]|(p & Hp & Ep)];
      [left; exact Ha|].
    destruct (indexOf_cases text k) as [[_ Ek]|(n & Hn & En)]; [lia|].
    right. exists p, n. repeat split; [exact Hp|exact Hn|lia].
  - intros [Ha|(p & n & Hp & Hn & Hlt)].
    + left. apply indexOf_absent. exact Ha.
    + right. apply indexOf_found in Hp, Hn. lia.
Qed.

Lemma isInBetweenBraces_positions text k :
  isInBetweenBraces text k = true <->
  exists n c, first_occurrence text k n /\
              first_occurrence text (tok Tokens.CLUSTER_CLOSE) c /\ (n < c)%nat /\
              (absent text (tok Tokens.CLUSTER_BEGIN) \/
               exists a, first_occurrence text (tok Tokens.CLUSTER_BEGIN) a /\ (a < n)%nat).
Proof.
  unfold isInBetweenBraces. rewrite andb_true_iff, !Z.ltb_lt. split.
  - intros [Hs Hc].
    destruct (indexOf_cases text k) as [[_ Ek]|(n & Hn & En)].
    { destruct (indexOf_cases text (tok Tokens.CLUSTER_BEGIN)) as [[_ E]|(a & _ & E)]; lia. }
    destruct (indexOf_cases text (tok Tokens.CLUSTER_CLOSE)) as [[_ Ec]|(c & Hcl & Ec)]; [lia|].
    exists n, c. repeat split; [exact Hn|exact Hcl|lia|].
    destruct (indexOf_cases text (tok Tokens.CLUSTER_BEGIN)) as [[Ha _]|(a & Ha & Ea)];
      [left; exact Ha|].
    right. exists a. split; [exact Ha|lia].
  - intros (n & c & Hn & Hc & Hlt & Hs). apply indexOf_found in Hn, Hc.
    destruct Hs as [Ha|(a & Ha & Hlt')].
    + apply indexOf_absent in Ha. lia.
    + apply indexOf_found in Ha. lia.
Qed.

(** C4, as the code has it: the loop of [parseTree] attempts the resolution
    of a dependency name [k] exactly when the text has no [:] at all, or the
    first occurrence of [k] starts after the first [:], or the first
    occurrence of [k] starts before the first closing brace and after the
    first opening brace if there is one.  A key that fails the test leaves
    the trees and the machine untouched, a key that passes it goes through
    [attempt], and the fold of the node comes after the whole loop. *)
Theorem parseTree_resolution_gate {T MS : Type} `{Value T}
    (m : AbstractMachine T MS) (rec : nat -> M T MS T) (fuel t : nat) (k : string)
    (st : store T MS) :
  let text := currentValue (heap st !!! t) in
  (resolvable text k = true <->
     absent text (tok Tokens.FUN_COMPOSITION) \/
     (exists p n, first_occurrence text (tok Tokens.FUN_COMPOSITION) p /\
                  first_occurrence text k n /\ (p < n)%nat) \/
     (exists n c, first_occurrence text k n /\
                  first_occurrence text (tok Tokens.CLUSTER_CLOSE) c /\ (n < c)%nat /\
                  (absent text (tok Tokens.CLUSTER_BEGIN) \/
                   exists a, first_occurrence text (tok Tokens.CLUSTER_BEGIN) a /\
                             (a < n)%nat)))
  /\ (resolvable text k = false -> resolve m rec t k st = Done tt st)
  /\ (resolvable text k = true -> resolve m rec t k st = attempt m rec t k st)
  /\ parseTree m (S fuel) t st =
       bind (forEach (resolve m (parseTree m fuel) t)
               (JS.obj_keys (dependencies (heap st !!! t))))
            (fun _ => fold_and_publish m t) st.
Proof.
  intros text. split; [|split; [|split]].
  - unfold resolvable. rewrite orb_true_iff, isFunctionArgument_positions,
      isInBetweenBraces_positions. tauto.
  - intros Hg. unfold resolve, bind, get_tree. fold text. rewrite Hg. reflexivity.
  - intros Hg. unfold resolve, bind, get_tree. fold text. rewrite Hg. reflexivity.
  - reflexivity.
Qed.

(** C4, counterexample: with the text [f: a: x] the name [a] passes the
    test of the code although it stands before the last [:] and outside any
    cluster, and [parseTree] substitutes it; with the text [a: {a}] the name
    [a] stands inside a cluster and fails the test of the code. *)
Lemma resolution_gate_not_as_described :
  resolvable "f: a: x" "a" = true /\ described_resolvable "f: a: x" "a" = false /\
  resolvable "a: {a}" "a" = false /\ described_resolvable "a: {a}" "a" = true /\
  match Abstract.run 2 (Interpreter.createInterpreter Sample.seven)
          [("f: a: x", "f: a: x", None); ("v", "v", Some "a")] Interpreter.fresh with
  | Done _ st => map currentValue (heap st) = ["f: 7: x"; "v"]
  | _ => False
  end.
Proof. vm_compute. repeat split; reflexivity. Qed.

(** A passing key on a concrete tree, through the statement above. *)
Lemma parseTree_resolution_gate_witness :
  let st := mkStore [mkTree None "f: a: x" [("a", 1%nat)] "f: a: x";
                     mkTree (Some "a") "v" [] "v"]
              (∅ : gmap string (option Accumulator)) Interpreter.fresh in
  resolvable "f: a: x" "a" = true /\
  resolve (Interpreter.createInterpreter Sample.seven) (fun _ => ret None) 0 "a" st
  = attempt (Interpreter.createInterpreter Sample.seven) (fun _ => ret None) 0 "a" st.
Proof.
  intros st.
  destruct (parseTree_resolution_gate (Interpreter.createInterpreter Sample.seven)
              (fun _ => ret None) 0 0 "a" st) as (Hiff & _ & Hgo & _).
  assert (Hg : resolvable "f: a: x" "a" = true).
  { apply Hiff. right; left. exists 1%nat, 3%nat. repeat split.
    - apply (cut_first_occurrence "f: a: x" ":" "f" " a: x"). reflexivity.
    - apply (cut_first_occurrence "f: a: x" "a" "f: " ": x"). reflexivity.
    - lia. }
  split; [exact Hg | exact (Hgo Hg)].
Defined.

(* ===================================================================== *)
(** ** The fold of a node and the substitution of a dependency *)
(* ===================================================================== *)

Section EvaluationFacts.
Context {T MS : Type} `{Value T}.
Variable m : AbstractMachine T MS.

Lemma resolve_idle (rec : nat -> M T MS T) t k st :
  resolvable (currentValue (heap st !!! t)) k = false ->
  resolve m rec t k st = Done tt st.
Proof. intros Hg. unfold resolve, bind, get_tree. rewrite Hg. reflexivity. Qed.

(** A loop whose keys all fail the test changes nothing. *)
Lemma forEach_resolve_idle (rec : nat -> M T MS T) t ks st :
  (forall k, In k ks -> resolvable (currentValue (heap st !!! t)) k = false) ->
  forEach (resolve m rec t) ks st = Done tt st.
Proof.
  induction ks as [|k ks IH]; intros Hks; [reflexivity|].
  simpl. unfold bind. rewrite resolve_idle by (apply Hks; left; reflexivity).
  apply IH. intros k' Hk'. apply Hks. right. exact Hk'.
Qed.

(** What [attempt] writes into the tree: the text of [swap] when it is
    not empty, otherwise the text with the key replaced by the current
    text of the dependency. *)
Lemma attempt_updates (rec : nat -> M T MS T) t k d st cached s1 output st2 value0 s3 :
  JS.obj_get (dependencies (heap st !!! t)) k = Some d ->
  read m k (mstate st) = (Normal cached, s1) ->
  (if truthy cached then Done cached (mkStore (heap st) (this_cache st) s1)
   else rec d (mkStore (heap st) (this_cache st) s1)) = Done output st2 ->
  swap m k (currentValue (heap st2 !!! t)) output (mstate st2) = (Normal value0, s3) ->
  JS.obj_get (dependencies (heap st2 !!! t)) k = Some d ->
  attempt m rec t k st =
  Done tt (mkStore
             (alter (update (if JS.nonempty value0 then value0
                             else JS.replace (currentValue (heap st2 !!! t)) k
                                    (currentValue (heap st2 !!! d))))
                    t (heap st2))
             (this_cache st2) s3).
Proof.
  intros Hd Hread Hout Hswap Hd2.
  unfold attempt, bind, get_tree, call. rewrite Hread. simpl.
  rewrite Hd. destruct (truthy cached).
  - injection Hout as <- <-. unfold ret. simpl in *. rewrite Hswap. simpl.
    destruct (JS.nonempty value0); [reflexivity|]. rewrite Hd2. reflexivity.
  - rewrite Hout, Hswap. simpl.
    destruct (JS.nonempty value0); [reflexivity|]. rewrite Hd2. reflexivity.
Qed.

End EvaluationFacts.

(** A replacement text without a dollar sign is inserted as it is. *)
Lemma GetSubstitution_plain matched before after v :
  absent v "$" -> JS.GetSubstitution matched before after v = v.
Proof.
  induction v as [|c v IH]; intros Ha; [reflexivity|].
  simpl. destruct (Ascii.eqb_spec c "$") as [->|Hne].
  - exfalso. apply (Ha EmptyString v). reflexivity.
  - f_equal. apply IH. intros b a Hv. apply (Ha (String c b) a).
    rewrite append_cons, Hv. reflexivity.
Qed.

(** [replace] puts a dollar-free text in the place of the first occurrence
    of the key. *)
Lemma replace_first_occurrence s k v b a :
  JS.cut s k = Some (b, a) -> absent v "$" ->
  s = b +:+ k +:+ a /\ JS.replace s k v = b +:+ v +:+ a /\
  first_occurrence s k (String.length b).
Proof.
  intros Hc Hv. split; [exact (cut_sound _ _ _ _ Hc)|]. split.
  - unfold JS.replace. rewrite Hc, GetSubstitution_plain by exact Hv. reflexivity.
  - exact (cut_first_occurrence _ _ _ _ Hc).
Qed.

(** C2, as the code has it: a node none of whose dependency names passes
    the test, and whose text splits on [:] into the segments [f], [g], [x],
    is evaluated by folding [x] first, then [g], then [f], each call
    receiving the result of the one before, the segment, its index and the
    list of segments.  A node without a publish name returns the result of
    the last call; a node with a publish name hands that result to [save]
    and returns what [save] returns, which is the result itself with the
    [save] of the reference interpreter. *)
Theorem parseTree_right_to_left {T MS : Type} `{Value T}
    (m : AbstractMachine T MS) (fuel t : nat) (st : store T MS) (f g x : string) :
  (forall k, In k (JS.obj_keys (dependencies (heap st !!! t))) ->
             resolvable (currentValue (heap st !!! t)) k = false) ->
  JS.split (currentValue (heap st !!! t)) Tokens.FUN_COMPOSITION = [f; g; x] ->
  parseTree m (S fuel) t st =
    bind (call (fold m undefined x 2 [f; g; x])) (fun r1 =>
    bind (call (fold m r1 g 1 [f; g; x])) (fun r2 =>
    bind (call (fold m r2 f 0 [f; g; x])) (fun r3 =>
      match truthy_name (ref (heap st !!! t)) with
      | Some name => call (save m name r3)
      | None => ret r3
      end))) st
  /\ forall resolver name v s,
       save (Interpreter.createInterpreter resolver) name v s =
       (Normal v, Interpreter.mk (Interpreter.errors s) (<[name := v]> (Interpreter.cache s))).
Proof.
  intros Hidle Hsplit. split; [|reflexivity].
  simpl. unfold bind at 1, get_tree at 1.
  unfold bind at 1. rewrite forEach_resolve_idle by exact Hidle.
  unfold fold_and_publish, bind at 1, get_tree at 1. rewrite Hsplit.
  unfold reduceRight. simpl. unfold bind, call.
  destruct (fold m undefined x 2 [f; g; x] (mstate st)) as [[r1|e1] s1]; simpl; [|reflexivity].
  destruct (fold m r1 g 1 [f; g; x] s1) as [[r2|e2] s2]; simpl; [|reflexivity].
  destruct (fold m r2 f 0 [f; g; x] s2) as [[r3|e3] s3]; simpl; [|reflexivity].
  reflexivity.
Qed.

(** C2, counterexample: a line [f: g: x] with a publish name, on a machine
    whose [save] answers with a value of its own: [parseTree] returns the
    answer of [save], not the result of the three folds. *)
Lemma parseTree_returns_the_answer_of_save :
  let m := Sample.zero_on_save in
  let st := mkStore [mkTree (Some "r") "f: g: x" [] "f: g: x"]
              (∅ : gmap string (option Accumulator)) tt in
  let r := ["f"; " g"; " x"] in
  JS.split "f: g: x" Tokens.FUN_COMPOSITION = r /\
  bind (call (fold m undefined " x" 2 r)) (fun r1 =>
  bind (call (fold m r1 " g" 1 r)) (fun r2 =>
        call (fold m r2 "f" 0 r))) st = Done (Some ([], TUPLE, NaN)) st /\
  parseTree m 1 0 st = Done (Some ([], VALUE, Int 0)) st.
Proof. repeat split. Qed.

(** The segments [f], [g], [x] of a line with a publish name and without
    dependencies: the three folds in turn, then the result returned. *)
Lemma parseTree_right_to_left_witness :
  let m := Interpreter.createInterpreter Sample.tuples in
  let st := mkStore [mkTree (Some "r") "f: g: x" [] "f: g: x"]
              (∅ : gmap string (option Accumulator)) Interpreter.fresh in
  JS.split "f: g: x" Tokens.FUN_COMPOSITION = ["f"; " g"; " x"] /\
  parseTree m 1 0 st =
    bind (call (fold m undefined " x" 2 ["f"; " g"; " x"])) (fun r1 =>
    bind (call (fold m r1 " g" 1 ["f"; " g"; " x"])) (fun r2 =>
    bind (call (fold m r2 "f" 0 ["f"; " g"; " x"])) (fun r3 =>
    call (save m "r" r3)))) st /\
  match parseTree m 1 0 st with
  | Done r _ => r = Some ([], TUPLE, NaN)
  | _ => False
  end.
Proof.
  intros m st. split; [reflexivity|].
  destruct (parseTree_right_to_left m 0 0 st "f" " g" " x") as [Hp _];
    [intros k []| reflexivity |].
  split; [exact Hp|]. rewrite Hp. reflexivity.
Defined.

(* ===================================================================== *)
(** ** Plain objects and stores of trees *)
(* ===================================================================== *)

Section ObjFacts.
Context {V : Type}.
Implicit Types (o : JS.obj V) (k : string) (v : V).

Lemma obj_get_update_same o k v :
  JS.obj_get o k <> None -> JS.obj_get (JS.obj_update o k v) k = Some v.
Proof.
  induction o as [|[k' v'] o IH]; simpl; [congruence|].
  destruct (String.eqb k' k) eqn:E; simpl; rewrite E; [reflexivity | exact IH].
Qed.

Lemma obj_get_update_other o k v k' :
  k' <> k -> JS.obj_get (JS.obj_update o k v) k' = JS.obj_get o k'.
Proof.
  intros Hne. induction o as [|[k0 v0] o IH]; simpl; [reflexivity|].
  destruct (String.eqb_spec k0 k) as [->|Hk]; simpl.
  - destruct (String.eqb_spec k k'); [congruence | reflexivity].
  - destruct (String.eqb k0 k'); [reflexivity | exact IH].
Qed.

Lemma obj_get_insert_index o n k v k' :
  JS.obj_get o k = None ->
  JS.obj_get (JS.obj_insert_index o n k v) k' =
  if String.eqb k k' then Some v else JS.obj_get o k'.
Proof.
  induction o as [|[k0 v0] o IH]; simpl; [reflexivity|].
  destruct (String.eqb_spec k0 k) as [->|Hk]; [discriminate|]. intros Hget.
  destruct (JS.array_index k0) as [n'|]; [destruct (n' <? n)%N|]; simpl;
    try reflexivity.
  rewrite (IH Hget). destruct (String.eqb_spec k0 k') as [->|Hk'].
  - destruct (String.eqb_spec k k'); [congruence | reflexivity].
  - reflexivity.
Qed.

Lemma obj_get_append o k v k' :
  JS.obj_get o k = None ->
  JS.obj_get (o ++ [(k, v)])%list k' = if String.eqb k k' then Some v else JS.obj_get o k'.
Proof.
  induction o as [|[k0 v0] o IH]; simpl.
  - intros _. destruct (String.eqb k k'); reflexivity.
  - destruct (String.eqb_spec k0 k) as [->|Hk]; [discriminate|]. intros Hget.
    rewrite (IH Hget). destruct (String.eqb_spec k0 k') as [->|Hk'].
    + destruct (String.eqb_spec k k'); [congruence | reflexivity].
    + reflexivity.
Qed.

(** Reading a plain object after an assignment. *)
Lemma obj_get_set o k v k' :
  JS.obj_get (JS.obj_set o k v) k' = if String.eqb k k' then Some v else JS.obj_get o k'.
Proof.
  unfold JS.obj_set. destruct (JS.obj_get o k) as [v0|] eqn:Hget.
  - destruct (String.eqb_spec k k') as [<-|Hne].
    + apply obj_get_update_same. congruence.
    + apply obj_get_update_other. congruence.
  - destruct (JS.array_index k).
    + apply obj_get_insert_index. exact Hget.
    + apply obj_get_append. exact Hget.
Qed.

Lemma obj_get_keys o k : In k (JS.obj_keys o) -> JS.obj_get o k <> None.
Proof.
  induction o as [|[k0 v0] o IH]; simpl; [tauto|].
  intros [->|Hin]; [rewrite String.eqb_refl; discriminate|].
  destruct (String.eqb k0 k); [discriminate | exact (IH Hin)].
Qed.

Lemma obj_get_In o k v : JS.obj_get o k = Some v -> In (k, v) o.
Proof.
  induction o as [|[k0 v0] o IH]; simpl; [discriminate|].
  destruct (String.eqb_spec k0 k) as [->|Hk].
  - intros [= ->]. left. reflexivity.
  - intros Hget. right. exact (IH Hget).
Qed.

End ObjFacts.

Lemma forEach_opt_cons {A St : Type} (body : A -> St -> option St) x xs st :
  forEach_opt body (x :: xs) st =
  match body x st with
  | Some st' => forEach_opt body xs st'
  | None => None
  end.
Proof. reflexivity. Qed.

Lemma same_links_refl h : same_links h h.
Proof. intros i. repeat split. Qed.

Lemma same_links_trans h1 h2 h3 : same_links h1 h2 -> same_links h2 h3 -> same_links h1 h3.
Proof.
  intros H12 H23 i. destruct (H12 i) as (a & b & c), (H23 i) as (a' & b' & c').
  repeat split; congruence.
Qed.

Lemma same_links_update h t v : same_links h (alter (update v) t h).
Proof.
  intros i. rewrite list_lookup_total_alter.
  destruct (decide (t = i /\ (t < length h)%nat)) as [[-> _]|_]; repeat split.
Qed.

Lemma links_ranked_same rank h h' :
  same_links h h' -> links_ranked rank h -> links_ranked rank h'.
Proof.
  intros Hs Hr i a j Hget. destruct (Hs i) as (Hd & _). rewrite Hd in Hget.
  exact (Hr i a j Hget).
Qed.

Lemma same_texts_refl h : same_texts h h.
Proof. intros i. repeat split. Qed.

Lemma same_texts_trans h1 h2 h3 : same_texts h1 h2 -> same_texts h2 h3 -> same_texts h1 h3.
Proof.
  intros H12 H23 i. destruct (H12 i) as (a & b & c), (H23 i) as (a' & b' & c').
  repeat split; congruence.
Qed.

Lemma same_texts_set_dependency h t a d : same_texts h (alter (set_dependency a d) t h).
Proof.
  intros i. rewrite list_lookup_total_alter.
  destruct (decide (t = i /\ (t < length h)%nat)) as [[-> _]|_]; repeat split.
Qed.

(* ===================================================================== *)
(** ** Termination of [Tree.expand] *)
(* ===================================================================== *)

Section ExpandTerminates.
Variable rank : nat -> nat.
Variable deps : JS.obj nat.
Variable h0 : list Tree.

(** The names of [deps] that occur in a text lead down along [rank]. *)
Hypothesis deps_ranked :
  forall i a j, JS.obj_get deps a = Some j ->
                occurs (currentValue (h0 !!! i)) a = true -> (rank j < rank i)%nat.

Lemma links_ranked_set_dependency h this a d :
  same_texts h0 h -> links_ranked rank h ->
  JS.obj_get deps a = Some d -> occurs (currentValue (h !!! this)) a = true ->
  links_ranked rank (alter (set_dependency a d) this h).
Proof.
  intros Hs Hr Hget Hocc i a' j. rewrite list_lookup_total_alter.
  destruct (decide (this = i /\ (this < length h)%nat)) as [[-> _]|_]; [|apply Hr].
  simpl. rewrite obj_get_set. destruct (String.eqb_spec a a') as [<-|_]; [|apply Hr].
  intros [= <-]. apply (deps_ranked i a d Hget).
  destruct (Hs i) as (<- & _). exact Hocc.
Qed.

Lemma expand_terminates n : forall this h,
  same_texts h0 h -> links_ranked rank h -> (rank this < n)%nat ->
  exists h', expand n deps this h = Some h' /\ same_texts h0 h' /\ links_ranked rank h'
             /\ length h' = length h.
Proof.
  induction n as [|n IH]; intros this h Hs Hr Hlt; [lia|].
  simpl. generalize (JS.obj_keys deps). intros ks. revert h Hs Hr.
  induction ks as [|a ks IHks]; intros h Hs Hr; simpl.
  - exists h. split; [reflexivity | split; [assumption | split; [assumption | reflexivity]]].
  - fold (occurs (currentValue (h !!! this)) a).
    destruct (occurs (currentValue (h !!! this)) a) eqn:Hocc; [|apply IHks; assumption].
    destruct (JS.obj_get deps a) as [d|] eqn:Hget; [|apply IHks; assumption].
    pose proof (links_ranked_set_dependency h this a d Hs Hr Hget Hocc) as Hr1.
    pose proof (same_texts_trans _ _ _ Hs (same_texts_set_dependency h this a d)) as Hs1.
    pose proof (length_alter (set_dependency a d) h this) as Hl1.
    destruct (0 <? length _)%nat.
    + destruct (IH d _ Hs1 Hr1) as (h2 & -> & Hs2 & Hr2 & Hl2).
      { assert (rank d < rank this)%nat; [|lia].
        apply (deps_ranked this a d Hget). destruct (Hs this) as (<- & _). exact Hocc. }
      destruct (IHks h2 Hs2 Hr2) as (h3 & -> & Hs3 & Hr3 & Hl3).
      exists h3. split; [reflexivity | split; [assumption | split; [assumption | congruence]]].
    + destruct (IHks _ Hs1 Hr1) as (h3 & -> & Hs3 & Hr3 & Hl3).
      exists h3. split; [reflexivity | split; [assumption | split; [assumption | congruence]]].
Qed.

Lemma expand_all_terminates n xs : forall h,
  same_texts h0 h -> links_ranked rank h -> (forall x, In x xs -> (rank x < n)%nat) ->
  exists h', forEach_opt (expand n deps) xs h = Some h' /\
             same_texts h0 h' /\ links_ranked rank h' /\ length h' = length h.
Proof.
  induction xs as [|x xs IH]; intros h Hs Hr Hn; simpl.
  - exists h. split; [reflexivity | split; [assumption | split; [assumption | reflexivity]]].
  - destruct (expand_terminates n x h Hs Hr) as (h1 & -> & Hs1 & Hr1 & Hl1).
    { apply Hn. left. reflexivity. }
    destruct (IH h1 Hs1 Hr1) as (h2 & -> & Hs2 & Hr2 & Hl2).
    { intros y Hy. apply Hn. right. exact Hy. }
    exists h2. split; [reflexivity | split; [assumption | split; [assumption | congruence]]].
Qed.

End ExpandTerminates.

(* ===================================================================== *)
(** ** Termination of [parseTree] *)
(* ===================================================================== *)

Section OkRules.
Context {T MS : Type} `{Value T}.
Variable m : AbstractMachine T MS.

Lemma ok_ret {A} (a : A) st (Q : A -> store T MS -> Prop) :
  Q a st -> ok m (ret a) st Q.
Proof. intros HQ. exact HQ. Qed.

Lemma ok_bind {A B} (c : M T MS A) (k : A -> M T MS B) st (Q : B -> store T MS -> Prop) :
  ok m c st (fun a st1 => ok m (k a) st1 Q) -> ok m (bind c k) st Q.
Proof. unfold ok, bind. destruct (c st) as [a st1|e st1|]; intros Hc; exact Hc. Qed.

Lemma ok_weaken {A} (c : M T MS A) st (Q Q' : A -> store T MS -> Prop) :
  ok m c st Q -> (forall a st', Q a st' -> Q' a st') -> ok m c st Q'.
Proof. unfold ok. destruct (c st) as [a st1|e st1|]; intros Hc HQ; auto. Qed.

Lemma ok_get_tree t st (Q : Tree -> store T MS -> Prop) :
  Q (heap st !!! t) st -> ok m (get_tree t) st Q.
Proof. intros HQ. exact HQ. Qed.

Lemma ok_update_tree t v st (Q : unit -> store T MS -> Prop) :
  Q tt (mkStore (alter (update v) t (heap st)) (this_cache st) (mstate st)) ->
  ok m (update_tree t v) st Q.
Proof. intros HQ. exact HQ. Qed.

Lemma ok_fold p v i r st (Q : T -> store T MS -> Prop) :
  (forall x s', Q x (mkStore (heap st) (this_cache st) s')) ->
  ok m (call (fold m p v i r)) st Q.
Proof.
  intros HQ. unfold ok, call.
  destruct (fold m p v i r (mstate st)) as [[x|e] s'] eqn:E; [apply HQ|].
  intros (Hf & _). destruct (Hf p v i r (mstate st)) as (x & s'' & Hx). congruence.
Qed.

Lemma ok_read k st (Q : T -> store T MS -> Prop) :
  (forall x s', Q x (mkStore (heap st) (this_cache st) s')) ->
  ok m (call (read m k)) st Q.
Proof.
  intros HQ. unfold ok, call.
  destruct (read m k (mstate st)) as [[x|e] s'] eqn:E; [apply HQ|].
  intros (_ & Hf & _). destruct (Hf k (mstate st)) as (x & s'' & Hx). congruence.
Qed.

Lemma ok_save k v st (Q : T -> store T MS -> Prop) :
  (forall x s', Q x (mkStore (heap st) (this_cache st) s')) ->
  ok m (call (save m k v)) st Q.
Proof.
  intros HQ. unfold ok, call.
  destruct (save m k v (mstate st)) as [[x|e] s'] eqn:E; [apply HQ|].
  intros (_ & _ & Hf & _). destruct (Hf k v (mstate st)) as (x & s'' & Hx). congruence.
Qed.

Lemma ok_swap k v x st (Q : string -> store T MS -> Prop) :
  (forall y s', Q y (mkStore (heap st) (this_cache st) s')) ->
  ok m (call (swap m k v x)) st Q.
Proof.
  intros HQ. unfold ok, call.
  destruct (swap m k v x (mstate st)) as [[y|e] s'] eqn:E; [apply HQ|].
  intros (_ & _ & _ & Hf). destruct (Hf k v x (mstate st)) as (y & s'' & Hy). congruence.
Qed.

(** A loop keeps what each of its steps keeps. *)
Lemma ok_forEach {A} (body : A -> M T MS unit) (I : store T MS -> Prop) xs : forall st,
  I st ->
  (forall x st', In x xs -> I st' -> ok m (body x) st' (fun _ st'' => I st'')) ->
  ok m (forEach body xs) st (fun _ st' => I st').
Proof.
  induction xs as [|x xs IH]; intros st HI Hbody; simpl.
  - apply ok_ret. exact HI.
  - apply ok_bind. eapply ok_weaken; [apply (Hbody x st (or_introl eq_refl) HI)|].
    intros u st1 HI1. apply IH; [exact HI1|].
    intros y st' Hy. apply Hbody. right. exact Hy.
Qed.

Lemma kept_refl (st : store T MS) : kept st st.
Proof. split; [apply same_links_refl | reflexivity]. Qed.

Lemma kept_trans (st1 st2 st3 : store T MS) : kept st1 st2 -> kept st2 st3 -> kept st1 st3.
Proof.
  intros [H12 C12] [H23 C23]. split; [exact (same_links_trans _ _ _ H12 H23) | congruence].
Qed.

Lemma kept_mstate (st0 st : store T MS) s' :
  kept st0 st -> kept st0 (mkStore (heap st) (this_cache st) s').
Proof. intros [Hh Hc]. split; assumption. Qed.

Lemma kept_update (st0 st : store T MS) t v :
  kept st0 st ->
  kept st0 (mkStore (alter (update v) t (heap st)) (this_cache st) (mstate st)).
Proof.
  intros [Hh Hc]. split; [|exact Hc].
  exact (same_links_trans _ _ _ Hh (same_links_update _ t v)).
Qed.

Lemma reduceRight_go_ok arr todo : forall acc st0 st,
  kept st0 st ->
  ok m (reduceRight_go (fun p v i r => call (fold m p v i r)) arr todo acc) st
    (fun _ st' => kept st0 st').
Proof.
  induction todo as [|[i v] todo IH]; intros acc st0 st Hk; simpl.
  - apply ok_ret. exact Hk.
  - apply ok_bind, ok_fold. intros x s'. apply IH. apply kept_mstate. exact Hk.
Qed.

Lemma fold_and_publish_ok t st0 st :
  kept st0 st -> ok m (fold_and_publish m t) st (fun _ st' => kept st0 st').
Proof.
  intros Hk. unfold fold_and_publish. apply ok_bind, ok_get_tree, ok_bind.
  eapply ok_weaken; [apply (reduceRight_go_ok _ _ _ st0 st Hk)|].
  intros tVal st1 Hk1. simpl.
  destruct (truthy_name (ref (heap st !!! t))) as [name|].
  - apply ok_save. intros x s'. apply kept_mstate. exact Hk1.
  - apply ok_ret. exact Hk1.
Qed.

Section Ranked.
Variable rank : nat -> nat.

Lemma attempt_ok (rec : nat -> M T MS T) t k st0 st :
  (forall d st1, (rank d < rank t)%nat -> kept st0 st1 ->
                 ok m (rec d) st1 (fun _ st' => kept st0 st')) ->
  links_ranked rank (heap st0) ->
  kept st0 st ->
  In k (JS.obj_keys (dependencies (heap st0 !!! t))) ->
  ok m (attempt m rec t k) st (fun _ st' => kept st0 st').
Proof.
  intros Hrec Hr Hk Hin. unfold attempt.
  assert (Hdeps : forall st1, kept st0 st1 ->
            exists d, JS.obj_get (dependencies (heap st1 !!! t)) k = Some d /\
                      (rank d < rank t)%nat).
  { intros st1 [Hh _]. destruct (Hh t) as (Hd & _). rewrite Hd.
    destruct (JS.obj_get (dependencies (heap st0 !!! t)) k) as [d|] eqn:Hget.
    - exists d. split; [reflexivity | exact (Hr t k d Hget)].
    - exfalso. exact (obj_get_keys _ _ Hin Hget). }
  apply ok_bind, ok_get_tree, ok_bind, ok_read. intros cached s1.
  pose proof (kept_mstate _ _ s1 Hk) as Hk1.
  apply ok_bind.
  apply (ok_weaken _ _ (fun _ st' => kept st0 st')).
  { destruct (truthy cached); [apply ok_ret; exact Hk1|].
    destruct (Hdeps _ Hk) as (d & -> & Hlt). apply Hrec; assumption. }
  intros output st2 Hk2.
  apply ok_bind, ok_get_tree, ok_bind, ok_swap. intros value0 s3.
  pose proof (kept_mstate _ _ s3 Hk2) as Hk3.
  apply ok_bind, ok_get_tree. simpl.
  destruct (JS.nonempty value0).
  - apply ok_update_tree. apply (kept_update _ _ t value0 Hk3).
  - destruct (Hdeps _ Hk2) as (d & -> & _).
    apply ok_bind, ok_get_tree, ok_update_tree. apply (kept_update _ _ t _ Hk3).
Qed.

Lemma parseTree_ok n : forall t st,
  links_ranked rank (heap st) -> (rank t < n)%nat ->
  ok m (parseTree m n t) st (fun _ st' => kept st st').
Proof.
  induction n as [|n IH]; intros t st Hr Hlt; [lia|].
  simpl. apply ok_bind, ok_get_tree, ok_bind.
  apply (ok_weaken _ _ (fun _ st' => kept st st')).
  - apply (ok_forEach _ (kept st)); [apply kept_refl|].
    intros k st' Hin Hk. unfold resolve. apply ok_bind, ok_get_tree.
    destruct (resolvable _ k); [|apply ok_ret; exact Hk].
    apply (attempt_ok _ t k st st'); [|exact Hr|exact Hk|exact Hin].
    intros d st1 Hd Hk1. eapply ok_weaken.
    + apply IH; [|lia]. destruct Hk1 as [Hh _].
      exact (links_ranked_same _ _ _ Hh Hr).
    + intros u st2 Hk2. exact (kept_trans _ _ _ Hk1 Hk2).
  - intros u st1 Hk1. apply fold_and_publish_ok. exact Hk1.
Qed.

End Ranked.
End OkRules.

(* ===================================================================== *)
(** ** [compile]: termination and the keys of the cache *)
(* ===================================================================== *)

Lemma map_lookup_total_seq {A B : Type} `{Inhabited A} (f : A -> B) (l : list A) :
  map (fun i => f (l !!! i)) (seq 0 (length l)) = map f l.
Proof.
  induction l as [|x l IH]; [reflexivity|].
  simpl. f_equal. rewrite <- seq_shift, map_map. exact IH.
Qed.

Lemma new_trees_lookup p i :
  Abstract.new_trees p !!! i =
  match p !! i with
  | Some l => mkTree (source_ref l) (source_key l) [] (source_text l)
  | None => inhabitant
  end.
Proof.
  revert i. induction p as [|l p IH]; intros [|i]; simpl; try reflexivity. apply IH.
Qed.

Lemma new_trees_text p i : currentValue (Abstract.new_trees p !!! i) = line_text p i.
Proof. rewrite new_trees_lookup. unfold line_text. destruct (p !! i); reflexivity. Qed.

Lemma new_trees_links rank p : links_ranked rank (Abstract.new_trees p).
Proof.
  intros i a j. rewrite new_trees_lookup. destruct (p !! i); simpl; discriminate.
Qed.

Lemma new_trees_keys p : map input (Abstract.new_trees p) = map source_key p.
Proof. unfold Abstract.new_trees. rewrite map_map. reflexivity. Qed.

Lemma expandMacro_keys kwords p :
  map source_key (Abstract.expandMacro kwords p) = map source_key p.
Proof. unfold Abstract.expandMacro. rewrite map_map. reflexivity. Qed.

Lemma expandMacro_refs kwords p :
  map source_ref (Abstract.expandMacro kwords p) = map source_ref p.
Proof. unfold Abstract.expandMacro. rewrite map_map. reflexivity. Qed.

Lemma expandMacro_texts kwords p :
  map source_text (Abstract.expandMacro kwords p) =
  map (Abstract.expandLine kwords) (map source_text p).
Proof. unfold Abstract.expandMacro. rewrite !map_map. reflexivity. Qed.

Lemma rank_below_sum (rank : nat -> nat) xs x :
  In x xs -> (rank x < S (list_sum (map rank xs)))%nat.
Proof.
  induction xs as [|y xs IH]; simpl; [tauto|].
  intros [->|Hin]; [lia|]. specialize (IH Hin). lia.
Qed.

(** The check [ranked] is sound. *)
Lemma ranked_sound rank p : ranked rank p = true -> acyclic p.
Proof.
  unfold ranked. rewrite andb_true_iff, !forallb_forall. intros [Hempty Hall].
  exists rank. intros i j (a & Hget & Hocc).
  apply obj_get_In in Hget. unfold line_text in Hocc.
  destruct (p !! i) as [l|] eqn:Hi.
  - assert (Hin : In i (seq 0 (length p))).
    { apply in_seq. apply lookup_lt_Some in Hi. lia. }
    specialize (Hall i Hin). rewrite forallb_forall in Hall.
    specialize (Hall _ Hget). simpl in Hall. unfold line_text in Hall.
    rewrite Hi, Hocc in Hall. simpl in Hall. apply Nat.ltb_lt. exact Hall.
  - specialize (Hempty _ Hget). simpl in Hempty. rewrite Hocc in Hempty. discriminate.
Qed.

Section CompileTerminates.
Context {T MS : Type} `{Value T}.
Variable m : AbstractMachine T MS.
Variable rank : nat -> nat.

Lemma evaluate_all_ok n xs : forall (st0 st : store T MS),
  links_ranked rank (heap st0) -> same_links (heap st0) (heap st) ->
  (forall x, In x xs -> (rank x < n)%nat) ->
  ok m (forEach (Abstract.evaluate m n) xs) st
    (fun _ st' =>
       same_links (heap st0) (heap st') /\
       dom (this_cache st') =
       list_to_set (map (fun i => input (heap st0 !!! i)) xs) ∪ dom (this_cache st)).
Proof.
  induction xs as [|x xs IH]; intros st0 st Hr Hs Hn; simpl.
  - apply ok_ret. split; [exact Hs|]. simpl. rewrite (left_id_L ∅ (∪)). reflexivity.
  - apply ok_bind. unfold Abstract.evaluate at 1. apply ok_bind, ok_get_tree, ok_bind.
    eapply ok_weaken.
    { apply (parseTree_ok m rank n x st); [|apply Hn; left; reflexivity].
      exact (links_ranked_same _ _ _ Hs Hr). }
    intros v st1 [Hs1 Hc1]. unfold ok, cache_set.
    pose proof (same_links_trans _ _ _ Hs Hs1) as Hs01.
    eapply ok_weaken.
    { apply (IH st0); [exact Hr|exact Hs01|]. intros y Hy. apply Hn. right. exact Hy. }
    simpl. intros u st2 [Hs2 Hd2]. split; [exact Hs2|].
    rewrite Hd2, dom_insert_L, Hc1. destruct (Hs x) as (_ & -> & _).
    rewrite (assoc_L (∪)), (comm_L (∪) (list_to_set _) {[ _ ]}). reflexivity.
Qed.

Lemma run_ok n (p : list Source) (s : MS) :
  (forall i j, refers_to p i j -> (rank j < rank i)%nat) ->
  (S (list_sum (map rank (seq 0 (length p)))) <= n)%nat ->
  match Abstract.run n m p s with
  | Done _ st => dom (this_cache st) = list_to_set (map source_key p)
  | Raise _ _ => ~ never_throws m
  | Diverge => False
  end.
Proof.
  intros Hrank Hn. unfold Abstract.run, Abstract.scanDependencyTree.
  assert (Hfuel : forall x, In x (seq 0 (length p)) -> (rank x < n)%nat).
  { intros x Hx. pose proof (rank_below_sum rank _ x Hx). lia. }
  destruct (expand_all_terminates rank (Abstract.scan_mem p) (Abstract.new_trees p)
              ltac:(intros i a j Hget Hocc; apply Hrank; exists a;
                    rewrite <- new_trees_text; split; assumption)
              n (seq 0 (length p)) (Abstract.new_trees p)
              (same_texts_refl _) (new_trees_links rank p) Hfuel)
    as (trees & -> & Hs & Hr & Hl).
  assert (Hlen : length trees = length p).
  { rewrite Hl. unfold Abstract.new_trees. apply length_map. }
  rewrite Hlen.
  pose proof (evaluate_all_ok n (seq 0 (length p)) (mkStore trees ∅ s) (mkStore trees ∅ s)
                Hr (same_links_refl _) Hfuel) as Hok.
  unfold ok in Hok.
  destruct (forEach (Abstract.evaluate m n) (seq 0 (length p)) (mkStore trees ∅ s))
    as [u st|e st|]; try exact Hok.
  destruct Hok as [_ Hd]. rewrite Hd. simpl. rewrite dom_empty_L, (right_id_L ∅ (∪)).
  f_equal. rewrite <- new_trees_keys.
  rewrite <- (map_lookup_total_seq input (Abstract.new_trees p)).
  rewrite <- Hl, Hlen.
  apply map_ext. intros i. destruct (Hs i) as (_ & -> & _). reflexivity.
Qed.

End CompileTerminates.

(* ===================================================================== *)
(** ** A self-referential name *)
(* ===================================================================== *)

Lemma obj_set_nonempty {V : Type} (o : JS.obj V) k v :
  (0 <? length (JS.obj_keys (JS.obj_set o k v)))%nat = true.
Proof.
  unfold JS.obj_set. destruct (JS.obj_get o k) eqn:Hget.
  - destruct o as [|[k' v'] o]; [discriminate|]. simpl.
    destruct (String.eqb k' k); reflexivity.
  - destruct (JS.array_index k) as [n|].
    + destruct o as [|[k' v'] o]; [reflexivity|]. simpl.
      destruct (JS.array_index k') as [n'|]; [destruct (n' <? n)%N|]; reflexivity.
    + unfold JS.obj_keys. rewrite length_map, length_app. simpl.
      apply Nat.ltb_lt. lia.
Qed.

Lemma expand_self_reference n : forall h,
  currentValue (h !!! 0%nat) = "a" -> (0 < length h)%nat ->
  expand n [("a", 0%nat)] 0 h = None.
Proof.
  induction n as [|n IH]; intros h Hcv Hlen; [reflexivity|].
  simpl. rewrite Hcv. simpl.
  rewrite list_lookup_total_alter_eq by exact Hlen. simpl.
  rewrite obj_set_nonempty. rewrite IH; [reflexivity| |].
  - rewrite list_lookup_total_alter_eq by exact Hlen. exact Hcv.
  - rewrite length_alter. exact Hlen.
Qed.

(** A line whose name occurs in its own text: [compile] does not return,
    whatever the bound on the nesting of the calls of [expand]. *)
Lemma self_reference_diverges {T MS : Type} `{Value T}
    (m : AbstractMachine T MS) (fuel : nat) (c : gmap string T) (s : MS) :
  Abstract.compile fuel m (Abstract.mk c [] [("a", "a", Some "a")]) s = Abstract.Diverges.
Proof.
  unfold Abstract.compile, Abstract.run, Abstract.scanDependencyTree.
  change (Abstract.expandMacro [] [("a", "a", Some "a")]) with [("a", "a", Some "a")].
  change (Abstract.scan_mem [("a", "a", Some "a")]) with [("a", 0%nat)].
  simpl length. simpl seq. rewrite forEach_opt_cons.
  rewrite expand_self_reference; [reflexivity|reflexivity|simpl; lia].
Qed.

(* ===================================================================== *)
(** ** [compile] and the program *)
(* ===================================================================== *)

(** C10: whenever [compile] ends, by returning or by throwing, the program
    of the object is the expanded program: the text of every line has gone
    through the macro table, the display keys, the publish names and the
    macro table are as before, and the next [compile] starts from the
    rewritten texts. *)
Theorem compile_rewrites_program {T MS : Type} `{Value T}
    (m : AbstractMachine T MS) (fuel : nat) (a : Abstract.t T) (s : MS) :
  forall a',
    (exists s', Abstract.compile fuel m a s = Abstract.Returned a' s') \/
    (exists e s', Abstract.compile fuel m a s = Abstract.Thrown e a' s') ->
    Abstract.program a' = Abstract.expandMacro (Abstract.macro a) (Abstract.program a) /\
    map source_text (Abstract.program a') =
      map (Abstract.expandLine (Abstract.macro a)) (map source_text (Abstract.program a)) /\
    map source_key (Abstract.program a') = map source_key (Abstract.program a) /\
    map source_ref (Abstract.program a') = map source_ref (Abstract.program a) /\
    Abstract.macro a' = Abstract.macro a /\
    forall (m2 : AbstractMachine T MS) fuel2 s2 a'',
      (exists s', Abstract.compile fuel2 m2 a' s2 = Abstract.Returned a'' s') \/
      (exists e s', Abstract.compile fuel2 m2 a' s2 = Abstract.Thrown e a'' s') ->
      map source_text (Abstract.program a'') =
        map (Abstract.expandLine (Abstract.macro a))
          (map (Abstract.expandLine (Abstract.macro a)) (map source_text (Abstract.program a))).
Proof.
  assert (Hone : forall (m1 : AbstractMachine T MS) fuel1 (a1 : Abstract.t T) s1 a2,
    (exists s', Abstract.compile fuel1 m1 a1 s1 = Abstract.Returned a2 s') \/
    (exists e s', Abstract.compile fuel1 m1 a1 s1 = Abstract.Thrown e a2 s') ->
    Abstract.program a2 = Abstract.expandMacro (Abstract.macro a1) (Abstract.program a1) /\
    Abstract.macro a2 = Abstract.macro a1).
  { intros m1 fuel1 a1 s1 a2. unfold Abstract.compile.
    destruct (Abstract.run fuel1 m1 _ s1) as [u st|e st|];
      intros [(s' & Hc)|(e' & s' & Hc)]; try discriminate;
      injection Hc; intros; subst a2; split; reflexivity. }
  intros a' Hc. destruct (Hone _ _ _ _ _ Hc) as [Hp Hm].
  rewrite Hp, expandMacro_texts, expandMacro_keys, expandMacro_refs.
  repeat split; try reflexivity; try exact Hm.
  intros m2 fuel2 s2 a'' Hc2. destruct (Hone _ _ _ _ _ Hc2) as [Hp2 _].
  rewrite Hp2, Hm, Hp, !expandMacro_texts. reflexivity.
Qed.

(** The rewriting at work: the macro [a -> aa] turns the text [a] into [aa]
    at the first call and into [aaa] at the second. *)
Lemma compile_rewrites_program_witness :
  let a := build [("a", None)] [("a", "aa")] in
  let m := Interpreter.createInterpreter Sample.spot_aa in
  match Abstract.compile 1 m a Interpreter.fresh with
  | Abstract.Returned a' s' =>
      Abstract.program a' = [("aa", "a", None)] /\
      map source_key (Abstract.program a') = map source_key (Abstract.program a) /\
      match Abstract.compile 1 m a' s' with
      | Abstract.Returned a'' _ => map source_text (Abstract.program a'') = ["aaa"]
      | _ => False
      end
  | _ => False
  end.
Proof.
  intros a m.
  destruct (Abstract.compile 1 m a Interpreter.fresh) as [a' s'| |] eqn:E;
    [|vm_compute in E; discriminate..].
  destruct (compile_rewrites_program m 1 a Interpreter.fresh a'
              (or_introl (ex_intro _ s' E))) as (Hp & _ & Hk & _ & _ & Hnext).
  split; [rewrite Hp; reflexivity|]. split; [exact Hk|].
  destruct (Abstract.compile 1 m a' s') as [a'' s''| |] eqn:E2.
  - rewrite (Hnext m 1%nat s' a'' (or_introl (ex_intro _ s'' E2))). reflexivity.
  - exfalso. unfold Abstract.compile in E2. rewrite Hp in E2.
    injection E as <- <-. vm_compute in E2. discriminate.
  - exfalso. unfold Abstract.compile in E2. rewrite Hp in E2.
    injection E as <- <-. vm_compute in E2. discriminate.
Defined.

(** C9, as the code has it: when expanding the expanded program changes
    nothing (an empty macro table, or macros that leave none of their keys
    behind) and the machine is handed over in the same state (two fresh
    interpreters of one pure resolver), a second [compile] ends like the
    first, with the same cache. *)
Theorem compile_twice {T MS : Type} `{Value T}
    (m : AbstractMachine T MS) (fuel : nat) (a a1 : Abstract.t T) (s s1 : MS) :
  Abstract.expandMacro (Abstract.macro a)
    (Abstract.expandMacro (Abstract.macro a) (Abstract.program a))
  = Abstract.expandMacro (Abstract.macro a) (Abstract.program a) ->
  Abstract.compile fuel m a s = Abstract.Returned a1 s1 ->
  Abstract.compile fuel m a1 s = Abstract.Returned a1 s1 /\
  forall a2 s2, Abstract.compile fuel m a1 s = Abstract.Returned a2 s2 ->
                Abstract.cache a2 = Abstract.cache a1.
Proof.
  intros Hidem Hc.
  assert (Hsame : Abstract.compile fuel m a1 s = Abstract.Returned a1 s1).
  { unfold Abstract.compile in *.
    destruct (Abstract.run fuel m _ s) as [u st|e st|] eqn:Hrun; try discriminate.
    injection Hc as <- <-. simpl. rewrite Hidem, Hrun. reflexivity. }
  split; [exact Hsame|]. intros a2 s2 Hc2. congruence.
Qed.

(** C9, counterexample: the macro [a -> aa] puts its own key back, so the
    second call folds the token [aaa] where the first folded [aa], and a
    pure resolver that tells them apart fills the cache differently. *)
Lemma compile_twice_differs :
  let a := build [("a", None)] [("a", "aa")] in
  let m := Interpreter.createInterpreter Sample.spot_aa in
  match Abstract.compile 1 m a Interpreter.fresh with
  | Abstract.Returned a1 _ =>
      match Abstract.compile 1 m a1 Interpreter.fresh with
      | Abstract.Returned a2 _ =>
          Abstract.cache a1 !! "a" = Some (Some ([], VALUE, Int 1)) /\
          Abstract.cache a2 !! "a" = Some (Some ([], VALUE, Int 0)) /\
          Abstract.cache a1 <> Abstract.cache a2
      | _ => False
      end
  | _ => False
  end.
Proof.
  intros a m.
  assert (Haux :
    match Abstract.compile 1 m a Interpreter.fresh with
    | Abstract.Returned a1 _ =>
        match Abstract.compile 1 m a1 Interpreter.fresh with
        | Abstract.Returned a2 _ =>
            Abstract.cache a1 !! "a" = Some (Some ([], VALUE, Int 1)) /\
            Abstract.cache a2 !! "a" = Some (Some ([], VALUE, Int 0))
        | _ => False
        end
    | _ => False
    end) by (vm_compute; split; reflexivity).
  destruct (Abstract.compile 1 m a Interpreter.fresh) as [a1 s1| |]; try exact Haux.
  destruct (Abstract.compile 1 m a1 Interpreter.fresh) as [a2 s2| |]; try exact Haux.
  destruct Haux as [H1 H2]. split; [exact H1|]. split; [exact H2|].
  intros Heq. rewrite Heq in H1. congruence.
Qed.

(** The program of the test suite compiled twice with fresh interpreters. *)
Lemma compile_twice_witness :
  let a := build Sample.references [] in
  let m := Interpreter.createInterpreter Sample.tuples in
  match Abstract.compile 3 m a Interpreter.fresh with
  | Abstract.Returned a1 s1 =>
      Abstract.compile 3 m a1 Interpreter.fresh = Abstract.Returned a1 s1
  | _ => False
  end.
Proof.
  intros a m.
  destruct (Abstract.compile 3 m a Interpreter.fresh) as [a1 s1| |] eqn:E;
    [|vm_compute in E; discriminate..].
  apply (compile_twice m 3 a a1 Interpreter.fresh s1); [reflexivity | exact E].
Defined.

(** Handing the second call the interpreter of the first is not enough: its
    cache answers [read] before the dependency has been rewritten. *)
Lemma compile_twice_same_interpreter :
  let a := build [("B", None); ("C", Some "B"); ("k", Some "C")] [] in
  let m := Interpreter.createInterpreter Sample.spot_k in
  match Abstract.compile 3 m a Interpreter.fresh with
  | Abstract.Returned a1 s1 =>
      match Abstract.compile 3 m a1 s1 with
      | Abstract.Returned a2 _ =>
          Abstract.program a1 = Abstract.program a /\
          Abstract.cache a1 !! "B" = Some (Some ([], TUPLE, Int 1)) /\
          Abstract.cache a2 !! "B" = Some (Some ([], TUPLE, Int 0))
      | _ => False
      end
  | _ => False
  end.
Proof. vm_compute. repeat split. Qed.

(* ===================================================================== *)
(** ** Failures of the resolver *)
(* ===================================================================== *)

Lemma occurs_false_cut s k : occurs s k = false -> JS.cut s k = None.
Proof.
  unfold occurs, JS.indexOf. destruct (JS.cut s k) as [[b a]|]; [|reflexivity].
  rewrite Z.gtb_ltb, Z.ltb_ge. lia.
Qed.

Lemma split_without_separator s c :
  occurs s (tok c) = false -> JS.split s c = [s].
Proof.
  intros Hocc. apply occurs_false_cut in Hocc. revert Hocc.
  induction s as [|d s IH]; [reflexivity|].
  simpl. destruct (Ascii.eqb_spec c d) as [->|Hne]; [discriminate|].
  destruct (Ascii.eqb_spec d c) as [->|_]; [congruence|].
  destruct (JS.cut s (tok c)) as [[b a]|] eqn:Hc; [discriminate|].
  intros _. rewrite IH; reflexivity.
Qed.

Lemma bind_done {T MS A B : Type} (c : M T MS A) (k : A -> M T MS B) st a st' :
  c st = Done a st' -> bind c k st = k a st'.
Proof. intros Hc. unfold bind. rewrite Hc. reflexivity. Qed.

Lemma get_tree_done {T MS : Type} t (st : store T MS) :
  get_tree t st = Done (heap st !!! t) st.
Proof. reflexivity. Qed.

Section Failing.
Variable resolver : Resolver.
Implicit Types (c : gmap string (option Accumulator)).

(** [fold] never throws: what the resolver returns is returned, and what
    it throws is logged with the accumulator, the token, the tokens and
    the position of the call, the accumulator being returned as it was. *)
Lemma fold_catches acc token n input s :
  match resolver (JS.trim token) acc n input with
  | Normal a => Interpreter.fold resolver acc token n input s = (Normal a, s)
  | Abrupt e =>
      Interpreter.fold resolver acc token n input s =
      (Normal acc,
       Interpreter.mk (Interpreter.errors s ++ [(e, acc, token, input, n)])
         (Interpreter.cache s))
  end.
Proof.
  unfold Interpreter.fold. destruct (resolver (JS.trim token) acc n input); reflexivity.
Qed.

Hypothesis failing : always_throws resolver.

Lemma call_fold_failing acc v i arr h (c : gmap string (option Accumulator)) errs ic :
  exists e,
    call (fold (Interpreter.createInterpreter resolver) acc v i arr)
      (mkStore h c (Interpreter.mk errs ic))
    = Done acc (mkStore h c (Interpreter.mk (errs ++ [(e, acc, v, arr, i)]) ic)).
Proof.
  destruct (failing (JS.trim v) acc i arr) as [e He]. exists e.
  unfold call. simpl. unfold Interpreter.fold. rewrite He. reflexivity.
Qed.

Lemma reduceRight_go_failing arr todo :
  forall acc h (c : gmap string (option Accumulator)) errs ic,
  exists es,
    reduceRight_go
      (fun p v i r => call (fold (Interpreter.createInterpreter resolver) p v i r))
      arr todo acc (mkStore h c (Interpreter.mk errs ic))
    = Done acc (mkStore h c (Interpreter.mk (errs ++ es) ic))
    /\ length es = length todo.
Proof.
  induction todo as [|[i v] todo IH]; intros acc h c errs ic; simpl.
  - exists []. rewrite app_nil_r. split; reflexivity.
  - destruct (call_fold_failing acc v i arr h c errs ic) as [e He].
    rewrite (bind_done _ _ _ _ _ He).
    destruct (IH acc h c (errs ++ [(e, acc, v, arr, i)])%list ic) as (es & Hes & Hlen).
    exists ((e, acc, v, arr, i) :: es). split; [|simpl; lia].
    rewrite <- app_assoc in Hes. exact Hes.
Qed.

Lemma parseTree_failing n t h (c : gmap string (option Accumulator)) errs ic :
  dependencies (h !!! t) = [] ->
  exists es ic',
    parseTree (Interpreter.createInterpreter resolver) (S n) t
      (mkStore h c (Interpreter.mk errs ic))
    = Done None (mkStore h c (Interpreter.mk (errs ++ es) ic'))
    /\ length es = length (JS.split (currentValue (h !!! t)) Tokens.FUN_COMPOSITION).
Proof.
  intros Hdeps. simpl.
  rewrite (bind_done _ _ _ _ _ (get_tree_done t _)). simpl heap. rewrite Hdeps.
  simpl forEach. rewrite (bind_done _ _ _ tt _ eq_refl).
  unfold fold_and_publish.
  rewrite (bind_done _ _ _ _ _ (get_tree_done t _)). simpl heap.
  destruct (reduceRight_go_failing
              (JS.split (currentValue (h !!! t)) Tokens.FUN_COMPOSITION)
              (rev (imap pair (JS.split (currentValue (h !!! t)) Tokens.FUN_COMPOSITION)))
              undefined h c errs ic) as (es & Hred & Hlen).
  rewrite length_rev, length_imap in Hlen.
  unfold reduceRight. rewrite (bind_done _ _ _ _ _ Hred).
  destruct (truthy_name (ref (h !!! t))) as [name|].
  - exists es, (<[name := None]> ic). split; [reflexivity | exact Hlen].
  - exists es, ic. split; [reflexivity | exact Hlen].
Qed.

Lemma evaluate_all_failing n xs h :
  forall (c : gmap string (option Accumulator)) errs ic,
  (forall i, dependencies (h !!! i) = []) ->
  exists c' errs' ic',
    forEach (Abstract.evaluate (Interpreter.createInterpreter resolver) (S n)) xs
      (mkStore h c (Interpreter.mk errs ic))
    = Done tt (mkStore h c' (Interpreter.mk errs' ic'))
    /\ dom c' = list_to_set (map (fun i => input (h !!! i)) xs) ∪ dom c
    /\ length errs' =
       (length errs +
        list_sum (map (fun i => length (JS.split (currentValue (h !!! i))
                                          Tokens.FUN_COMPOSITION)) xs))%nat.
Proof.
  induction xs as [|x xs IH]; intros c errs ic Hdeps; simpl.
  - exists c, errs, ic. split; [reflexivity|]. split; [|lia].
    rewrite (left_id_L ∅ (∪)). reflexivity.
  - destruct (parseTree_failing n x h c errs ic (Hdeps x)) as (es & ic1 & Hparse & Hlen).
    assert (Hstep : Abstract.evaluate (Interpreter.createInterpreter resolver) (S n) x
                      (mkStore h c (Interpreter.mk errs ic))
                    = Done tt (mkStore h (<[input (h !!! x) := None]> c)
                                 (Interpreter.mk (errs ++ es) ic1))).
    { unfold Abstract.evaluate.
      rewrite (bind_done _ _ _ _ _ (get_tree_done x _)), (bind_done _ _ _ _ _ Hparse).
      reflexivity. }
    rewrite (bind_done _ _ _ _ _ Hstep).
    destruct (IH (<[input (h !!! x) := None]> c) (errs ++ es)%list ic1 Hdeps)
      as (c' & errs' & ic' & Hrest & Hdom & Herrs).
    exists c', errs', ic'. split; [exact Hrest|]. split.
    + rewrite Hdom, dom_insert_L.
      rewrite (assoc_L (∪)), (comm_L (∪) (list_to_set _) {[ _ ]}). reflexivity.
    + rewrite Herrs, length_app, Hlen. lia.
Qed.

End Failing.

Lemma expand_without_names n deps this h :
  (forall a j, JS.obj_get deps a = Some j -> occurs (currentValue (h !!! this)) a = false) ->
  expand (S n) deps this h = Some h.
Proof.
  intros Hno. simpl.
  assert (Hks : forall ks, (forall a, In a ks -> In a (JS.obj_keys deps)) ->
            forEach_opt
              (fun a h1 =>
                 if JS.indexOf (currentValue (h1 !!! this)) a >? -1 then
                   match JS.obj_get deps a with
                   | Some depTree =>
                       let h2 := alter (set_dependency a depTree) this h1 in
                       if (0 <? length (JS.obj_keys (dependencies (h2 !!! depTree))))%nat
                       then expand n deps depTree h2
                       else Some h2
                   | None => Some h1
                   end
                 else Some h1) ks h = Some h).
  { induction ks as [|a ks IH]; intros Hin; simpl; [reflexivity|].
    destruct (JS.obj_get deps a) as [j|] eqn:Hget.
    - pose proof (Hno a j Hget) as Hocc. unfold occurs in Hocc. rewrite Hocc.
      apply IH. intros b Hb. apply Hin. right. exact Hb.
    - exfalso. apply (obj_get_keys deps a); [apply Hin; left; reflexivity | exact Hget]. }
  apply Hks. intros a Ha. exact Ha.
Qed.

Lemma scanDependencyTree_without_names n p :
  (forall i j, ~ refers_to p i j) ->
  Abstract.scanDependencyTree (S n) p = Some (Abstract.new_trees p).
Proof.
  intros Hno. unfold Abstract.scanDependencyTree.
  generalize (seq 0 (length p)). intros xs. induction xs as [|x xs IH]; [reflexivity|].
  rewrite forEach_opt_cons, expand_without_names; [exact IH|].
  intros a j Hget. rewrite new_trees_text.
  destruct (occurs (line_text p x) a) eqn:Hocc; [|reflexivity].
  exfalso. apply (Hno x j). exists a. split; assumption.
Qed.

(** C5, as the code has it: the [fold] of the interpreter catches what the
    resolver throws, logs it with the accumulator, the token, the tokens and
    the position, and returns the accumulator as it was; and with a resolver
    that throws on every call, [compile] on a program none of whose texts
    contains a publish name returns, the keys of the cache are the display
    keys, and the log has one entry per segment: for three lines without
    [:] and with distinct display keys, three cache entries and three log
    entries. *)
Theorem compile_isolates_failures (resolver : Resolver)
    (a : Abstract.t (option Accumulator)) (fuel : nat) :
  let p := Abstract.expandMacro (Abstract.macro a) (Abstract.program a) in
  always_throws resolver ->
  (forall i j, ~ refers_to p i j) ->
  (forall acc token n input s e,
     resolver (JS.trim token) acc n input = Abrupt e ->
     Interpreter.fold resolver acc token n input s =
     (Normal acc,
      Interpreter.mk (Interpreter.errors s ++ [(e, acc, token, input, n)])
        (Interpreter.cache s))) /\
  exists a' s',
    Abstract.compile (S fuel) (Interpreter.createInterpreter resolver) a Interpreter.fresh
    = Abstract.Returned a' s' /\
    dom (Abstract.cache a') = list_to_set (map source_key (Abstract.program a)) /\
    (NoDup (map source_key (Abstract.program a)) ->
     size (Abstract.cache a') = length (Abstract.program a)) /\
    length (Interpreter.errors s') = segments p /\
    ((forall l, In l p -> occurs (source_text l) (tok Tokens.FUN_COMPOSITION) = false) ->
     length (Interpreter.errors s') = length (Abstract.program a)).
Proof.
  intros p Hfail Hno. split.
  { intros acc token n input s e He.
    pose proof (fold_catches resolver acc token n input s) as Hf.
    rewrite He in Hf. exact Hf. }
  unfold Abstract.compile, Abstract.run. fold p.
  rewrite (scanDependencyTree_without_names fuel p Hno).
  destruct (evaluate_all_failing resolver Hfail fuel
              (seq 0 (length (Abstract.new_trees p))) (Abstract.new_trees p) ∅ [] ∅)
    as (c' & errs' & ic' & Hrun & Hdom & Herrs).
  { intros i. rewrite new_trees_lookup. destruct (p !! i); reflexivity. }
  unfold Interpreter.fresh. rewrite Hrun. eexists _, _. split; [reflexivity|].
  cbn [Abstract.cache this_cache mstate Interpreter.errors].
  assert (Hkeys : dom c' = list_to_set (map source_key (Abstract.program a))).
  { rewrite Hdom, dom_empty_L, (right_id_L ∅ (∪)).
    rewrite (map_lookup_total_seq input), new_trees_keys. unfold p.
    rewrite expandMacro_keys. reflexivity. }
  assert (Hsegs : length errs' = segments p).
  { rewrite Herrs. simpl.
    rewrite (map_lookup_total_seq
               (fun t => length (JS.split (currentValue t) Tokens.FUN_COMPOSITION))).
    unfold Abstract.new_trees, segments. rewrite map_map. reflexivity. }
  split; [exact Hkeys|]. split; [|split; [exact Hsegs|]].
  - intros Hnd. rewrite <- size_dom, Hkeys, size_list_to_set by exact Hnd. apply length_map.
  - intros Hfree. rewrite Hsegs.
    assert (Hone : forall q, (forall l, In l q ->
                      occurs (source_text l) (tok Tokens.FUN_COMPOSITION) = false) ->
              segments q = length q).
    { unfold segments. induction q as [|l q IH]; intros Hq; [reflexivity|]. simpl.
      rewrite split_without_separator by (apply Hq; left; reflexivity).
      rewrite IH; [reflexivity|]. intros l' Hl'. apply Hq. right. exact Hl'. }
    rewrite (Hone p Hfree). unfold p, Abstract.expandMacro. apply length_map.
Qed.

(** Three plain lines and a resolver that throws on every call. *)
Lemma compile_isolates_failures_witness :
  let a := build [("a", None); ("x", None); ("y", None)] [] in
  let p := Abstract.expandMacro (Abstract.macro a) (Abstract.program a) in
  always_throws Sample.failing /\ (forall i j, ~ refers_to p i j) /\
  exists a' s',
    Abstract.compile 1 (Interpreter.createInterpreter Sample.failing) a Interpreter.fresh
    = Abstract.Returned a' s' /\
    size (Abstract.cache a') = 3%nat /\ length (Interpreter.errors s') = 3%nat.
Proof.
  intros a p.
  assert (Hfail : always_throws Sample.failing).
  { intros token acc n input. eexists. reflexivity. }
  assert (Hno : forall i j, ~ refers_to p i j).
  { intros i j (k & Hget & _). vm_compute in Hget. discriminate. }
  split; [exact Hfail|]. split; [exact Hno|].
  destruct (compile_isolates_failures Sample.failing a 0 Hfail Hno)
    as (_ & a' & s' & Hc & _ & Hsize & _ & Herrs).
  exists a', s'. split; [exact Hc|]. split.
  - apply Hsize. apply (bool_decide_unpack _). vm_compute. exact I.
  - apply Herrs. intros l Hl. vm_compute in Hl.
    destruct Hl as [<-|[<-|[<-|[]]]]; reflexivity.
Defined.

(** C5, counterexample: the resolver throws on every call.  When the first
    of three lines refers to the second, the accumulator of the second line
    stays [undefined], [swap] cannot take it apart, and [compile] throws.
    When the first of three lines has two segments, [compile] returns and
    the log has four entries. *)
Lemma compile_failures_not_as_described :
  match Abstract.compile 2 (Interpreter.createInterpreter Sample.failing)
          (build [("a", None); ("x", Some "a"); ("y", None)] []) Interpreter.fresh with
  | Abstract.Thrown (TypeError _) a' s' =>
      Abstract.cache a' = ∅ /\ length (Interpreter.errors s') = 1%nat
  | _ => False
  end /\
  match Abstract.compile 2 (Interpreter.createInterpreter Sample.failing)
          (build [("f: x", None); ("y", None); ("z", None)] []) Interpreter.fresh with
  | Abstract.Returned a' s' =>
      size (Abstract.cache a') = 3%nat /\ length (Interpreter.errors s') = 4%nat
  | _ => False
  end.
Proof. vm_compute. repeat split. Qed.

(* ===================================================================== *)
(** ** Dollar patterns in the text of a dependency *)
(* ===================================================================== *)

(** C3, at the failing input: the line [f: B] refers to the line named [B]
    whose text is [$&]; [swap] returns the empty string for a tuple
    solution, and [replace] reads the text of the dependency as a pattern
    for the matched name, so that the text of the line stays [f: B] where
    the literal replacement is [f: $&]. *)
Theorem substitution_expands_dollar_patterns :
  JS.replace "f: B" "B" "$&" = "f: B" /\
  match Abstract.run 2 (Interpreter.createInterpreter Sample.tuples)
          [("f: B", "f: B", None); ("$&", "$&", Some "B")] Interpreter.fresh with
  | Done _ st => map currentValue (heap st) = ["f: B"; "$&"]
  | _ => False
  end.
Proof. vm_compute. split; reflexivity. Qed.

(* ===================================================================== *)
(** ** [trim], [slice] and the grammar *)
(* ===================================================================== *)

Section TrimFacts.

Lemma trimStart_blank pre s : blank pre = true -> JS.trimStart (pre +:+ s) = JS.trimStart s.
Proof.
  induction pre as [|c pre IH]; [reflexivity|].
  simpl. rewrite andb_true_iff. intros [Hc Hpre]. rewrite ?append_cons. simpl.
  rewrite Hc. exact (IH Hpre).
Qed.

Lemma trimStart_solid c s :
  JS.is_whitespace c = false -> JS.trimStart (String c s) = String c s.
Proof. intros Hc. simpl. rewrite Hc. reflexivity. Qed.

Lemma trimEnd_solid c s :
  JS.is_whitespace c = false -> JS.trimEnd (String c s) = String c (JS.trimEnd s).
Proof. intros Hc. simpl. rewrite Hc. destruct (JS.trimEnd s); reflexivity. Qed.

Lemma trimEnd_blank_solid mid c s :
  JS.is_whitespace c = false ->
  JS.trimEnd (mid +:+ String c s) = mid +:+ String c (JS.trimEnd s).
Proof.
  intros Hc. induction mid as [|d mid IH].
  - rewrite !append_nil_l. apply trimEnd_solid. exact Hc.
  - rewrite !append_cons. simpl. rewrite IH.
    destruct mid; [rewrite append_nil_l | rewrite append_cons]; reflexivity.
Qed.

Lemma trimEnd_idempotent s : JS.trimEnd (JS.trimEnd s) = JS.trimEnd s.
Proof.
  induction s as [|c s IH]; [reflexivity|].
  simpl. destruct (JS.trimEnd s) as [|d r] eqn:E.
  - destruct (JS.is_whitespace c) eqn:Hc; [reflexivity|]. simpl. rewrite Hc. reflexivity.
  - simpl. simpl in IH. rewrite IH. reflexivity.
Qed.

Lemma trimStart_trimEnd s : JS.trimStart (JS.trimEnd s) = JS.trimEnd (JS.trimStart s).
Proof.
  induction s as [|c s IH]; [reflexivity|].
  destruct (JS.is_whitespace c) eqn:Hc.
  - simpl JS.trimStart at 2. rewrite Hc, <- IH. simpl. clear IH.
    destruct (JS.trimEnd s) as [|d r]; [rewrite Hc; reflexivity|].
    apply (trimStart_blank (tok c) (String d r)). simpl. rewrite Hc. reflexivity.
  - rewrite trimStart_solid, trimEnd_solid by exact Hc.
    apply trimStart_solid. exact Hc.
Qed.

Lemma trim_trimEnd s : JS.trim (JS.trimEnd s) = JS.trim s.
Proof. unfold JS.trim. rewrite trimStart_trimEnd, trimEnd_idempotent. reflexivity. Qed.

Lemma substring_all s : String.substring 0 (String.length s) s = s.
Proof. induction s as [|c s IH]; [reflexivity|]. simpl. rewrite IH. reflexivity. Qed.

Lemma substring_skip b s n :
  String.substring (String.length b) n (b +:+ s) = String.substring 0 n s.
Proof.
  induction b as [|c b IH]; [reflexivity|]. rewrite append_cons. simpl. exact IH.
Qed.

(** [slice] from the end of a prefix gives the rest. *)
Lemma slice_from_append b s :
  JS.slice_from (b +:+ s) (Z.of_nat (String.length b)) = s.
Proof.
  unfold JS.slice_from, JS.slice. rewrite length_append.
  set (lb := String.length b). set (ls := String.length s).
  destruct (Z.ltb_spec (Z.of_nat lb) 0) as [Hneg|_]; [lia|].
  destruct (Z.ltb_spec (Z.of_nat (lb + ls)) 0) as [Hneg|_]; [lia|].
  rewrite !Z.min_l by lia.
  replace (Z.to_nat (Z.of_nat lb)) with lb by lia.
  replace (Z.to_nat (Z.max (Z.of_nat (lb + ls) - Z.of_nat lb) 0)) with ls by lia.
  unfold lb, ls. rewrite substring_skip. apply substring_all.
Qed.

Lemma blank_no_solid mid c b a :
  blank mid = true -> JS.is_whitespace c = false -> mid <> b +:+ tok c +:+ a.
Proof.
  revert b. induction mid as [|d mid IH]; intros b Hmid Hc Heq.
  - destruct b; [rewrite append_nil_l in Heq | rewrite append_cons in Heq]; discriminate.
  - simpl in Hmid. apply andb_true_iff in Hmid as [Hd Hmid].
    destruct b as [|e b].
    + rewrite append_nil_l in Heq. unfold tok in Heq. rewrite append_cons in Heq.
      injection Heq as -> _. congruence.
    + rewrite append_cons in Heq. injection Heq as _ Heq. exact (IH b Hmid Hc Heq).
Qed.

(** The operator of a clause is first found right after the white space
    that follows the header. *)
Lemma cut_operator h mid o r :
  blank mid = true -> JS.is_whitespace o = false -> h <> o ->
  JS.cut (String h (mid +:+ String o r)) (tok o) = Some (String h mid, r).
Proof.
  intros Hmid Ho Hne.
  assert (Hrest : JS.cut (mid +:+ String o r) (tok o) = Some (mid, r)).
  { clear Hne. induction mid as [|d mid IH].
    - rewrite append_nil_l. simpl. rewrite Ascii.eqb_refl. reflexivity.
    - simpl in Hmid. apply andb_true_iff in Hmid as [Hd Hmid].
      rewrite append_cons. simpl. destruct (Ascii.eqb_spec o d) as [->|_]; [congruence|].
      rewrite (IH Hmid). reflexivity. }
  simpl. destruct (Ascii.eqb_spec o h) as [->|_]; [congruence|].
  rewrite Hrest. reflexivity.
Qed.

End TrimFacts.

(* ===================================================================== *)
(** ** [QueryBuilder.parse] *)
(* ===================================================================== *)

(** C7, as the code has it: [parse] trims the clause; the header is its
    first character; the operator is the first character after the header
    that is not white space, whatever else it is; the operand is the trimmed
    text after the operator (the operator being looked for from the start of
    the clause, and here different from the header); and the predicate is
    the handler registered under header and operator, given the operand. *)
Theorem parse_decomposition {R : Type} (q : QueryBuilder.t R)
    (pre mid rest : string) (h o : ascii) :
  blank pre = true -> blank mid = true ->
  JS.is_whitespace h = false -> JS.is_whitespace o = false -> h <> o ->
  let input := pre +:+ String h (mid +:+ String o rest) in
  QueryBuilder.parse_head input = tok h /\
  QueryBuilder.parse_func input = tok o /\
  QueryBuilder.parse_tail input = JS.trim rest /\
  QueryBuilder.parse q input =
    match QueryBuilder.support q !! String h (tok o) with
    | Some call => Normal (call (JS.trim rest))
    | None => Abrupt (Clause.unexpected input)
    end.
Proof.
  intros Hpre Hmid Hh Ho Hne input.
  assert (Hexpr : QueryBuilder.parse_expr input
                  = String h (mid +:+ String o (JS.trimEnd rest))).
  { unfold QueryBuilder.parse_expr, JS.trim, input.
    rewrite trimStart_blank by exact Hpre. rewrite trimStart_solid by exact Hh.
    rewrite trimEnd_solid by exact Hh. rewrite trimEnd_blank_solid by exact Ho. reflexivity. }
  assert (Hhead : QueryBuilder.parse_head input = tok h).
  { unfold QueryBuilder.parse_head. rewrite Hexpr. unfold JS.trim.
    rewrite trimStart_solid, trimEnd_solid by exact Hh. reflexivity. }
  assert (Hfunc : QueryBuilder.parse_func input = tok o).
  { unfold QueryBuilder.parse_func. rewrite Hexpr.
    change (String h (mid +:+ String o (JS.trimEnd rest)))
      with (tok h +:+ (mid +:+ String o (JS.trimEnd rest))).
    rewrite (slice_from_append (tok h)). unfold JS.trim.
    rewrite <- (append_nil_r mid) at 1. rewrite append_assoc, append_nil_l.
    rewrite trimStart_blank by exact Hmid. rewrite trimStart_solid by exact Ho.
    rewrite trimEnd_solid by exact Ho. reflexivity. }
  assert (Htail : QueryBuilder.parse_tail input = JS.trim rest).
  { unfold QueryBuilder.parse_tail. rewrite Hfunc, Hexpr. unfold JS.indexOf.
    rewrite cut_operator by assumption.
    change (String h (mid +:+ String o (JS.trimEnd rest)))
      with (String h mid +:+ String o (JS.trimEnd rest)) at 1.
    change (String o (JS.trimEnd rest)) with (tok o +:+ JS.trimEnd rest).
    rewrite <- append_assoc.
    replace (Z.of_nat (String.length (String h mid)) + 1)
      with (Z.of_nat (String.length (String h mid +:+ tok o)))
      by (rewrite length_append; simpl; lia).
    rewrite slice_from_append. apply trim_trimEnd. }
  repeat split; try assumption.
  unfold QueryBuilder.parse. rewrite Hhead, Hfunc, Htail. reflexivity.
Qed.

(** A clause with a two-letter name, through the statement above: with
    [ab=1] the operator of the code is [b] and the operand [=1]. *)
Lemma parse_decomposition_witness :
  let q : QueryBuilder.t unit :=
    QueryBuilder.register QueryBuilder.new
      (QueryBuilder.mkQueryable "a" [("b", fun c _ => String.eqb c "=1")]) in
  QueryBuilder.parse_func "ab=1" = "b" /\ QueryBuilder.parse_tail "ab=1" = "=1" /\
  exists p, QueryBuilder.parse q "ab=1" = Normal p /\ p tt = true.
Proof.
  intros q.
  destruct (parse_decomposition q EmptyString EmptyString "=1" "a" "b") as (_ & Hf & Ht & Hp);
    try reflexivity; [discriminate|].
  split; [exact Hf|]. split; [exact Ht|].
  eexists. split; [exact Hp | reflexivity].
Defined.

(** C7, counterexample: for the clause [ab=1] the description gives the
    header [a], the operator [=] and the operand [1], and finds the handler
    registered for [a=]; the code takes [b] for the operator, looks [ab] up
    and throws. *)
Lemma parse_not_as_described :
  let q : QueryBuilder.t unit :=
    QueryBuilder.register QueryBuilder.new
      (QueryBuilder.mkQueryable "a" [("=", fun c _ => String.eqb c "1")]) in
  QueryBuilder.parse_func "ab=1" = "b" /\
  Described.operator_and_operand "b=1" = Some ("=", "1") /\
  (exists p, Described.parse q "ab=1" = Normal p /\ p tt = true) /\
  QueryBuilder.parse q "ab=1" = Abrupt (Clause.unexpected "ab=1").
Proof.
  intros q. split; [reflexivity|]. split; [reflexivity|]. split.
  - eexists. split; reflexivity.
  - reflexivity.
Qed.

(* ===================================================================== *)
(** ** [QueryBuilder.scan] *)
(* ===================================================================== *)

Section ScanFacts.
Context {R : Type}.
Variable q : QueryBuilder.t R.

Lemma parse_lookup input (handler : option (QueryBuilder.QueryableClause R)) :
  QueryBuilder.support q !! Clause.clause_key input = handler ->
  QueryBuilder.parse q input =
  match handler with
  | Some call => Normal (call (QueryBuilder.parse_tail input))
  | None => Abrupt (Clause.unexpected input)
  end.
Proof. intros <-. reflexivity. Qed.

Lemma parse_known input (call : QueryBuilder.QueryableClause R) key tail :
  Clause.clause_key input = key -> QueryBuilder.parse_tail input = tail ->
  QueryBuilder.support q !! key = Some call ->
  QueryBuilder.parse q input = Normal (call tail).
Proof. intros <- <- Hs. rewrite (parse_lookup _ _ Hs). reflexivity. Qed.

Lemma parse_all_known cs :
  (forall c, In c cs -> Clause.known q c) ->
  exists ps, QueryBuilder.parse_all q cs = Normal ps /\ length ps = length cs.
Proof.
  induction cs as [|c cs IH]; intros Hk; simpl.
  - exists []. split; reflexivity.
  - destruct (QueryBuilder.support q !! Clause.clause_key c) as [call|] eqn:Hc;
      rewrite (parse_lookup _ _ Hc).
    + destruct IH as (ps & -> & Hlen); [intros d Hd; apply Hk; right; exact Hd|].
      eexists. split; [reflexivity|]. simpl. rewrite Hlen. reflexivity.
    + exfalso. exact (Hk c (or_introl eq_refl) Hc).
Qed.

Lemma parse_all_unknown before input after :
  (forall c, In c before -> Clause.known q c) ->
  QueryBuilder.support q !! Clause.clause_key input = None ->
  QueryBuilder.parse_all q (before ++ input :: after)%list = Abrupt (Clause.unexpected input).
Proof.
  intros Hk Hu. induction before as [|c before IH]; simpl.
  - rewrite (parse_lookup _ _ Hu). reflexivity.
  - destruct (QueryBuilder.support q !! Clause.clause_key c) as [call|] eqn:Hc;
      rewrite (parse_lookup _ _ Hc).
    + rewrite IH; [reflexivity|]. intros d Hd. apply Hk. right. exact Hd.
    + exfalso. exact (Hk c (or_introl eq_refl) Hc).
Qed.

Lemma cluster_clauses_eq e0 :
  QueryBuilder.cluster q e0 =
  if (0 <? String.length (JS.trim e0))%nat then
    match QueryBuilder.parse_all q (Clause.cluster_clauses e0) with
    | Normal ps =>
        Normal (Some (QueryBuilder.mkQuery (JS.trim e0) (JS.charAt0 (JS.trim e0)) ps))
    | Abrupt e => Abrupt e
    end
  else Normal None.
Proof. reflexivity. Qed.

Lemma drain_cons e0 es :
  QueryBuilder.drain q (e0 :: es) =
  match QueryBuilder.cluster q e0 with
  | Normal (Some y) => ((y :: (QueryBuilder.drain q es).1), (QueryBuilder.drain q es).2)
  | Normal None => QueryBuilder.drain q es
  | Abrupt e => ([], Some e)
  end.
Proof.
  simpl. destruct (QueryBuilder.cluster q e0) as [[y|]|e]; try reflexivity.
  destruct (QueryBuilder.drain q es). reflexivity.
Qed.

(** Whatever a piece matches, the text after the match is an end of the
    text it started from. *)
Lemma star_suffix p k x : forall s,
  QueryBuilder.star p s k = Some x -> exists pre rest, s = pre +:+ rest /\ k rest = Some x.
Proof.
  induction s as [|c s IH]; simpl; intros Hs.
  - exists EmptyString, EmptyString. split; [reflexivity | exact Hs].
  - destruct (p c).
    + destruct (QueryBuilder.star p s k) as [y|] eqn:Hstar.
      * injection Hs as ->. destruct (IH eq_refl) as (pre & rest & -> & Hk).
        exists (String c pre), rest. split; [reflexivity | exact Hk].
      * exists EmptyString, (String c s). split; [reflexivity | exact Hs].
    + exists EmptyString, (String c s). split; [reflexivity | exact Hs].
Qed.

Lemma lazy_star_suffix p k x : forall s,
  QueryBuilder.lazy_star p s k = Some x ->
  exists pre rest, s = pre +:+ rest /\ k rest = Some x.
Proof.
  induction s as [|c s IH]; simpl; intros Hs.
  - destruct (k EmptyString) as [y|] eqn:Hk; [|discriminate].
    exists EmptyString, EmptyString. split; [reflexivity | congruence].
  - destruct (k (String c s)) as [y|] eqn:Hk.
    + exists EmptyString, (String c s). split; [reflexivity | congruence].
    + destruct (p c); [|discriminate].
      destruct (IH Hs) as (pre & rest & -> & Hk').
      exists (String c pre), rest. split; [reflexivity | exact Hk'].
Qed.

Lemma run_suffix r : forall s k x,
  QueryBuilder.run r s k = Some x -> exists pre rest, s = pre +:+ rest /\ k rest = Some x.
Proof.
  induction r as [p|p|p|r1 IH1 r2 IH2]; intros s k x; simpl.
  - destruct s as [|c s]; [discriminate|]. destruct (p c); [|discriminate].
    intros Hk. exists (String c EmptyString), s. split; [reflexivity | exact Hk].
  - apply star_suffix.
  - destruct s as [|c s]; [discriminate|]. destruct (p c); [|discriminate].
    intros Hs. destruct (lazy_star_suffix _ _ _ _ Hs) as (pre & rest & -> & Hk).
    exists (String c pre), rest. split; [reflexivity | exact Hk].
  - intros Hs. destruct (IH1 _ _ _ Hs) as (pre1 & mid & -> & Hmid).
    destruct (IH2 _ _ _ Hmid) as (pre2 & rest & -> & Hk).
    exists (pre1 +:+ pre2), rest. split; [rewrite append_assoc; reflexivity | exact Hk].
Qed.

Lemma substring_prefix pre rest :
  String.substring 0 (String.length (pre +:+ rest) - String.length rest) (pre +:+ rest) = pre.
Proof.
  rewrite length_append.
  replace (String.length pre + String.length rest - String.length rest)%nat
    with (String.length pre) by lia.
  induction pre as [|c pre IH]; simpl.
  - destruct rest; reflexivity.
  - rewrite IH. reflexivity.
Qed.

Lemma run_seq_class p r s k :
  QueryBuilder.run (QueryBuilder.Seq (QueryBuilder.Class p) r) s k =
  match s with
  | String c s' => if p c then QueryBuilder.run r s' k else None
  | EmptyString => None
  end.
Proof. reflexivity. Qed.

Lemma run_seq_star p r s k :
  QueryBuilder.run (QueryBuilder.Seq (QueryBuilder.Star p) r) s k =
  QueryBuilder.star p s (fun s' => QueryBuilder.run r s' k).
Proof. reflexivity. Qed.

Lemma match_here_sound s e0 rest :
  QueryBuilder.match_here s = Some (e0, rest) -> signed_text e0 /\ s = e0 +:+ rest.
Proof.
  unfold QueryBuilder.match_here.
  destruct (QueryBuilder.run QueryBuilder.grammar s Some) as [r|] eqn:Hrun; [|discriminate].
  intros [= <- <-]. unfold QueryBuilder.grammar in Hrun. rewrite run_seq_class in Hrun.
  destruct s as [|c s]; [discriminate|].
  destruct (QueryBuilder.is_sign c) eqn:Hc; [|discriminate].
  rewrite run_seq_star in Hrun.
  destruct (star_suffix _ _ _ _ Hrun) as (pre1 & mid & -> & Hmid). cbv beta in Hmid.
  destruct (run_suffix _ _ _ _ Hmid) as (pre2 & rest & -> & Hk). injection Hk as ->.
  rewrite <- append_assoc, <- append_cons, substring_prefix.
  split; [|reflexivity]. exists c, (pre1 +:+ pre2). split; [reflexivity | exact Hc].
Qed.

Lemma exec_sound s e0 rest :
  QueryBuilder.exec s = Some (e0, rest) ->
  signed_text e0 /\ exists before, s = before +:+ e0 +:+ rest.
Proof.
  induction s as [|c s IH]; [discriminate|].
  change (QueryBuilder.exec (String c s))
    with (match QueryBuilder.match_here (String c s) with
          | Some r => Some r
          | None => QueryBuilder.exec s
          end).
  - destruct (QueryBuilder.match_here (String c s)) as [[e r]|] eqn:Hm.
    + intros [= <- <-]. destruct (match_here_sound _ _ _ Hm) as [Hsg Heq].
      split; [exact Hsg|]. exists EmptyString. rewrite append_nil_l. exact Heq.
    + intros He. destruct (IH He) as [Hsg [before Heq]].
      split; [exact Hsg|]. exists (String c before). rewrite append_cons, <- Heq. reflexivity.
Qed.

Lemma exec_all_sound n : forall s,
  Forall signed_text (QueryBuilder.exec_all n s) /\ in_order (QueryBuilder.exec_all n s) s.
Proof.
  induction n as [|n IH]; intros s; simpl; [split; [constructor | exact I]|].
  destruct (QueryBuilder.exec s) as [[e0 rest]|] eqn:He; [|split; [constructor | exact I]].
  destruct (exec_sound _ _ _ He) as [Hsg [before Heq]]. destruct (IH rest) as [Hall Hord].
  split; [constructor; assumption|]. simpl. exists before, rest. split; assumption.
Qed.

Lemma exec_rest_shorter s e0 rest :
  QueryBuilder.exec s = Some (e0, rest) -> (String.length rest < String.length s)%nat.
Proof.
  intros He. destruct (exec_sound _ _ _ He) as [(c & body & -> & _) [before ->]].
  rewrite !length_append. simpl. lia.
Qed.

(** The list of matches does not depend on the bound, once the bound is
    the length of the input or more. *)
Lemma exec_all_enough n : forall m s,
  (String.length s <= n)%nat -> (String.length s <= m)%nat ->
  QueryBuilder.exec_all n s = QueryBuilder.exec_all m s.
Proof.
  induction n as [|n IH]; intros m s Hn Hm.
  - destruct s; [|simpl in Hn; lia]. destruct m; reflexivity.
  - destruct m as [|m].
    + destruct s; [reflexivity | simpl in Hm; lia].
    + simpl. destruct (QueryBuilder.exec s) as [[e0 rest]|] eqn:He; [|reflexivity].
      pose proof (exec_rest_shorter _ _ _ He). f_equal. apply IH; lia.
Qed.

Lemma sign_is_solid c : QueryBuilder.is_sign c = true -> JS.is_whitespace c = false.
Proof.
  unfold QueryBuilder.is_sign. rewrite !orb_true_iff, !Ascii.eqb_eq.
  intros [[->| ->]| ->]; reflexivity.
Qed.

Lemma signed_text_trim e0 : signed_text e0 -> (0 <? String.length (JS.trim e0))%nat = true.
Proof.
  intros (c & body & -> & Hc). apply sign_is_solid in Hc. unfold JS.trim.
  rewrite trimStart_solid, trimEnd_solid by exact Hc. reflexivity.
Qed.

(** Clusters whose clauses all have handlers are yielded one by one. *)
Lemma drain_known es :
  Forall signed_text es ->
  (forall e c, In e es -> In c (Clause.cluster_clauses e) -> Clause.known q c) ->
  exists qs,
    QueryBuilder.drain q es = (qs, None) /\
    map QueryBuilder.text qs = map JS.trim es /\
    map QueryBuilder.sign qs = map (fun e => JS.charAt0 (JS.trim e)) es /\
    Forall2 (fun y e => length (QueryBuilder.test y) = length (Clause.cluster_clauses e))
      qs es.
Proof.
  induction es as [|e0 es IH]; intros Hsg Hk.
  - exists []. repeat split; constructor.
  - inversion Hsg as [|? ? Hs0 Hsg']; subst.
    destruct IH as (qs & Hd & Ht & Hs & Hl); [exact Hsg'| |].
    { intros e c He. apply Hk. right. exact He. }
    destruct (parse_all_known (Clause.cluster_clauses e0)) as (ps & Hps & Hlen).
    { intros c. apply Hk. left. reflexivity. }
    rewrite drain_cons, cluster_clauses_eq, (signed_text_trim _ Hs0), Hps, Hd.
    eexists. split; [reflexivity|]. simpl. rewrite Ht, Hs.
    repeat split. constructor; [exact Hlen | exact Hl].
Qed.

(** The clusters before the first unknown clause are yielded, and the
    error of that clause ends the iteration. *)
Lemma drain_unknown es1 e0 es2 before input after :
  Forall signed_text (es1 ++ e0 :: es2)%list ->
  (forall e c, In e es1 -> In c (Clause.cluster_clauses e) -> Clause.known q c) ->
  Clause.cluster_clauses e0 = (before ++ input :: after)%list ->
  (forall c, In c before -> Clause.known q c) ->
  QueryBuilder.support q !! Clause.clause_key input = None ->
  exists qs,
    QueryBuilder.drain q (es1 ++ e0 :: es2)%list = (qs, Some (Clause.unexpected input)) /\
    map QueryBuilder.text qs = map JS.trim es1.
Proof.
  intros Hsg Hk1 Hcl Hkb Hu. induction es1 as [|e es1 IH].
  - simpl app. inversion Hsg as [|? ? Hs0 _]; subst.
    rewrite drain_cons, cluster_clauses_eq, (signed_text_trim _ Hs0), Hcl.
    rewrite (parse_all_unknown _ _ _ Hkb Hu). exists []. split; reflexivity.
  - rewrite <- app_comm_cons in *. inversion Hsg as [|? ? Hs0 Hsg']; subst.
    destruct IH as (qs & Hd & Ht); [exact Hsg'| |].
    { intros e' c He'. apply Hk1. right. exact He'. }
    destruct (parse_all_known (Clause.cluster_clauses e)) as (ps & Hps & _).
    { intros c. apply Hk1. left. reflexivity. }
    rewrite drain_cons, cluster_clauses_eq, (signed_text_trim _ Hs0), Hps, Hd.
    eexists. split; [reflexivity|]. simpl. rewrite Ht. reflexivity.
Qed.

End ScanFacts.

(** C8: a clause for whose header and operator no handler is registered
    makes [parse] throw the error whose message is [unexpected], a space
    and the clause between double quotes, the clause being the text handed
    to [parse], untrimmed; and [scan] lets the error through: the clusters
    before the one with the first such clause are yielded, and then the
    iteration ends with that error. *)
Theorem parse_unknown_clause {R : Type} (q : QueryBuilder.t R) (input : string) :
  QueryBuilder.support q !! Clause.clause_key input = None ->
  QueryBuilder.parse q input
  = Abrupt (Error ("unexpected " +:+ dquote +:+ input +:+ dquote)) /\
  forall text es1 e0 es2 before after,
    QueryBuilder.matches (QueryBuilder.signed text) = (es1 ++ e0 :: es2)%list ->
    (forall e c, In e es1 -> In c (Clause.cluster_clauses e) -> Clause.known q c) ->
    Clause.cluster_clauses e0 = (before ++ input :: after)%list ->
    (forall c, In c before -> Clause.known q c) ->
    exists qs,
      QueryBuilder.scan q text
      = (qs, Some (Error ("unexpected " +:+ dquote +:+ input +:+ dquote))) /\
      map QueryBuilder.text qs = map JS.trim es1.
Proof.
  intros Hu. split; [rewrite (parse_lookup _ _ _ Hu); reflexivity|].
  intros text es1 e0 es2 before after Hm Hk1 Hcl Hkb. unfold QueryBuilder.scan. rewrite Hm.
  apply (drain_unknown q es1 e0 es2 before input after); try assumption.
  rewrite <- Hm. apply (exec_all_sound _ _).
Qed.

(** The filter [{z ? 1}] on a builder without handlers. *)
Lemma parse_unknown_clause_witness :
  QueryBuilder.support (QueryBuilder.new (R := unit)) !! Clause.clause_key "z ? 1" = None /\
  QueryBuilder.parse (QueryBuilder.new (R := unit)) "z ? 1"
  = Abrupt (Error ("unexpected " +:+ dquote +:+ "z ? 1" +:+ dquote)) /\
  QueryBuilder.scan (QueryBuilder.new (R := unit)) "{z ? 1}"
  = ([], Some (Error ("unexpected " +:+ dquote +:+ "z ? 1" +:+ dquote))).
Proof.
  assert (Hu : QueryBuilder.support (QueryBuilder.new (R := unit))
               !! Clause.clause_key "z ? 1" = None) by reflexivity.
  destruct (parse_unknown_clause QueryBuilder.new "z ? 1" Hu) as [Hp Hs].
  split; [exact Hu|]. split; [exact Hp|].
  destruct (Hs "{z ? 1}" [] "~{z ? 1}" [] [] [] eq_refl
              (fun _ _ (H : In _ []) => match H with end) eq_refl
              (fun _ (H : In _ []) => match H with end)) as (qs & Hscan & Hqs).
  destruct qs; [exact Hscan | discriminate].
Defined.

(** C6: [scan] puts the sign [~] before an input that starts with an
    opening brace; the matches of the grammar lie in the signed input one
    after the other, each starts with a sign, and the bound of the loop is
    never reached; when every clause has a handler, [scan] yields one
    query per match, in that order, with the text of the match, its first
    character for sign, and one predicate per clause.  With a handler for
    [x=], the filter [{x = 1}] gives one query of sign [~], text
    [~{x = 1}] and one predicate; with handlers for [a], [b] and [c], the
    filter [{a} + {b} - {c}] gives three queries of signs [~], [+], [-]. *)
Theorem scan_yields_clusters {R : Type} (q : QueryBuilder.t R) :
  (forall input,
     JS.charAt0 input = tok Tokens.CLUSTER_BEGIN ->
     QueryBuilder.signed input = tok Tokens.CLUSTER_OP_INNER +:+ input) /\
  (forall input,
     in_order (QueryBuilder.matches (QueryBuilder.signed input)) (QueryBuilder.signed input) /\
     Forall signed_text (QueryBuilder.matches (QueryBuilder.signed input)) /\
     forall n, (String.length (QueryBuilder.signed input) <= n)%nat ->
               QueryBuilder.exec_all n (QueryBuilder.signed input)
               = QueryBuilder.matches (QueryBuilder.signed input)) /\
  (forall input,
     (forall e c, In e (QueryBuilder.matches (QueryBuilder.signed input)) ->
                  In c (Clause.cluster_clauses e) -> Clause.known q c) ->
     exists qs,
       QueryBuilder.scan q input = (qs, None) /\
       map QueryBuilder.text qs
       = map JS.trim (QueryBuilder.matches (QueryBuilder.signed input)) /\
       map QueryBuilder.sign qs
       = map (fun e => JS.charAt0 (JS.trim e))
           (QueryBuilder.matches (QueryBuilder.signed input)) /\
       Forall2 (fun y e => length (QueryBuilder.test y) = length (Clause.cluster_clauses e))
         qs (QueryBuilder.matches (QueryBuilder.signed input))) /\
  (forall f, QueryBuilder.support q !! "x=" = Some f ->
     QueryBuilder.scan q "{x = 1}" = ([QueryBuilder.mkQuery "~{x = 1}" "~" [f "1"]], None)) /\
  (forall fa fb fc,
     QueryBuilder.support q !! "a" = Some fa ->
     QueryBuilder.support q !! "b" = Some fb ->
     QueryBuilder.support q !! "c" = Some fc ->
     QueryBuilder.scan q "{a} + {b} - {c}"
     = ([QueryBuilder.mkQuery "~{a}" "~" [fa EmptyString];
         QueryBuilder.mkQuery "+ {b}" "+" [fb EmptyString];
         QueryBuilder.mkQuery "- {c}" "-" [fc EmptyString]], None)).
Proof.
  split; [|split; [|split; [|split]]].
  - intros input Hc. unfold QueryBuilder.signed. rewrite Hc. reflexivity.
  - intros input. split; [apply (exec_all_sound _ _)|]. split; [apply (exec_all_sound _ _)|].
    intros n Hn. apply exec_all_enough; [exact Hn | lia].
  - intros input Hk. unfold QueryBuilder.scan. apply drain_known; [|exact Hk].
    apply (exec_all_sound _ _).
  - intros f Hf. unfold QueryBuilder.scan.
    change (QueryBuilder.matches (QueryBuilder.signed "{x = 1}")) with ["~{x = 1}"].
    rewrite drain_cons, cluster_clauses_eq.
    change (Clause.cluster_clauses "~{x = 1}") with ["x = 1"]. simpl QueryBuilder.parse_all.
    rewrite (parse_known q "x = 1" f "x=" "1" eq_refl eq_refl Hf). reflexivity.
  - intros fa fb fc Ha Hb Hc. unfold QueryBuilder.scan.
    change (QueryBuilder.matches (QueryBuilder.signed "{a} + {b} - {c}"))
      with ["~{a}"; "+ {b}"; "- {c}"].
    rewrite !drain_cons, !cluster_clauses_eq.
    change (Clause.cluster_clauses "~{a}") with ["a"].
    change (Clause.cluster_clauses "+ {b}") with ["b"].
    change (Clause.cluster_clauses "- {c}") with ["c"]. simpl QueryBuilder.parse_all.
    rewrite (parse_known q "a" fa "a" EmptyString eq_refl eq_refl Ha).
    rewrite (parse_known q "b" fb "b" EmptyString eq_refl eq_refl Hb).
    rewrite (parse_known q "c" fc "c" EmptyString eq_refl eq_refl Hc). reflexivity.
Qed.

(** The two filters on a builder where the handlers are registered. *)
Lemma scan_yields_clusters_witness :
  let f : QueryBuilder.QueryableClause unit := fun c _ => String.eqb c "1" in
  let g : QueryBuilder.QueryableClause unit := fun c _ => String.eqb c EmptyString in
  let q := QueryBuilder.register
             (QueryBuilder.register
                (QueryBuilder.register
                   (QueryBuilder.register QueryBuilder.new
                      (QueryBuilder.mkQueryable "x" [("=", f)]))
                   (QueryBuilder.mkQueryable "a" [(EmptyString, g)]))
                (QueryBuilder.mkQueryable "b" [(EmptyString, g)]))
             (QueryBuilder.mkQueryable "c" [(EmptyString, g)]) in
  QueryBuilder.scan q "{x = 1}" = ([QueryBuilder.mkQuery "~{x = 1}" "~" [f "1"]], None) /\
  map QueryBuilder.sign (QueryBuilder.scan q "{a} + {b} - {c}").1 = ["~"; "+"; "-"].
Proof.
  intros f g q. destruct (scan_yields_clusters q) as (_ & _ & _ & Hx & Habc).
  split.
  - apply Hx. reflexivity.
  - rewrite (Habc g g g); reflexivity.
Defined.

(* ===================================================================== *)
(** ** The tests of the repository, run on the embedding *)
(* ===================================================================== *)

(** [must successfully build a runtime and allocate a memory space] *)
Example test_memory_size :
  match Abstract.compile 1 (Interpreter.createInterpreter (fun _ acc _ _ => Normal acc))
          (build [("a", None); ("b", None); ("c", None); ("d", None); ("s", None)] [])
          Interpreter.fresh with
  | Abstract.Returned a _ => size (Abstract.cache a) = 5%nat
  | _ => False
  end.
Proof. vm_compute. reflexivity. Qed.

(** [must retrieve computed value from memory and find some errors] *)
Example test_errors :
  match Abstract.compile 1 (Interpreter.createInterpreter Sample.once)
          (build [("{#1}", None); ("x: {#2}", Some "ref. bb s0");
                  ("x: x: {#3}", Some "ref. cc s0")] [])
          Interpreter.fresh with
  | Abstract.Returned a s =>
      size (Abstract.cache a) = 3%nat /\ length (Interpreter.errors s) = 3%nat /\
      Abstract.cache a !! "{#1}" = Some (Some ([mkTuple (Int 0) (Int 0)], TUPLE, NaN))
  | _ => False
  end.
Proof. vm_compute. repeat split. Qed.

(** [must scan tokens and resolve dependency tree as expected]: the name
    [reference #1] is replaced by the value at the index, the name
    [reference #2] by the text of its line, and no token is unexpected. *)
Example test_dependency_tree :
  match Abstract.run 3 (Interpreter.createInterpreter Sample.expected)
          (Abstract.program (build Sample.references [])) Interpreter.fresh with
  | Done _ st =>
      map currentValue (heap st)
      = ["max: {...}"; "tuple: sum: {s < 4}"; "avg: tuple: sum: {s < 4}"] /\
      this_cache st !! "max: {...}" = Some (Some (Sample.data, INDEX, Int 2)) /\
      this_cache st !! "tuple: sum: {s < reference #1}"
      = Some (Some (Sample.summed, TUPLE, NaN)) /\
      this_cache st !! "avg: reference #2"
      = Some (Some (Sample.summed, VALUE, Other true "3.5")) /\
      Interpreter.errors (mstate st) = []
  | _ => False
  end.
Proof. vm_compute. repeat split. Qed.

(** [must rescan tokens and resolve dependency tree as expected]: the same
    lines, the referring line before the line it refers to. *)
Example test_dependency_tree_unordered :
  match Abstract.run 3 (Interpreter.createInterpreter Sample.expected)
          [("max: {...}", "max: {...}", Some "reference #1");
           ("avg: reference #2", "avg: reference #2", None);
           ("tuple: sum: {s < reference #1}", "tuple: sum: {s < reference #1}",
            Some "reference #2")] Interpreter.fresh with
  | Done _ st =>
      map currentValue (heap st)
      = ["max: {...}"; "avg: tuple: sum: {s < 4}"; "tuple: sum: {s < 4}"] /\
      Interpreter.errors (mstate st) = []
  | _ => False
  end.
Proof. vm_compute. repeat split. Qed.

(** The tests of the query builder: an unknown clause, one match, one match
    and then an error, two matches. *)
Example test_query_builder :
  let q0 : QueryBuilder.t unit := QueryBuilder.new in
  let q1 := QueryBuilder.register q0 (QueryBuilder.mkQueryable "x" [("=", fun _ _ => true)]) in
  let q2 := QueryBuilder.register q1 (QueryBuilder.mkQueryable "x" [(">", fun _ _ => false)]) in
  let shown (r : list (QueryBuilder.Query unit) * option exn) :=
    (map (fun y => (QueryBuilder.sign y, QueryBuilder.text y,
                    map (fun p => p tt) (QueryBuilder.test y))) r.1, r.2) in
  shown (QueryBuilder.scan q0 "{x = something}")
  = ([], Some (Clause.unexpected "x = something")) /\
  shown (QueryBuilder.scan q1 "{x = something}")
  = ([("~", "~{x = something}", [true])], None) /\
  shown (QueryBuilder.scan q1 "{x = something} + {x > 0}")
  = ([("~", "~{x = something}", [true])], Some (Clause.unexpected "x > 0")) /\
  shown (QueryBuilder.scan q2 "{x = something} + {x > 0}")
  = ([("~", "~{x = something}", [true]); ("+", "+ {x > 0}", [false])], None).
Proof. vm_compute. repeat split. Qed.

(** [must run against a pseudo-sample source code]: the macro [today] is
    expanded, the name [variable] inside the cluster is replaced by the
    value of its line, and the filter that results has one cluster of two
    clauses. *)
Example test_bootstrap :
  let q : QueryBuilder.t unit :=
    QueryBuilder.register
      (QueryBuilder.register QueryBuilder.new
         (QueryBuilder.mkQueryable "x" [("<", fun c _ => String.eqb c "42")]))
      (QueryBuilder.mkQueryable "y" [("=", fun c _ => String.eqb c "2023-01-01")]) in
  match Abstract.compile 2 (Interpreter.createInterpreter Sample.calc)
          (build [("{x < variable, y = today}", None); ("calc! 21 + 21", Some "variable")]
             [("today", "2023-01-01")]) Interpreter.fresh with
  | Abstract.Returned a s =>
      Interpreter.errors s = [] /\
      Abstract.cache a !! "{x < variable, y = today}" = Some (Some ([], TUPLE, NaN)) /\
      map source_text (Abstract.program a)
      = ["{x < variable, y = 2023-01-01}"; "calc! 21 + 21"]
  | _ => False
  end /\
  match Abstract.run 2 (Interpreter.createInterpreter Sample.calc)
          [("{x < variable, y = 2023-01-01}", "k", None);
           ("calc! 21 + 21", "v", Some "variable")]
          Interpreter.fresh with
  | Done _ st => map currentValue (heap st) = ["{x < 42, y = 2023-01-01}"; "calc! 21 + 21"]
  | _ => False
  end /\
  match QueryBuilder.scan q "{x < 42, y = 2023-01-01}" with
  | ([y], None) =>
      QueryBuilder.sign y = "~" /\ QueryBuilder.text y = "~{x < 42, y = 2023-01-01}" /\
      map (fun p => p tt) (QueryBuilder.test y) = [true; true]
  | _ => False
  end.
Proof. vm_compute. repeat split. Qed.

(* ===================================================================== *)
(** ** The names that [scanDependencyTree] remembers *)
(* ===================================================================== *)

Lemma scan_mem_snoc p l :
  Abstract.scan_mem (p ++ [l])%list
  = Abstract.remember (Abstract.scan_mem p) (length p) (source_ref l).
Proof.
  unfold Abstract.scan_mem. rewrite imap_app, fold_left_app. simpl.
  rewrite Nat.add_0_r. reflexivity.
Qed.

Lemma publishes_range p i r : publishes p i r -> (i < length p)%nat.
Proof. intros (l & Hl & _). exact (lookup_lt_Some _ _ _ Hl). Qed.

Lemma publishes_snoc p l i r :
  publishes (p ++ [l])%list i r <->
  publishes p i r \/
  (i = length p /\ truthy_name (source_ref l) = Some r /\ r <> "__proto__").
Proof.
  split.
  - intros (l' & Hl & Hr & Hp). destruct (decide (i < length p)%nat) as [Hlt|Hge].
    + left. exists l'. rewrite lookup_app_l in Hl by exact Hlt. auto.
    + right. rewrite lookup_app_r in Hl by lia.
      destruct (i - length p)%nat as [|k] eqn:Hk; [|destruct k; discriminate].
      injection Hl as <-. split; [lia | auto].
  - intros [(l' & Hl & Hr & Hp)|(-> & Hr & Hp)].
    + exists l'. split; [|auto]. apply lookup_app_l_Some. exact Hl.
    + exists l. split; [|auto]. rewrite lookup_app_r by lia.
      rewrite Nat.sub_diag. reflexivity.
Qed.

Lemma remember_get mem n (r0 : option string) r :
  JS.obj_get (Abstract.remember mem n r0) r =
  match truthy_name r0 with
  | Some name =>
      if String.eqb name "__proto__" then JS.obj_get mem r
      else if String.eqb name r then Some n else JS.obj_get mem r
  | None => JS.obj_get mem r
  end.
Proof.
  unfold Abstract.remember. destruct (truthy_name r0) as [name|]; [|reflexivity].
  destruct (String.eqb name "__proto__"); [reflexivity|]. apply obj_get_set.
Qed.

(** What [mem] holds under a name: the last line published under it. *)
Lemma scan_mem_spec p : forall r,
  (forall i, JS.obj_get (Abstract.scan_mem p) r = Some i <->
             publishes p i r /\ forall j, (i < j)%nat -> ~ publishes p j r) /\
  (JS.obj_get (Abstract.scan_mem p) r = None <-> forall j, ~ publishes p j r).
Proof.
  induction p as [|l p IH] using rev_ind; intros r.
  - split; [intros i|]; split.
    + discriminate.
    + intros [(l & Hl & _) _]. discriminate.
    + intros _ j (l & Hl & _). discriminate.
    + reflexivity.
  - destruct (IH r) as [IHs IHn]. rewrite scan_mem_snoc, remember_get.
    assert (Hold : forall j, publishes p j r -> (j < length p)%nat)
      by (intros j; apply publishes_range).
    destruct (truthy_name (source_ref l)) as [name|] eqn:Hname;
      [destruct (String.eqb_spec name "__proto__") as [Hproto|Hproto];
       [|destruct (String.eqb_spec name r) as [Hr|Hr]]|].
    + (* the line assigns to __proto__ *)
      assert (Hsame : forall j, publishes (p ++ [l])%list j r <-> publishes p j r).
      { intros j. rewrite publishes_snoc. split; [|auto].
        intros [Hj|(_ & Hj & Hne)]; [exact Hj | congruence]. }
      split; [intros i; rewrite IHs | rewrite IHn]; setoid_rewrite Hsame; reflexivity.
    + (* the line is published under [r] *)
      subst name. split; [intros i|]; split.
      * intros [= <-]. split.
        -- apply publishes_snoc. right. auto.
        -- intros j Hj Hp. apply publishes_range in Hp. rewrite length_app in Hp.
           simpl in Hp. lia.
      * intros [Hp Hlast]. apply publishes_snoc in Hp as [Hp|(-> & _)]; [|reflexivity].
        exfalso. apply (Hlast (length p)); [exact (Hold _ Hp)|].
        apply publishes_snoc. right. auto.
      * discriminate.
      * intros Hno. exfalso. apply (Hno (length p)). apply publishes_snoc. right. auto.
    + (* the line is published under another name *)
      assert (Hsame : forall j, publishes (p ++ [l])%list j r <-> publishes p j r).
      { intros j. rewrite publishes_snoc. split; [|auto].
        intros [Hj|(_ & Hj & Hne)]; [exact Hj | congruence]. }
      split; [intros i; rewrite IHs | rewrite IHn]; setoid_rewrite Hsame; reflexivity.
    + (* the line has no name *)
      assert (Hsame : forall j, publishes (p ++ [l])%list j r <-> publishes p j r).
      { intros j. rewrite publishes_snoc. split; [|auto].
        intros [Hj|(_ & Hj & Hne)]; [exact Hj | congruence]. }
      split; [intros i; rewrite IHs | rewrite IHn]; setoid_rewrite Hsame; reflexivity.
Qed.

(** X1: the object [mem] of [scanDependencyTree] holds, under a name, the last
    line of the program that is published under that name, and nothing
    under a name that no line is published under; a name it holds is not
    empty and the line is a line of the program. *)
Theorem scan_mem_last_publisher (p : list Source) (r : string) :
  (forall i, JS.obj_get (Abstract.scan_mem p) r = Some i <->
             publishes p i r /\ forall j, (i < j)%nat -> ~ publishes p j r) /\
  (JS.obj_get (Abstract.scan_mem p) r = None <-> forall j, ~ publishes p j r) /\
  (forall i, JS.obj_get (Abstract.scan_mem p) r = Some i ->
             (i < length p)%nat /\ r <> EmptyString).
Proof.
  destruct (scan_mem_spec p r) as [Hsome Hnone].
  split; [exact Hsome|]. split; [exact Hnone|].
  intros i Hget. apply Hsome in Hget as [Hp _]. split; [exact (publishes_range _ _ _ Hp)|].
  destruct Hp as (l & _ & Hr & _). intros ->. unfold truthy_name in Hr.
  destruct (source_ref l) as [s|]; [|discriminate].
  destruct s; [discriminate|]. simpl in Hr. discriminate.
Qed.

(* ===================================================================== *)
(** ** The links that [Tree.expand] sets *)
(* ===================================================================== *)

Lemma expand_S n deps this h :
  expand (S n) deps this h
  = forEach_opt (expand_body (expand n deps) deps this) (JS.obj_keys deps) h.
Proof. reflexivity. Qed.

Lemma obj_get_Some_keys {V : Type} (o : JS.obj V) k v :
  JS.obj_get o k = Some v -> In k (JS.obj_keys o).
Proof. intros Hg. apply obj_get_In in Hg. exact (in_map fst _ _ Hg). Qed.

Lemma has_links_get h i a j :
  JS.obj_get (dependencies (h !!! i)) a = Some j -> has_links h i = true.
Proof. unfold has_links. destruct (dependencies (h !!! i)); [discriminate | reflexivity]. Qed.

Lemma has_links_grow h h' i :
  links_grow h h' -> has_links h i = true -> has_links h' i = true.
Proof.
  intros Hg Hl. unfold has_links in Hl.
  destruct (dependencies (h !!! i)) as [|[k v] o] eqn:E; [discriminate|].
  apply (has_links_get h' i k v). apply Hg. rewrite E. simpl.
  rewrite String.eqb_refl. reflexivity.
Qed.

Section ExpandLinks.
Variable deps : JS.obj nat.

Lemma links_sound_set h this a d :
  links_sound deps h -> JS.obj_get deps a = Some d ->
  occurs (currentValue (h !!! this)) a = true ->
  links_sound deps (alter (set_dependency a d) this h).
Proof.
  intros Hs Hget Hocc i a' j. rewrite list_lookup_total_alter.
  destruct (decide (this = i /\ (this < length h)%nat)) as [[-> _]|_]; [|apply Hs].
  simpl. rewrite obj_get_set. destruct (String.eqb_spec a a') as [<-|_]; [|apply Hs].
  intros [= <-]. split; assumption.
Qed.

Lemma links_grow_set h this a d :
  links_sound deps h -> JS.obj_get deps a = Some d ->
  links_grow h (alter (set_dependency a d) this h).
Proof.
  intros Hs Hget i a' j Hold. rewrite list_lookup_total_alter.
  destruct (decide (this = i /\ (this < length h)%nat)) as [[-> _]|_]; [|exact Hold].
  simpl. rewrite obj_get_set. destruct (String.eqb_spec a a') as [<-|_]; [|exact Hold].
  destruct (Hs _ _ _ Hold) as [Hd _]. congruence.
Qed.

Lemma expanded_refl h : links_sound deps h -> expanded deps h h.
Proof.
  intros Hs. split; [apply same_texts_refl|]. split; [reflexivity|].
  split; [exact Hs|]. intros i a j Hg. exact Hg.
Qed.

Lemma expanded_trans h1 h2 h3 :
  expanded deps h1 h2 -> expanded deps h2 h3 -> expanded deps h1 h3.
Proof.
  intros (Ht12 & Hl12 & _ & Hg12) (Ht23 & Hl23 & Hs3 & Hg23).
  split; [exact (same_texts_trans _ _ _ Ht12 Ht23)|]. split; [congruence|].
  split; [exact Hs3|]. intros i a j Hg. apply Hg23, Hg12, Hg.
Qed.

Lemma expanded_set h this a d :
  links_sound deps h -> JS.obj_get deps a = Some d ->
  occurs (currentValue (h !!! this)) a = true ->
  expanded deps h (alter (set_dependency a d) this h).
Proof.
  intros Hs Hget Hocc. split; [apply same_texts_set_dependency|].
  split; [apply length_alter|].
  split; [exact (links_sound_set _ _ _ _ Hs Hget Hocc) | exact (links_grow_set _ _ _ _ Hs Hget)].
Qed.

Lemma expanded_text h h' i :
  expanded deps h h' -> currentValue (h' !!! i) = currentValue (h !!! i).
Proof. intros (Ht & _). destruct (Ht i) as (Hc & _). exact Hc. Qed.

(** One step of the loop of [expand], given what the nested call keeps. *)
Lemma expand_body_links rec this a h h1 :
  (forall d h0 h0', rec d h0 = Some h0' -> links_sound deps h0 -> expanded deps h0 h0') ->
  expand_body rec deps this a h = Some h1 -> links_sound deps h ->
  expanded deps h h1 /\
  ((this < length h)%nat -> forall j,
     JS.obj_get deps a = Some j -> occurs (currentValue (h !!! this)) a = true ->
     JS.obj_get (dependencies (h1 !!! this)) a = Some j).
Proof.
  intros Hrec Hb Hs. unfold expand_body in Hb.
  fold (occurs (currentValue (h !!! this)) a) in Hb.
  destruct (occurs (currentValue (h !!! this)) a) eqn:Hocc.
  - destruct (JS.obj_get deps a) as [d|] eqn:Hget.
    + pose proof (expanded_set h this a d Hs Hget Hocc) as He0.
      assert (Hset : (this < length h)%nat ->
                JS.obj_get (dependencies (alter (set_dependency a d) this h !!! this)) a
                = Some d).
      { intros Hlt. rewrite list_lookup_total_alter_eq by exact Hlt. simpl.
        rewrite obj_get_set, String.eqb_refl. reflexivity. }
      cbv zeta in Hb.
      destruct (0 <? length _)%nat.
      * pose proof (Hrec _ _ _ Hb (links_sound_set _ _ _ _ Hs Hget Hocc)) as He1.
        split; [exact (expanded_trans _ _ _ He0 He1)|].
        intros Hlt j [= <-] _. destruct He1 as (_ & _ & _ & Hg). apply Hg, Hset, Hlt.
      * injection Hb as <-. split; [exact He0|]. intros Hlt j [= <-] _. exact (Hset Hlt).
    + injection Hb as <-. split; [exact (expanded_refl _ Hs)|]. intros _ j Hj. discriminate.
  - injection Hb as <-. split; [exact (expanded_refl _ Hs)|]. intros _ j _ Ht. discriminate.
Qed.

Lemma expand_loop_links rec this ks :
  (forall d h0 h0', rec d h0 = Some h0' -> links_sound deps h0 -> expanded deps h0 h0') ->
  forall h h',
    forEach_opt (expand_body rec deps this) ks h = Some h' -> links_sound deps h ->
    expanded deps h h' /\
    ((this < length h)%nat -> forall a j,
       In a ks -> JS.obj_get deps a = Some j ->
       occurs (currentValue (h !!! this)) a = true ->
       JS.obj_get (dependencies (h' !!! this)) a = Some j).
Proof.
  intros Hrec. induction ks as [|k ks IH]; intros h h' Hl Hs.
  - injection Hl as <-. split; [exact (expanded_refl _ Hs)|]. intros _ a j [].
  - rewrite forEach_opt_cons in Hl.
    destruct (expand_body rec deps this k h) as [h1|] eqn:Hb; [|discriminate].
    destruct (expand_body_links _ _ _ _ _ Hrec Hb Hs) as [He1 Hk].
    pose proof He1 as (_ & Hlen1 & Hs1 & _).
    destruct (IH h1 h' Hl Hs1) as [He2 Hks].
    split; [exact (expanded_trans _ _ _ He1 He2)|].
    intros Hlt a j [<-|Hin] Hget Hocc.
    + destruct He2 as (_ & _ & _ & Hg). apply Hg. apply Hk; assumption.
    + apply Hks; [lia | exact Hin | exact Hget|].
      rewrite (expanded_text _ _ this He1). exact Hocc.
Qed.

(** A call of [expand] that returns has linked the tree to every entry of
    [deps] whose name occurs in its text. *)
Lemma expand_links n : forall this h h',
  expand n deps this h = Some h' -> links_sound deps h ->
  expanded deps h h' /\ ((this < length h)%nat -> linked deps h' this).
Proof.
  induction n as [|n IH]; intros this h h' He Hs; [discriminate|].
  rewrite expand_S in He.
  destruct (expand_loop_links (expand n deps) this (JS.obj_keys deps)
              (fun d h0 h0' Hd Hs0 => proj1 (IH d h0 h0' Hd Hs0)) h h' He Hs) as [Hexp Hk].
  split; [exact Hexp|]. intros Hlt a j Hget Hocc.
  apply (Hk Hlt); [exact (obj_get_Some_keys _ _ _ Hget) | exact Hget|].
  rewrite <- (expanded_text _ _ this Hexp). exact Hocc.
Qed.

Lemma linked_expanded h h' i : expanded deps h h' -> linked deps h i -> linked deps h' i.
Proof.
  intros He Hl a j Hget Hocc. pose proof He as (_ & _ & _ & Hg). apply Hg, Hl; [exact Hget|].
  rewrite <- (expanded_text _ _ i He). exact Hocc.
Qed.

Lemma expand_all_links n xs : forall h h',
  forEach_opt (expand n deps) xs h = Some h' -> links_sound deps h ->
  expanded deps h h' /\ forall x, In x xs -> (x < length h)%nat -> linked deps h' x.
Proof.
  induction xs as [|x xs IH]; intros h h' Hl Hs.
  - injection Hl as <-. split; [exact (expanded_refl _ Hs)|]. intros x [].
  - rewrite forEach_opt_cons in Hl.
    destruct (expand n deps x h) as [h1|] eqn:He; [|discriminate].
    destruct (expand_links n x h h1 He Hs) as [He1 Hx].
    pose proof He1 as (_ & Hlen1 & Hs1 & _).
    destruct (IH h1 h' Hl Hs1) as [He2 Hxs].
    split; [exact (expanded_trans _ _ _ He1 He2)|].
    intros y [<-|Hin] Hlt.
    + exact (linked_expanded _ _ _ He2 (Hx Hlt)).
    + apply Hxs; [exact Hin | lia].
Qed.

End ExpandLinks.

Lemma new_trees_sound deps p : links_sound deps (Abstract.new_trees p).
Proof.
  intros i a j. rewrite new_trees_lookup. destruct (p !! i); simpl; discriminate.
Qed.

(** X2: whenever [scanDependencyTree] returns, it returns one tree per line,
    in the order of the program, with the text, the display key and the
    publish name of the line; and the dependencies of the tree of a line
    are exactly the remembered names that occur in the text of the line,
    each linked to the line that [mem] holds under the name. *)
Theorem scanDependencyTree_links (fuel : nat) (p : list Source) (trees : list Tree) :
  Abstract.scanDependencyTree fuel p = Some trees ->
  length trees = length p /\
  forall i l, p !! i = Some l ->
    currentValue (trees !!! i) = source_text l /\
    input (trees !!! i) = source_key l /\
    ref (trees !!! i) = source_ref l /\
    forall a j, JS.obj_get (dependencies (trees !!! i)) a = Some j <->
                JS.obj_get (Abstract.scan_mem p) a = Some j /\
                occurs (source_text l) a = true.
Proof.
  unfold Abstract.scanDependencyTree. intros Hscan.
  destruct (expand_all_links (Abstract.scan_mem p) fuel _ _ _ Hscan (new_trees_sound _ p))
    as [(Ht & Hlen & Hs & _) Hlinked].
  assert (Hl : length (Abstract.new_trees p) = length p) by apply length_map.
  split; [congruence|]. intros i l Hi.
  destruct (Ht i) as (Hc & Hin & Hr). rewrite new_trees_lookup, Hi in Hc, Hin, Hr.
  simpl in Hc, Hin, Hr. split; [exact Hc|]. split; [exact Hin|]. split; [exact Hr|].
  intros a j. split.
  - intros Hget. destruct (Hs i a j Hget) as [Hd Hocc]. rewrite Hc in Hocc. auto.
  - intros [Hd Hocc]. apply (Hlinked i); [| |exact Hd|rewrite Hc; exact Hocc].
    + apply in_seq. apply lookup_lt_Some in Hi. lia.
    + rewrite Hl. exact (lookup_lt_Some _ _ _ Hi).
Qed.

(** The program of the test suite: the second line is linked to the first
    under [reference #1], the third to the second under [reference #2]. *)
Lemma scanDependencyTree_links_witness :
  match Abstract.scanDependencyTree 3 (Abstract.program (build Sample.references [])) with
  | Some trees =>
      length trees = 3%nat /\
      currentValue (trees !!! 1%nat) = "tuple: sum: {s < reference #1}" /\
      (forall a j, JS.obj_get (dependencies (trees !!! 1%nat)) a = Some j <->
                   JS.obj_get
                     (Abstract.scan_mem (Abstract.program (build Sample.references []))) a
                   = Some j /\
                   occurs "tuple: sum: {s < reference #1}" a = true)
  | None => False
  end.
Proof.
  destruct (Abstract.scanDependencyTree 3 (Abstract.program (build Sample.references [])))
    as [trees|] eqn:E; [|vm_compute in E; discriminate].
  destruct (scanDependencyTree_links 3 _ trees E) as [Hlen Hlines].
  destruct (Hlines 1%nat
              ("tuple: sum: {s < reference #1}", "tuple: sum: {s < reference #1}",
               Some "reference #2") eq_refl) as (Hc & _ & _ & Hdeps).
  split; [exact Hlen|]. split; [exact Hc | exact Hdeps].
Defined.

(* ===================================================================== *)
(** ** A cycle of references *)
(* ===================================================================== *)

Lemma occurs_empty a : occurs EmptyString a = true -> a = EmptyString.
Proof. destruct a; [reflexivity | discriminate]. Qed.

Section Cycle.
Variable deps : JS.obj nat.
Variable C : nat -> bool.
Variable h0 : list Tree.

(** Every tree of [C] has in its text a name of [deps] that leads to a
    tree of [C], and the trees of [C] are trees of the store. *)
Hypothesis closed :
  forall i, C i = true ->
    exists a j, JS.obj_get deps a = Some j /\
                occurs (currentValue (h0 !!! i)) a = true /\ C j = true.
Hypothesis in_range : forall i, C i = true -> (i < length h0)%nat.

(** Once the other trees of [C] have links, [expand] on a tree of [C] goes
    round and round. *)
Lemma expand_cycle n : forall this h,
  same_texts h0 h -> length h = length h0 -> links_sound deps h ->
  C this = true ->
  (forall i, C i = true -> i <> this -> has_links h i = true) ->
  expand n deps this h = None.
Proof.
  induction n as [|n IH]; intros this h Hst Hlen Hs HC Hothers; [reflexivity|].
  rewrite expand_S. destruct (closed this HC) as (a & j & Hget & Hocc & HCj).
  pose proof (obj_get_Some_keys _ _ _ Hget) as Hin. revert Hin.
  generalize (JS.obj_keys deps). intros ks. revert h Hst Hlen Hs Hothers.
  induction ks as [|k ks IHks]; intros h Hst Hlen Hs Hothers Hin; [destruct Hin|].
  rewrite forEach_opt_cons.
  destruct (expand_body (expand n deps) deps this k h) as [h1|] eqn:Hb; [|reflexivity].
  destruct (expand_body_links deps (expand n deps) this k h h1
              (fun d x x' Hd Hx => proj1 (expand_links deps n d x x' Hd Hx)) Hb Hs)
    as [He _].
  assert (Htext : currentValue (h !!! this) = currentValue (h0 !!! this)).
  { destruct (Hst this) as (Hc & _). exact Hc. }
  destruct (String.eqb_spec k a) as [->|Hne].
  - exfalso. unfold expand_body in Hb.
    fold (occurs (currentValue (h !!! this)) a) in Hb.
    rewrite Htext, Hocc, Hget in Hb. cbv zeta in Hb.
    assert (Hlt : (this < length h)%nat) by (rewrite Hlen; exact (in_range this HC)).
    assert (Hthis : has_links (alter (set_dependency a j) this h) this = true).
    { unfold has_links. rewrite list_lookup_total_alter_eq by exact Hlt. simpl.
      apply obj_set_nonempty. }
    assert (Hrest : forall i, C i = true -> i <> this ->
              has_links (alter (set_dependency a j) this h) i = true).
    { intros i HCi Hi. unfold has_links. rewrite list_lookup_total_alter_ne by congruence.
      exact (Hothers i HCi Hi). }
    assert (Hj : has_links (alter (set_dependency a j) this h) j = true).
    { destruct (decide (j = this)) as [->|Hjne]; [exact Hthis | exact (Hrest j HCj Hjne)]. }
    unfold has_links in Hj. rewrite Hj in Hb. rewrite IH in Hb; [discriminate|..].
    + exact (same_texts_trans _ _ _ Hst (same_texts_set_dependency h this a j)).
    + rewrite length_alter. exact Hlen.
    + apply links_sound_set; [exact Hs | exact Hget|]. rewrite Htext. exact Hocc.
    + exact HCj.
    + intros i HCi Hi. destruct (decide (i = this)) as [->|Hne]; [exact Hthis|].
      exact (Hrest i HCi Hne).
  - pose proof He as (Ht1 & Hlen1 & Hs1 & Hg1). apply IHks.
    + exact (same_texts_trans _ _ _ Hst Ht1).
    + congruence.
    + exact Hs1.
    + intros i HCi Hi. exact (has_links_grow _ _ _ Hg1 (Hothers i HCi Hi)).
    + destruct Hin as [Hk|Hin]; [contradiction | exact Hin].
Qed.

(** The loop of [scanDependencyTree] does not get past the last tree of
    [C]: the trees of [C] before it have their links by then. *)
Lemma expand_all_cycle n xs : forall h,
  same_texts h0 h -> length h = length h0 -> links_sound deps h ->
  NoDup xs -> (exists x, In x xs /\ C x = true) ->
  (forall i, C i = true -> ~ In i xs -> has_links h i = true) ->
  forEach_opt (expand n deps) xs h = None.
Proof.
  induction xs as [|x xs IH]; intros h Hst Hlen Hs Hnd (y & Hy & HCy) Hdone;
    [destruct Hy|].
  rewrite forEach_opt_cons.
  destruct (expand n deps x h) as [h1|] eqn:He; [|reflexivity].
  destruct (expand_links deps n x h h1 He Hs) as [Hexp Hlinked].
  pose proof Hexp as (Ht1 & Hlen1 & Hs1 & Hg1).
  apply NoDup_cons in Hnd as [Hx Hnd].
  destruct (existsb C xs) eqn:Hex.
  - apply existsb_exists in Hex as (z & Hz & HCz). apply IH.
    + exact (same_texts_trans _ _ _ Hst Ht1).
    + congruence.
    + exact Hs1.
    + exact Hnd.
    + exists z. split; assumption.
    + intros i HCi Hi. destruct (decide (i = x)) as [->|Hne].
      * destruct (closed x HCi) as (a & j & Hget & Hocc & _).
        apply (has_links_get h1 x a j). apply Hlinked.
        -- rewrite Hlen. exact (in_range x HCi).
        -- exact Hget.
        -- destruct (Ht1 x) as (-> & _). destruct (Hst x) as (-> & _). exact Hocc.
      * apply (has_links_grow _ _ _ Hg1). apply Hdone; [exact HCi|].
        intros [Heq|Hin]; [congruence | contradiction].
  - exfalso.
    assert (Hnone : forall i, In i xs -> C i = false).
    { intros i Hi. destruct (C i) eqn:HCi; [|reflexivity].
      assert (existsb C xs = true) by (apply existsb_exists; exists i; auto). congruence. }
    assert (HCx : C x = true).
    { destruct Hy as [->|Hy]; [exact HCy|]. rewrite (Hnone y Hy) in HCy. discriminate. }
    rewrite (expand_cycle n x h Hst Hlen Hs HCx) in He; [discriminate|].
    intros i HCi Hi. apply Hdone; [exact HCi|].
    intros [Heq|Hin]; [congruence|]. rewrite (Hnone i Hin) in HCi. discriminate.
Qed.

End Cycle.

Lemma refers_to_range p i j : refers_to p i j -> (i < length p)%nat.
Proof.
  intros (a & Hget & Hocc). unfold line_text in Hocc.
  destruct (p !! i) as [l|] eqn:Hi; [exact (lookup_lt_Some _ _ _ Hi)|].
  apply occurs_empty in Hocc. subst a.
  destruct (scan_mem_spec p EmptyString) as [Hsome _].
  apply Hsome in Hget as [(l & _ & Hr & _) _]. unfold truthy_name in Hr.
  destruct (source_ref l) as [s|]; [|discriminate].
  destruct s; simpl in Hr; discriminate.
Qed.

Lemma reference_cycle_diverges {T MS : Type} `{Value T}
    (m : AbstractMachine T MS) (a : Abstract.t T) (s : MS) (C : nat -> bool) :
  (exists i, C i = true) ->
  (forall i, C i = true ->
     exists j, C j = true /\
               refers_to (Abstract.expandMacro (Abstract.macro a) (Abstract.program a)) i j) ->
  forall fuel, Abstract.compile fuel m a s = Abstract.Diverges.
Proof.
  set (p := Abstract.expandMacro (Abstract.macro a) (Abstract.program a)).
  intros (i0 & Hi0) Hclosed fuel.
  assert (Hrange : forall i, C i = true -> (i < length p)%nat).
  { intros i HCi. destruct (Hclosed i HCi) as (j & _ & Hij). exact (refers_to_range _ _ _ Hij). }
  assert (Hl : length (Abstract.new_trees p) = length p) by apply length_map.
  unfold Abstract.compile, Abstract.run, Abstract.scanDependencyTree. fold p.
  rewrite (expand_all_cycle (Abstract.scan_mem p) C (Abstract.new_trees p)); [reflexivity|..].
  - intros i HCi. destruct (Hclosed i HCi) as (j & HCj & (k & Hget & Hocc)).
    exists k, j. rewrite new_trees_text. auto.
  - intros i HCi. rewrite Hl. exact (Hrange i HCi).
  - apply same_texts_refl.
  - reflexivity.
  - apply new_trees_sound.
  - apply NoDup_seq.
  - exists i0. split; [|exact Hi0]. apply in_seq. pose proof (Hrange i0 Hi0). lia.
  - intros i HCi Hi. exfalso. apply Hi. apply in_seq. pose proof (Hrange i HCi). lia.
Qed.

(** X3: a cycle of references.  Line [i] refers to line [j] when the text
    of line [i] holds a name that [scanDependencyTree] remembers for line
    [j], which is the last line published under that name: a line that a
    later line with the same publish name shadows is referred to by no
    line.  When the lines of a set [C], which is not empty, each refer to a
    line of [C] (a line that refers to itself, two lines that refer to each
    other, ...), [compile] does not return, whatever the machine: [expand]
    is called without end, for every bound on the nesting of its calls. *)
Theorem reference_cycle_never_returns {T MS : Type} `{Value T}
    (m : AbstractMachine T MS) (a : Abstract.t T) (s : MS) (C : nat -> bool) :
  let p := Abstract.expandMacro (Abstract.macro a) (Abstract.program a) in
  (exists i, C i = true) ->
  (forall i, C i = true -> exists j, C j = true /\ refers_to p i j) ->
  forall fuel, Abstract.compile fuel m a s = Abstract.Diverges.
Proof.
  intros p Hne Hclosed fuel.
  exact (reference_cycle_diverges m a s C Hne Hclosed fuel).
Qed.

(** Two lines that refer to each other. *)
Lemma reference_cycle_never_returns_witness :
  let a : Abstract.t (option Accumulator) :=
    Abstract.mk ∅ [] [("b", "first", Some "a"); ("a", "second", Some "b")] in
  refers_to (Abstract.program a) 0 1 /\ refers_to (Abstract.program a) 1 0 /\
  forall fuel, Abstract.compile fuel Sample.echo a tt = Abstract.Diverges.
Proof.
  intros a.
  assert (H01 : refers_to (Abstract.program a) 0 1) by (exists "b"; split; reflexivity).
  assert (H10 : refers_to (Abstract.program a) 1 0) by (exists "a"; split; reflexivity).
  split; [exact H01|]. split; [exact H10|].
  apply (reference_cycle_never_returns Sample.echo a tt (fun i => (i <? 2)%nat)).
  - exists 0%nat. reflexivity.
  - intros [|[|i]] Hi; [| |discriminate].
    + exists 1%nat. split; [reflexivity | exact H01].
    + exists 0%nat. split; [reflexivity | exact H10].
Defined.

Lemma lookup_In {A : Type} (l : list A) i x : l !! i = Some x -> In x l.
Proof. intros Hi. apply list_elem_of_In. exact (list_elem_of_lookup_2 _ _ _ Hi). Qed.

Lemma scanDependencyTree_shape n p trees :
  Abstract.scanDependencyTree n p = Some trees ->
  length trees = length p /\ map input trees = map source_key p /\
  forall i, ref (trees !!! i) = match p !! i with Some l => source_ref l | None => None end.
Proof.
  unfold Abstract.scanDependencyTree. intros Hscan.
  destruct (expand_all_links (Abstract.scan_mem p) n _ _ _ Hscan (new_trees_sound _ p))
    as [(Ht & Hlen & _) _].
  assert (Hl : length (Abstract.new_trees p) = length p) by apply length_map.
  split; [congruence|]. split.
  - rewrite <- new_trees_keys, <- (map_lookup_total_seq input trees),
      <- (map_lookup_total_seq input (Abstract.new_trees p)), Hlen.
    apply map_ext. intros i. destruct (Ht i) as (_ & -> & _). reflexivity.
  - intros i. destruct (Ht i) as (_ & _ & ->). rewrite new_trees_lookup.
    destruct (p !! i); reflexivity.
Qed.

(* ===================================================================== *)
(** ** What [parseTree] and [compile] leave alone *)
(* ===================================================================== *)

Lemma bind_Done_inv {T MS A B : Type} (c : M T MS A) (k : A -> M T MS B) st b st' :
  bind c k st = Done b st' -> exists a st1, c st = Done a st1 /\ k a st1 = Done b st'.
Proof.
  unfold bind. destruct (c st) as [a st1|e st1|]; [|discriminate..].
  intros Hk. exists a, st1. split; [reflexivity | exact Hk].
Qed.

Lemma bind_raise {T MS A B : Type} (c : M T MS A) (k : A -> M T MS B) st e st' :
  c st = Raise e st' -> bind c k st = Raise e st'.
Proof. intros Hc. unfold bind. rewrite Hc. reflexivity. Qed.

Lemma forEach_cons {T MS A : Type} (body : A -> M T MS unit) x xs :
  forEach body (x :: xs) = bind (body x) (fun _ => forEach body xs).
Proof. reflexivity. Qed.

Lemma parseTree_S {T MS : Type} `{Value T} (m : AbstractMachine T MS) n t :
  parseTree m (S n) t =
  bind (get_tree t) (fun tree =>
  bind (forEach (resolve m (parseTree m n) t) (JS.obj_keys (dependencies tree)))
       (fun _ => fold_and_publish m t)).
Proof. reflexivity. Qed.

Section Guarantee.
Context {T MS : Type} `{Value T}.
Variable m : AbstractMachine T MS.
Variable K : string -> Prop.
Variable G : MS -> MS -> Prop.
Hypothesis G_refl : forall s, G s s.
Hypothesis G_trans : forall s1 s2 s3, G s1 s2 -> G s2 s3 -> G s1 s3.
Hypothesis Hm : respects m K G.

Lemma frame_refl (st : store T MS) : frame G st st.
Proof. split; [apply kept_refl|]. split; [reflexivity | apply G_refl]. Qed.

Lemma frame_trans (st1 st2 st3 : store T MS) :
  frame G st1 st2 -> frame G st2 st3 -> frame G st1 st3.
Proof.
  intros (Hk12 & Hl12 & Hg12) (Hk23 & Hl23 & Hg23).
  split; [exact (kept_trans _ _ _ Hk12 Hk23)|]. split; [congruence|].
  exact (G_trans _ _ _ Hg12 Hg23).
Qed.

Lemma frame_named (st st' : store T MS) :
  frame G st st' -> named K (heap st) -> named K (heap st').
Proof.
  intros ([Hl _] & _) Hn i name. destruct (Hl i) as (_ & _ & ->). apply Hn.
Qed.

Lemma frame_dependencies (st st' : store T MS) t :
  frame G st st' -> dependencies (heap st' !!! t) = dependencies (heap st !!! t).
Proof. intros ([Hl _] & _). destruct (Hl t) as (Hd & _). exact Hd. Qed.

Lemma ends_ret {A} (a : A) (st : store T MS) : ends_in m (frame G) (ret a) st.
Proof. apply frame_refl. Qed.

Lemma ends_bind {A B} (c : M T MS A) (k : A -> M T MS B) st :
  ends_in m (frame G) c st ->
  (forall a st', c st = Done a st' -> frame G st st' -> ends_in m (frame G) (k a) st') ->
  ends_in m (frame G) (bind c k) st.
Proof.
  unfold ends_in, bind. destruct (c st) as [a st'|e st'|]; intros Hc Hk;
    [|exact Hc|exact I].
  specialize (Hk a st' eq_refl Hc).
  destruct (k a st') as [b st''|e st''|]; [| |exact I].
  - exact (frame_trans _ _ _ Hc Hk).
  - destruct Hk as [Hf He]. split; [exact (frame_trans _ _ _ Hc Hf) | exact He].
Qed.

Lemma ends_call {A} (op : MS -> completion A * MS) (st : store T MS) :
  G (mstate st) (op (mstate st)).2 ->
  (forall e s', op (mstate st) = (Abrupt e, s') -> raises m e) ->
  ends_in m (frame G) (call op) st.
Proof.
  unfold ends_in, call. destruct (op (mstate st)) as [[a|e] s']; simpl; intros Hg He.
  - split; [apply kept_mstate, kept_refl | split; [reflexivity | exact Hg]].
  - split; [|exact (He e s' eq_refl)].
    split; [apply kept_mstate, kept_refl | split; [reflexivity | exact Hg]].
Qed.

Lemma ends_fold p v i r (st : store T MS) : ends_in m (frame G) (call (fold m p v i r)) st.
Proof.
  apply ends_call; [destruct Hm as (Hfold & _); apply Hfold|].
  intros e s' He. left. eauto 8.
Qed.

Lemma ends_read k (st : store T MS) : ends_in m (frame G) (call (read m k)) st.
Proof.
  apply ends_call; [destruct Hm as (_ & Hread & _); apply Hread|].
  intros e s' He. right; left. eauto 8.
Qed.

Lemma ends_save k v (st : store T MS) : K k -> ends_in m (frame G) (call (save m k v)) st.
Proof.
  intros Hk. apply ends_call; [destruct Hm as (_ & _ & Hsave & _); apply Hsave, Hk|].
  intros e s' He. right; right; left. eauto 8.
Qed.

Lemma ends_swap k v x (st : store T MS) : ends_in m (frame G) (call (swap m k v x)) st.
Proof.
  apply ends_call; [destruct Hm as (_ & _ & _ & Hswap); apply Hswap|].
  intros e s' He. right; right; right. eauto 8.
Qed.

Lemma ends_update_tree t v (st : store T MS) : ends_in m (frame G) (update_tree t v) st.
Proof.
  split; [apply kept_update, kept_refl|]. split; [apply length_alter | apply G_refl].
Qed.

(** A loop keeps ending well when each step does, from a store that
    satisfies what the steps need and the frame keeps. *)
Lemma ends_forEach {A} (body : A -> M T MS unit) (P : store T MS -> Prop) xs : forall st,
  P st ->
  (forall st0 st', P st0 -> frame G st0 st' -> P st') ->
  (forall x st', In x xs -> P st' -> ends_in m (frame G) (body x) st') ->
  ends_in m (frame G) (forEach body xs) st.
Proof.
  induction xs as [|x xs IH]; intros st HP Hkeep Hbody; [apply ends_ret|].
  rewrite forEach_cons. apply ends_bind; [exact (Hbody x st (or_introl eq_refl) HP)|].
  intros u st' _ Hf. apply IH; [exact (Hkeep _ _ HP Hf) | exact Hkeep|].
  intros y st'' Hy. exact (Hbody y st'' (or_intror Hy)).
Qed.

Lemma ends_reduceRight_go arr todo : forall acc (st : store T MS),
  ends_in m (frame G)
    (reduceRight_go (fun p v i r => call (fold m p v i r)) arr todo acc) st.
Proof.
  induction todo as [|[i v] todo IH]; intros acc st; [apply ends_ret|].
  simpl. apply ends_bind; [apply ends_fold | intros acc' st' _ _; apply IH].
Qed.

Lemma ends_fold_and_publish t (st : store T MS) :
  named K (heap st) -> ends_in m (frame G) (fold_and_publish m t) st.
Proof.
  intros Hn. unfold fold_and_publish. apply ends_bind; [apply frame_refl|].
  intros tree st0 [= <- <-] _. apply ends_bind; [apply ends_reduceRight_go|].
  intros tVal st1 _ Hf.
  destruct (truthy_name (ref (heap st !!! t))) as [name|] eqn:Hname; [|apply ends_ret].
  apply ends_save. exact (Hn t name Hname).
Qed.

(** The tree of a dependency name of the node is there when [attempt]
    looks for it, so that [attempt] throws nothing of its own. *)
Lemma ends_attempt (rec : nat -> M T MS T) t k (st : store T MS) :
  (forall d st1, named K (heap st1) -> ends_in m (frame G) (rec d) st1) ->
  named K (heap st) ->
  JS.obj_get (dependencies (heap st !!! t)) k <> None ->
  ends_in m (frame G) (attempt m rec t k) st.
Proof.
  intros Hrec Hn Hk. unfold attempt.
  apply ends_bind; [apply frame_refl|]. intros tree st0 [= <- <-] _.
  apply ends_bind; [apply ends_read|]. intros cached st1 _ Hf1.
  pose proof (frame_named _ _ Hf1 Hn) as Hn1.
  destruct (JS.obj_get (dependencies (heap st !!! t)) k) as [d|] eqn:Hd; [|contradiction].
  apply ends_bind.
  { destruct (truthy cached); [apply ends_ret | exact (Hrec d st1 Hn1)]. }
  intros output st2 _ Hf2. apply ends_bind; [apply frame_refl|].
  intros tree1 st3 [= <- <-] _. apply ends_bind; [apply ends_swap|].
  intros value0 st4 _ Hf4. apply ends_bind; [apply frame_refl|].
  intros tree2 st5 [= <- <-] _.
  destruct (JS.nonempty value0); [apply ends_update_tree|].
  rewrite (frame_dependencies _ _ t Hf4), (frame_dependencies _ _ t Hf2),
    (frame_dependencies _ _ t Hf1), Hd.
  apply ends_bind; [apply frame_refl|]. intros dep st6 [= <- <-] _. apply ends_update_tree.
Qed.

Lemma ends_resolve (rec : nat -> M T MS T) t k (st : store T MS) :
  (forall d st1, named K (heap st1) -> ends_in m (frame G) (rec d) st1) ->
  named K (heap st) ->
  JS.obj_get (dependencies (heap st !!! t)) k <> None ->
  ends_in m (frame G) (resolve m rec t k) st.
Proof.
  intros Hrec Hn Hk. unfold resolve. apply ends_bind; [apply frame_refl|].
  intros tree st0 [= <- <-] _.
  destruct (resolvable (currentValue (heap st !!! t)) k);
    [exact (ends_attempt rec t k st Hrec Hn Hk) | apply ends_ret].
Qed.

Lemma ends_resolve_loop (rec : nat -> M T MS T) t ks (st : store T MS) :
  (forall d st1, named K (heap st1) -> ends_in m (frame G) (rec d) st1) ->
  named K (heap st) ->
  (forall k, In k ks -> JS.obj_get (dependencies (heap st !!! t)) k <> None) ->
  ends_in m (frame G) (forEach (resolve m rec t) ks) st.
Proof.
  intros Hrec Hn Hks.
  apply (ends_forEach _
           (fun st' => named K (heap st') /\
                       dependencies (heap st' !!! t) = dependencies (heap st !!! t))).
  - split; [exact Hn | reflexivity].
  - intros st0 st' (Hn0 & Hd0) Hf. split; [exact (frame_named _ _ Hf Hn0)|].
    rewrite (frame_dependencies _ _ t Hf). exact Hd0.
  - intros k st' Hk (Hn' & Hd'). apply ends_resolve; [exact Hrec | exact Hn'|].
    rewrite Hd'. exact (Hks k Hk).
Qed.

(** [parseTree] changes the texts of trees and calls the machine, and
    nothing else, however it ends; and it throws what the machine throws,
    and nothing else. *)
Lemma ends_parseTree n : forall t (st : store T MS),
  named K (heap st) -> ends_in m (frame G) (parseTree m n t) st.
Proof.
  induction n as [|n IH]; intros t st Hn; [exact I|].
  rewrite parseTree_S. apply ends_bind; [apply frame_refl|].
  intros tree st0 [= <- <-] _. apply ends_bind.
  - apply ends_resolve_loop; [|exact Hn|].
    + intros d st1 Hn1. exact (IH d st1 Hn1).
    + intros k Hk. exact (obj_get_keys _ _ Hk).
  - intros u st' _ Hf. apply ends_fold_and_publish. exact (frame_named _ _ Hf Hn).
Qed.

(** The loop of [compile]: the cache gets the display keys of the lines
    whose evaluation returned, one after the other. *)
Lemma evaluate_all_ends n xs : forall (st0 st : store T MS),
  named K (heap st0) -> same_links (heap st0) (heap st) -> G (mstate st0) (mstate st) ->
  match forEach (Abstract.evaluate m n) xs st with
  | Done _ st' =>
      G (mstate st0) (mstate st') /\
      dom (this_cache st') =
      list_to_set (map (fun i => input (heap st0 !!! i)) xs) ∪ dom (this_cache st)
  | Raise e st' =>
      G (mstate st0) (mstate st') /\ raises m e /\
      exists k, (k < length xs)%nat /\
        dom (this_cache st') =
        list_to_set (map (fun i => input (heap st0 !!! i)) (take k xs)) ∪ dom (this_cache st)
  | Diverge => True
  end.
Proof.
  induction xs as [|x xs IH]; intros st0 st Hn Hl Hg.
  - simpl. split; [exact Hg|]. rewrite (left_id_L ∅ (∪)). reflexivity.
  - assert (Hnst : named K (heap st)).
    { intros i name. destruct (Hl i) as (_ & _ & ->). apply Hn. }
    pose proof (ends_parseTree n x st Hnst) as Hp. unfold ends_in in Hp.
    rewrite forEach_cons. unfold bind at 1. unfold Abstract.evaluate at 1.
    unfold bind at 1. rewrite get_tree_done. unfold bind at 1.
    destruct (parseTree m n x st) as [v st1|e st1|].
    + destruct Hp as ([Hl1 Hc1] & _ & Hg1). unfold cache_set.
      pose proof (same_links_trans _ _ _ Hl Hl1) as Hl01.
      pose proof (G_trans _ _ _ Hg Hg1) as Hg01.
      specialize (IH st0
                    (mkStore (heap st1) (<[input (heap st !!! x) := v]> (this_cache st1))
                       (mstate st1)) Hn Hl01 Hg01).
      destruct (forEach (Abstract.evaluate m n) xs _) as [u st2|e st2|]; [| |exact I].
      * destruct IH as [Hg2 Hd2]. split; [exact Hg2|].
        rewrite Hd2. simpl. rewrite dom_insert_L, Hc1. destruct (Hl x) as (_ & -> & _).
        rewrite (assoc_L (∪)), (comm_L (∪) (list_to_set _) {[ _ ]}). reflexivity.
      * destruct IH as (Hg2 & He2 & k & Hk & Hd2). split; [exact Hg2|]. split; [exact He2|].
        exists (S k). split; [simpl; lia|].
        rewrite Hd2. simpl. rewrite dom_insert_L, Hc1. destruct (Hl x) as (_ & -> & _).
        rewrite (assoc_L (∪)), (comm_L (∪) (list_to_set _) {[ _ ]}). reflexivity.
    + destruct Hp as [([_ Hc1] & _ & Hg1) He]. split; [exact (G_trans _ _ _ Hg Hg1)|].
      split; [exact He|].
      exists 0%nat. split; [simpl; lia|]. simpl. rewrite (left_id_L ∅ (∪)), Hc1. reflexivity.
    + exact I.
Qed.

(** The body of [compile]: whenever it ends, the machine has moved along
    [G]; when it returns, the keys of the cache are the display keys of the
    program; when it throws, it throws an exception of the machine, and the
    keys of the cache are the display keys of the lines before the one
    whose evaluation threw. *)
Lemma run_ends n (p : list Source) (s : MS) :
  (forall k, publish_name p k -> K k) ->
  match Abstract.run n m p s with
  | Done _ st =>
      G s (mstate st) /\ dom (this_cache st) = list_to_set (map source_key p)
  | Raise e st =>
      G s (mstate st) /\ raises m e /\
      exists k, (k < length p)%nat /\
        dom (this_cache st) = list_to_set (map source_key (take k p))
  | Diverge => True
  end.
Proof.
  intros HK. unfold Abstract.run.
  destruct (Abstract.scanDependencyTree n p) as [trees|] eqn:Hscan; [|exact I].
  destruct (scanDependencyTree_shape n p trees Hscan) as (Hlen & Hkeys & Hrefs).
  assert (Hn : named K trees).
  { intros i name Hname. apply HK. rewrite Hrefs in Hname.
    destruct (p !! i) as [l|] eqn:Hi; [|discriminate].
    exists l. split; [exact (lookup_In _ _ _ Hi) | exact Hname]. }
  pose proof (evaluate_all_ends n (seq 0 (length trees)) (mkStore trees ∅ s) (mkStore trees ∅ s)
                Hn (same_links_refl _) (G_refl s)) as Hall.
  simpl in Hall. rewrite (map_lookup_total_seq input trees), Hkeys in Hall.
  destruct (forEach (Abstract.evaluate m n) (seq 0 (length trees)) (mkStore trees ∅ s))
    as [u st|e st|]; [| |exact I].
  - destruct Hall as [Hg Hd]. split; [exact Hg|].
    rewrite Hd, dom_empty_L, (right_id_L ∅ (∪)). reflexivity.
  - destruct Hall as (Hg & He & k & Hk & Hd). split; [exact Hg|]. split; [exact He|].
    exists k. split; [rewrite length_seq, Hlen in Hk; exact Hk|].
    rewrite Hd, dom_empty_L, (right_id_L ∅ (∪)). f_equal.
    rewrite <- firstn_map, (map_lookup_total_seq input trees), Hkeys, firstn_map.
    reflexivity.
Qed.

End Guarantee.

Lemma publish_name_expandMacro kwords p k :
  publish_name (Abstract.expandMacro kwords p) k -> publish_name p k.
Proof.
  intros (l & Hl & Hr). unfold Abstract.expandMacro in Hl.
  apply in_map_iff in Hl as (l0 & <- & Hl0). exists l0. split; [exact Hl0 | exact Hr].
Qed.

Lemma expandMacro_take_keys kwords p k :
  map source_key (take k (Abstract.expandMacro kwords p)) = map source_key (take k p).
Proof.
  unfold Abstract.expandMacro. rewrite firstn_map, map_map. reflexivity.
Qed.

(* ===================================================================== *)
(** ** The entries of the cache *)
(* ===================================================================== *)

Lemma expandMacro_lookup kwords p i :
  Abstract.expandMacro kwords p !! i =
  option_map (fun l => (Abstract.expandLine kwords (source_text l), source_key l, source_ref l))
    (p !! i).
Proof.
  revert i. induction p as [|l p IH]; intros [|i]; simpl; try reflexivity. apply IH.
Qed.

Lemma last_with_key_expandMacro kwords p i j k :
  last_with_key (take i (Abstract.expandMacro kwords p)) j k <->
  last_with_key (take i p) j k.
Proof.
  unfold Abstract.expandMacro at 1. rewrite firstn_map.
  change (last_with_key (Abstract.expandMacro kwords (take i p)) j k <->
          last_with_key (take i p) j k).
  unfold last_with_key. setoid_rewrite expandMacro_lookup. split.
  - intros [(l' & Hl' & Hk) Hlast]. destruct (take i p !! j) as [l|] eqn:Hj; [|discriminate].
    injection Hl' as <-. split; [exists l; split; [reflexivity | exact Hk]|].
    intros j' l' Hlt Hj'.
    apply (Hlast j' (Abstract.expandLine kwords (source_text l'), source_key l', source_ref l')
             Hlt).
    rewrite Hj'. reflexivity.
  - intros [(l & Hl & Hk) Hlast]. split.
    + rewrite Hl. eexists. split; [reflexivity | exact Hk].
    + intros j' l' Hlt Hj'. destruct (take i p !! j') as [l0|] eqn:Hj0; [|discriminate].
      injection Hj' as <-. exact (Hlast j' l0 Hlt Hj0).
Qed.

Lemma scanDependencyTree_input n p trees i l :
  Abstract.scanDependencyTree n p = Some trees -> p !! i = Some l ->
  input (trees !!! i) = source_key l.
Proof.
  unfold Abstract.scanDependencyTree. intros Hscan Hi.
  destruct (expand_all_links (Abstract.scan_mem p) n _ _ _ Hscan (new_trees_sound _ p))
    as [(Ht & _) _].
  destruct (Ht i) as (_ & -> & _). rewrite new_trees_lookup, Hi. reflexivity.
Qed.

Section Entries.
Context {T MS : Type} `{Value T}.
Variable m : AbstractMachine T MS.
Variable fuel : nat.

Lemma forEach_app {A} (body : A -> M T MS unit) xs ys : forall st,
  forEach body (xs ++ ys) st = bind (forEach body xs) (fun _ => forEach body ys) st.
Proof.
  induction xs as [|x xs IH]; intros st; [reflexivity|].
  rewrite <- app_comm_cons, !forEach_cons. unfold bind.
  destruct (body x st) as [u st1|e st1|]; [|reflexivity..].
  specialize (IH st1). unfold bind in IH. exact IH.
Qed.

(** A loop that throws: the steps before the one that threw returned. *)
Lemma forEach_Raise_inv {A} (body : A -> M T MS unit) xs : forall st0 e st',
  forEach body xs st0 = Raise e st' ->
  exists k x st, xs !! k = Some x /\ forEach body (take k xs) st0 = Done tt st /\
                 body x st = Raise e st'.
Proof.
  induction xs as [|x xs IH]; intros st0 e st' Hrun; [discriminate|].
  rewrite forEach_cons in Hrun. unfold bind in Hrun.
  destruct (body x st0) as [u st1|e1 st1|] eqn:Hx; [| |discriminate].
  - destruct (IH _ _ _ Hrun) as (k & y & st & Hk & Hpre & Hy).
    exists (S k), y, st. split; [exact Hk|]. split; [|exact Hy].
    simpl take. rewrite forEach_cons. unfold bind. rewrite Hx. exact Hpre.
  - injection Hrun as -> ->. exists 0%nat, x, st0. split; [reflexivity|].
    split; [reflexivity | exact Hx].
Qed.

(** [parseTree] leaves the links, the keys, the names and the cache of the
    [Abstract] object as they are, however it ends. *)
Lemma parseTree_kept i (st : store T MS) :
  match parseTree m fuel i st with
  | Done _ st' | Raise _ st' => kept st st'
  | Diverge => True
  end.
Proof.
  pose proof (ends_parseTree m (fun _ => True) (fun _ _ => True) (fun _ => I)
                (fun _ _ _ _ _ => I)
                (conj (fun _ _ _ _ _ => I)
                   (conj (fun _ _ => I) (conj (fun _ _ _ _ => I) (fun _ _ _ _ => I))))
                fuel i st (fun _ _ _ => I)) as Hends.
  unfold ends_in, frame in Hends.
  destruct (parseTree m fuel i st) as [v st'|e st'|]; [| |exact I].
  - destruct Hends as [Hk _]. exact Hk.
  - destruct Hends as [[Hk _] _]. exact Hk.
Qed.

(** The callback of [compile]: the result of [parseTree] goes into the
    cache under the display key of the tree. *)
Lemma evaluate_cases i (st : store T MS) :
  Abstract.evaluate m fuel i st =
  match parseTree m fuel i st with
  | Done v st1 =>
      Done tt (mkStore (heap st1) (<[input (heap st !!! i) := v]> (this_cache st1)) (mstate st1))
  | Raise e st1 => Raise e st1
  | Diverge => Diverge
  end.
Proof.
  unfold Abstract.evaluate, bind, get_tree, cache_set.
  destruct (parseTree m fuel i st); reflexivity.
Qed.

Lemma forEach_evaluate_links xs : forall (st0 st : store T MS),
  forEach (Abstract.evaluate m fuel) xs st0 = Done tt st ->
  same_links (heap st0) (heap st).
Proof.
  induction xs as [|x xs IH]; intros st0 st Hrun.
  - injection Hrun as <-. apply same_links_refl.
  - rewrite forEach_cons in Hrun. apply bind_Done_inv in Hrun as (u & st1 & Hx & Hrest).
    rewrite evaluate_cases in Hx. pose proof (parseTree_kept x st0) as Hk.
    destruct (parseTree m fuel x st0) as [v st2|e st2|]; [|discriminate..].
    injection Hx as _ <-. destruct Hk as [Hl _].
    exact (same_links_trans _ _ _ Hl (IH _ _ Hrest)).
Qed.

Variable p : list Source.
Variable s : MS.

(** The cache when line [i] is reached. *)
Lemma reached_results i : forall st,
  reaches fuel m p s i st -> (i <= length p)%nat ->
  holds_results fuel m p s i (this_cache st).
Proof.
  induction i as [|i IH]; intros st (trees & Hscan & Hrun) Hle.
  - injection Hrun as <-. split; [apply dom_empty_L|].
    intros j k [(l & Hl & _) _]. discriminate.
  - rewrite seq_S, forEach_app in Hrun. apply bind_Done_inv in Hrun as ([] & sti & Hpre & Hlast).
    rewrite forEach_cons in Hlast. apply bind_Done_inv in Hlast as (u & st2 & Hx & Hret).
    injection Hret as ->. rewrite evaluate_cases in Hx. simpl in Hx.
    pose proof (parseTree_kept i sti) as Hkept.
    destruct (parseTree m fuel i sti) as [v st1|e st1|] eqn:Hparse; [|discriminate..].
    injection Hx as _ <-. destruct Hkept as [_ Hcache].
    assert (Hreach : reaches fuel m p s i sti) by (exists trees; split; assumption).
    destruct (IH sti Hreach ltac:(lia)) as [Hdom Hvalues].
    destruct (lookup_lt_is_Some_2 p i ltac:(lia)) as [li Hi].
    assert (Hkey : input (heap sti !!! i) = source_key li).
    { destruct (forEach_evaluate_links _ _ _ Hpre i) as (_ & -> & _).
      exact (scanDependencyTree_input _ _ _ _ _ Hscan Hi). }
    assert (Hlen : length (take i p) = i) by (apply length_take_le; lia).
    assert (Hmid : (take i p ++ [li])%list !! i = Some li).
    { rewrite lookup_app_r by lia. rewrite Hlen, Nat.sub_diag. reflexivity. }
    unfold holds_results. rewrite (take_S_r _ _ _ Hi). simpl this_cache.
    rewrite Hkey, Hcache. split.
    + rewrite dom_insert_L, Hdom, map_app, list_to_set_app_L. simpl.
      rewrite (right_id_L ∅ (∪)). apply (comm_L (∪)).
    + intros j k [(l & Hl & Hk) Hlast].
      destruct (decide (j < i)%nat) as [Hlt|Hge].
      * rewrite lookup_app_l in Hl by lia.
        destruct (Hvalues j k) as (v' & st' & Hends & Hv').
        { split; [exists l; split; assumption|]. intros j' l' Hjj' Hj'.
          apply (Hlast j' l' Hjj'). rewrite lookup_app_l; [exact Hj'|].
          exact (lookup_lt_Some _ _ _ Hj'). }
        exists v', st'. split; [exact Hends|].
        rewrite lookup_insert_ne; [exact Hv'|].
        exact (Hlast i li Hlt Hmid).
      * assert (j = i) as ->.
        { apply lookup_lt_Some in Hl. rewrite length_app, Hlen in Hl. simpl in Hl. lia. }
        rewrite Hmid in Hl. injection Hl as <-. subst k. exists v, st1. split.
        -- exists sti. split; assumption.
        -- apply lookup_insert_eq.
Qed.

(** The body of [compile]: when it returns, every line was reached and
    returned; when it throws, [parseTree] threw for a line that was reached
    after the lines before it had returned, and the cache is left as it was
    when that line was reached. *)
Lemma run_results :
  match Abstract.run fuel m p s with
  | Done _ st => holds_results fuel m p s (length p) (this_cache st)
  | Raise e st' =>
      exists i, (i < length p)%nat /\ line_ends fuel m p s i (Raise e st') /\
                holds_results fuel m p s i (this_cache st')
  | Diverge => True
  end.
Proof.
  unfold Abstract.run.
  destruct (Abstract.scanDependencyTree fuel p) as [trees|] eqn:Hscan; [|exact I].
  destruct (scanDependencyTree_shape fuel p trees Hscan) as (Hlen & _). rewrite Hlen.
  destruct (forEach (Abstract.evaluate m fuel) (seq 0 (length p)) (mkStore trees ∅ s))
    as [[] st|e st'|] eqn:Hrun; [| |exact I].
  - apply reached_results; [|reflexivity]. exists trees. split; assumption.
  - destruct (forEach_Raise_inv _ _ _ _ _ Hrun) as (k & x & st & Hk & Hpre & Hx).
    apply lookup_seq in Hk as [-> Hk]. simpl in Hx.
    rewrite take_seq, Nat.min_l in Hpre by lia.
    rewrite evaluate_cases in Hx. pose proof (parseTree_kept k st) as Hkept.
    destruct (parseTree m fuel k st) as [v st1|e1 st1|] eqn:Hparse; [discriminate| |discriminate].
    injection Hx as -> ->. destruct Hkept as [_ Hcache].
    assert (Hreach : reaches fuel m p s k st) by (exists trees; split; assumption).
    exists k. split; [exact Hk|]. split.
    + exists st. split; assumption.
    + rewrite Hcache. apply reached_results; [exact Hreach | lia].
Qed.

End Entries.

Lemma holds_results_expandMacro {T MS : Type} `{Value T} fuel (m : AbstractMachine T MS)
    kwords p0 s i c :
  holds_results fuel m (Abstract.expandMacro kwords p0) s i c ->
  dom c = list_to_set (map source_key (take i p0)) /\
  forall j k, last_with_key (take i p0) j k ->
    exists v st', line_ends fuel m (Abstract.expandMacro kwords p0) s j (Done v st') /\
                  c !! k = Some v.
Proof.
  intros [Hdom Hvalues]. split; [rewrite Hdom, expandMacro_take_keys; reflexivity|].
  intros j k Hlast. apply Hvalues. apply last_with_key_expandMacro. exact Hlast.
Qed.

(** C1, as the code has it: when no name of the expanded program is
    self-referential, directly or through other lines, [compile] terminates
    for every large enough bound on the nesting of calls.  It returns
    unless [parseTree] throws for a line, the lines before which returned,
    and what it throws then is an exception that an operation of the
    machine throws.  When it returns, the keys of the cache are exactly the
    display keys of the program, so the cache has one entry per line when
    the display keys are pairwise distinct; and under each key the cache
    holds the value that [parseTree] returned for the last line with that
    key, the later result in the place of the earlier. *)
Theorem compile_terminates {T MS : Type} `{Value T}
    (m : AbstractMachine T MS) (a : Abstract.t T) (s : MS) :
  let p := Abstract.expandMacro (Abstract.macro a) (Abstract.program a) in
  acyclic p ->
  exists fuel0, forall fuel, (fuel0 <= fuel)%nat ->
    match Abstract.compile fuel m a s with
    | Abstract.Returned a' _ =>
        dom (Abstract.cache a') = list_to_set (map source_key (Abstract.program a)) /\
        (NoDup (map source_key (Abstract.program a)) ->
         size (Abstract.cache a') = length (Abstract.program a)) /\
        (forall i k, last_with_key (Abstract.program a) i k ->
           exists v st', line_ends fuel m p s i (Done v st') /\
                         Abstract.cache a' !! k = Some v)
    | Abstract.Thrown e _ _ =>
        raises m e /\
        exists i st', (i < length (Abstract.program a))%nat /\
                      line_ends fuel m p s i (Raise e st')
    | Abstract.Diverges => False
    end.
Proof.
  intros p [rank Hrank].
  exists (S (list_sum (map rank (seq 0 (length p))))). intros fuel Hfuel.
  assert (Hlen : length p = length (Abstract.program a)) by apply length_map.
  pose proof (run_ok m rank fuel p s Hrank Hfuel) as Hrun.
  pose proof (run_results m fuel p s) as Hres.
  pose proof (run_ends m (fun _ => True) (fun _ _ => True) (fun _ => I)
                (fun _ _ _ _ _ => I)
                (conj (fun _ _ _ _ _ => I)
                   (conj (fun _ _ => I) (conj (fun _ _ _ _ => I) (fun _ _ _ _ => I))))
                fuel p s (fun _ _ => I)) as Hends.
  unfold Abstract.compile. fold p.
  destruct (Abstract.run fuel m p s) as [u st|e st|]; [| |exact Hrun].
  - simpl. unfold p in Hrun. rewrite expandMacro_keys in Hrun. split; [exact Hrun|]. split.
    + intros Hnd. rewrite <- size_dom, Hrun, size_list_to_set by exact Hnd. apply length_map.
    + apply holds_results_expandMacro in Hres as [_ Hvalues]. intros i k Hlast.
      apply Hvalues. rewrite Hlen, firstn_all. exact Hlast.
  - destruct Hends as (_ & He & _). split; [exact He|].
    destruct Hres as (i & Hi & Hline & _). exists i, st. split; [lia | exact Hline].
Qed.

(** C1, counterexample: two lines with the same display key and no name at
    all; [compile] returns and the cache has one entry for the two lines. *)
Lemma compile_duplicate_keys :
  let a := build [("a", None); ("a", None)] [] in
  acyclic (Abstract.expandMacro (Abstract.macro a) (Abstract.program a)) /\
  match Abstract.compile 1 (Interpreter.createInterpreter Sample.tuples) a
          Interpreter.fresh with
  | Abstract.Returned a' _ =>
      size (Abstract.cache a') = 1%nat /\ length (Abstract.program a') = 2%nat
  | _ => False
  end.
Proof.
  split.
  - apply (ranked_sound (fun _ => 0%nat)). vm_compute. reflexivity.
  - vm_compute. split; reflexivity.
Qed.

(** The program of the test suite, whose third line refers to the second
    and the second to the first, on a machine that never throws. *)
Lemma compile_terminates_witness :
  let a := build Sample.references [] in
  let p := Abstract.expandMacro (Abstract.macro a) (Abstract.program a) in
  acyclic p /\
  exists fuel0, forall fuel, (fuel0 <= fuel)%nat ->
    match Abstract.compile fuel Sample.echo a tt with
    | Abstract.Returned a' _ =>
        dom (Abstract.cache a') = list_to_set (map source_key (Abstract.program a)) /\
        (NoDup (map source_key (Abstract.program a)) ->
         size (Abstract.cache a') = length (Abstract.program a)) /\
        (forall i k, last_with_key (Abstract.program a) i k ->
           exists v st', line_ends fuel Sample.echo p tt i (Done v st') /\
                         Abstract.cache a' !! k = Some v)
    | Abstract.Thrown e _ _ =>
        raises Sample.echo e /\
        exists i st', (i < length (Abstract.program a))%nat /\
                      line_ends fuel Sample.echo p tt i (Raise e st')
    | Abstract.Diverges => False
    end.
Proof.
  intros a p.
  assert (Ha : acyclic p).
  { apply (ranked_sound (fun i => i)). vm_compute. reflexivity. }
  split; [exact Ha|]. exact (compile_terminates Sample.echo a tt Ha).
Defined.

(** X4: the cache, whatever the program and the machine.  When [compile]
    returns, the keys of the cache are the display keys of all the lines,
    nothing of an earlier cache is left, and under each key the cache holds
    the value that [parseTree] returned for the last line with that key.
    When [compile] throws, [parseTree] threw for a line [i] that was
    reached after the lines before it had returned, and the cache and the
    machine are left as they were at that throw: the cache holds the
    entries of the lines before line [i], and no other. *)
Theorem compile_cache_keys {T MS : Type} `{Value T}
    (m : AbstractMachine T MS) (fuel : nat) (a : Abstract.t T) (s : MS) :
  let p := Abstract.expandMacro (Abstract.macro a) (Abstract.program a) in
  match Abstract.compile fuel m a s with
  | Abstract.Returned a' _ =>
      dom (Abstract.cache a') = list_to_set (map source_key (Abstract.program a)) /\
      forall i k, last_with_key (Abstract.program a) i k ->
        exists v st', line_ends fuel m p s i (Done v st') /\ Abstract.cache a' !! k = Some v
  | Abstract.Thrown e a' s' =>
      exists i st', (i < length (Abstract.program a))%nat /\
        line_ends fuel m p s i (Raise e st') /\
        this_cache st' = Abstract.cache a' /\ mstate st' = s' /\
        dom (Abstract.cache a') = list_to_set (map source_key (take i (Abstract.program a))) /\
        forall j k, last_with_key (take i (Abstract.program a)) j k ->
          exists v st'', line_ends fuel m p s j (Done v st'') /\
                         Abstract.cache a' !! k = Some v
  | Abstract.Diverges => True
  end.
Proof.
  intros p. unfold Abstract.compile. fold p.
  assert (Hlen : length p = length (Abstract.program a)) by apply length_map.
  pose proof (run_results m fuel p s) as Hres.
  destruct (Abstract.run fuel m p s) as [u st|e st|]; [| |exact I].
  - apply holds_results_expandMacro in Hres as [Hdom Hvalues].
    rewrite Hlen, firstn_all in Hdom, Hvalues. simpl. split; assumption.
  - destruct Hres as (i & Hi & Hline & Hres).
    apply holds_results_expandMacro in Hres as [Hdom Hvalues].
    exists i, st. simpl. repeat split; try assumption. lia.
Qed.

(** X5: [compile] throws nothing of its own: an exception that leaves it is
    one that an operation of the machine threw, so that with a machine
    whose operations never throw, [compile] never throws. *)
Theorem compile_throws_machine_errors {T MS : Type} `{Value T}
    (m : AbstractMachine T MS) (fuel : nat) (a : Abstract.t T) (s : MS) :
  match Abstract.compile fuel m a s with
  | Abstract.Thrown e _ _ => raises m e /\ ~ never_throws m
  | _ => True
  end.
Proof.
  unfold Abstract.compile.
  pose proof (run_ends m (fun _ => True) (fun _ _ => True) (fun _ => I)
                (fun _ _ _ _ _ => I)
                (conj (fun _ _ _ _ _ => I)
                   (conj (fun _ _ => I) (conj (fun _ _ _ _ => I) (fun _ _ _ _ => I))))
                fuel (Abstract.expandMacro (Abstract.macro a) (Abstract.program a)) s
                (fun _ _ => I)) as Hrun.
  destruct (Abstract.run fuel m _ s) as [u st|e st|]; [exact I| |exact I].
  destruct Hrun as (_ & He & _). split; [exact He|].
  intros (Hfold & Hread & Hsave & Hswap).
  destruct He as [(p & v & i & r & s0 & s1 & He)|[(k & s0 & s1 & He)|
                 [(k & v & s0 & s1 & He)|(k & v & x & s0 & s1 & He)]]].
  - destruct (Hfold p v i r s0) as (y & s2 & Hy). congruence.
  - destruct (Hread k s0) as (y & s2 & Hy). congruence.
  - destruct (Hsave k v s0) as (y & s2 & Hy). congruence.
  - destruct (Hswap k v x s0) as (y & s2 & Hy). congruence.
Qed.

(** X6: [compile] reaches the state of the machine through the four
    operations only, and calls [save] under publish names of the program
    only: a relation between states of the machine that is reflexive and
    transitive, that [fold], [read] and [swap] respect, and that [save]
    respects under the publish names of the program, holds between the state
    in which [compile] finds the machine and the state in which it leaves
    it, by returning or by throwing. *)
Theorem compile_machine_guarantee {T MS : Type} `{Value T}
    (m : AbstractMachine T MS) (G : MS -> MS -> Prop)
    (fuel : nat) (a : Abstract.t T) (s : MS) :
  (forall s0, G s0 s0) ->
  (forall s1 s2 s3, G s1 s2 -> G s2 s3 -> G s1 s3) ->
  respects m (publish_name (Abstract.program a)) G ->
  match Abstract.compile fuel m a s with
  | Abstract.Returned _ s' => G s s'
  | Abstract.Thrown _ _ s' => G s s'
  | Abstract.Diverges => True
  end.
Proof.
  intros Hrefl Htrans Hm. unfold Abstract.compile.
  pose proof (run_ends m _ G Hrefl Htrans Hm fuel
                (Abstract.expandMacro (Abstract.macro a) (Abstract.program a)) s
                (publish_name_expandMacro _ _)) as Hrun.
  destruct (Abstract.run fuel m _ s) as [u st|e st|]; [| |exact I];
    destruct Hrun as [Hg _]; exact Hg.
Qed.

(* ===================================================================== *)
(** ** The state of the reference interpreter *)
(* ===================================================================== *)

Lemma swap_state r str a s : (Interpreter.swap r str a s).2 = s.
Proof.
  unfold Interpreter.swap. destruct a as [[[xs sol] val]|]; [|reflexivity].
  destruct sol; try reflexivity.
  destruct (Interpreter.above_minus_one val); [|reflexivity].
  destruct (Interpreter.element_text xs val); reflexivity.
Qed.

Lemma fold_state resolver acc token n input s :
  Interpreter.cache (Interpreter.fold resolver acc token n input s).2 = Interpreter.cache s /\
  Interpreter.errors s `prefix_of` Interpreter.errors (Interpreter.fold resolver acc token n input s).2.
Proof.
  unfold Interpreter.fold. destruct (resolver (JS.trim token) acc n input); simpl.
  - split; reflexivity.
  - split; [reflexivity|]. apply prefix_app_r. reflexivity.
Qed.

Lemma grown_refl K s : grown K s s.
Proof. split; [reflexivity|]. split; [intros k Hk; exact Hk | reflexivity]. Qed.

Lemma grown_trans K s1 s2 s3 : grown K s1 s2 -> grown K s2 s3 -> grown K s1 s3.
Proof.
  intros (He12 & Hs12 & Hk12) (He23 & Hs23 & Hk23).
  split; [etransitivity; eassumption|]. split.
  - intros k Hk. apply Hs23, Hs12, Hk.
  - intros k Hk. rewrite (Hk23 k Hk). exact (Hk12 k Hk).
Qed.

Lemma interpreter_respects resolver K :
  respects (Interpreter.createInterpreter resolver) K (grown K).
Proof.
  split; [|split; [|split]].
  - intros p v i r s. destruct (fold_state resolver p v i r s) as [Hc He]. simpl.
    split; [exact He|]. split; [intros k; rewrite Hc; tauto | intros k _; rewrite Hc; reflexivity].
  - intros k s. apply grown_refl.
  - intros k v s Hk. simpl. split; [reflexivity|]. split.
    + intros k' Hk'. simpl. rewrite lookup_insert.
      destruct (decide (k = k')); [eexists; reflexivity | exact Hk'].
    + intros k' Hk'. simpl. apply lookup_insert_ne. intros ->. exact (Hk' Hk).
  - intros k v x s. simpl. rewrite swap_state. apply grown_refl.
Qed.

(** X7: the reference interpreter through a [compile], however it ends: the
    errors that were in the log are still there, at its head and in the
    same order; every name its cache held is still held; and the cache has
    changed under publish names of the program at most. *)
Theorem compile_interpreter_grows (resolver : Resolver) (fuel : nat)
    (a : Abstract.t (option Accumulator)) (s : Interpreter.state) :
  match Abstract.compile fuel (Interpreter.createInterpreter resolver) a s with
  | Abstract.Returned _ s' | Abstract.Thrown _ _ s' =>
      Interpreter.errors s `prefix_of` Interpreter.errors s' /\
      (forall k, is_Some (Interpreter.cache s !! k) -> is_Some (Interpreter.cache s' !! k)) /\
      (forall k, ~ publish_name (Abstract.program a) k ->
                 Interpreter.cache s' !! k = Interpreter.cache s !! k)
  | Abstract.Diverges => True
  end.
Proof.
  unfold Abstract.compile.
  pose proof (run_ends (Interpreter.createInterpreter resolver)
                (publish_name (Abstract.program a)) (grown (publish_name (Abstract.program a)))
                (grown_refl _) (grown_trans _) (interpreter_respects resolver _) fuel
                (Abstract.expandMacro (Abstract.macro a) (Abstract.program a)) s
                (publish_name_expandMacro _ _)) as Hrun.
  destruct (Abstract.run fuel _ _ s) as [u st|e st|]; [| |exact I];
    destruct Hrun as [Hg _]; exact Hg.
Qed.

(** A program without publish names leaves the cache of the interpreter
    as it finds it. *)
Lemma compile_machine_guarantee_witness :
  let a := build [("f: x", None); ("y", None)] [] in
  let s := Interpreter.mk [] {[ "y" := Some ([], VALUE, Int 1) ]} in
  match Abstract.compile 1 (Interpreter.createInterpreter Sample.tuples) a s with
  | Abstract.Returned _ s' => Interpreter.cache s' = Interpreter.cache s
  | Abstract.Thrown _ _ s' => Interpreter.cache s' = Interpreter.cache s
  | Abstract.Diverges => True
  end.
Proof.
  intros a s.
  apply (compile_machine_guarantee (Interpreter.createInterpreter Sample.tuples)
           (fun s0 s1 => Interpreter.cache s1 = Interpreter.cache s0) 1 a s).
  - reflexivity.
  - intros s1 s2 s3 H12 H23. congruence.
  - split; [|split; [|split]].
    + intros p v i r s0. reflexivity.
    + intros k s0. reflexivity.
    + intros k v s0 (l & Hl & Hr). exfalso.
      destruct Hl as [<-|[<-|[]]]; discriminate.
    + intros k v x s0. simpl. rewrite swap_state. reflexivity.
Defined.

(** X8: the values of the cache of the interpreter: [read] gives back what
    [save] stored under the name and returned, the last value when there
    were several; under another name it answers as before; neither touches
    the log of errors, and [read] leaves the interpreter as it is. *)
Theorem save_then_read (r r' : string) (val : option Accumulator) (s : Interpreter.state) :
  (Interpreter.save r val s).1 = Normal val /\
  (Interpreter.read r' (Interpreter.save r val s).2).1 =
    (if decide (r' = r) then Normal val else (Interpreter.read r' s).1) /\
  Interpreter.errors (Interpreter.save r val s).2 = Interpreter.errors s /\
  (Interpreter.read r' s).2 = s /\
  forall val0, (Interpreter.save r val (Interpreter.save r val0 s).2).2
               = (Interpreter.save r val s).2.
Proof.
  split; [reflexivity|]. split; [|split; [reflexivity|split; [reflexivity|]]].
  - unfold Interpreter.read, Interpreter.save. simpl. rewrite lookup_insert.
    destruct (decide (r' = r)) as [->|Hne].
    + rewrite decide_True by reflexivity. reflexivity.
    + rewrite decide_False by congruence. reflexivity.
  - intros val0. unfold Interpreter.save. simpl. rewrite insert_insert_eq. reflexivity.
Qed.

(** X9: [swap] leaves the interpreter as it is, and throws in these cases
    only: for an accumulator that is still [undefined], which it cannot take
    apart; and for an index solution whose value is above -1 and is the
    position of no tuple, that is, an integer at or past the end of the
    tuples, or a number that is no exact integer (a fraction, an
    infinity). *)
Theorem swap_outcome (r str : string) (a : option Accumulator) (s : Interpreter.state) :
  (Interpreter.swap r str a s).2 = s /\
  ((exists e, (Interpreter.swap r str a s).1 = Abrupt e) <->
   a = None \/
   (exists xs z exact, a = Some (xs, INDEX, Integer z exact) /\ Z.of_nat (length xs) <= z) \/
   (exists xs text, a = Some (xs, INDEX, Other true text))).
Proof.
  split; [apply swap_state|]. unfold Interpreter.swap.
  destruct a as [[[xs sol] val]|]; simpl.
  - destruct sol.
    + destruct val as [|z exact|above text]; simpl.
      * split; [intros [e He]; discriminate|].
        intros [Hn|[(xs' & z & ex & Ha & _)|(xs' & text & Ha)]]; discriminate.
      * destruct (Z.gtb_spec z (-1)) as [Hgt|Hle].
        -- destruct (Z.ltb_spec z 0) as [Hneg|Hpos]; [lia|].
           destruct (xs !! Z.to_nat z) as [tuple|] eqn:Hl; simpl.
           ++ split; [intros [e He]; discriminate|].
              intros [Hn|[(xs' & z' & ex & Ha & Hlen)|(xs' & text & Ha)]]; [discriminate| |discriminate].
              injection Ha as <- <-. apply lookup_lt_Some in Hl. lia.
           ++ split; [|intros _; eexists; reflexivity].
              intros _. right. left. exists xs, z, exact. split; [reflexivity|].
              apply lookup_ge_None in Hl. lia.
        -- split; [intros [e He]; discriminate|].
           intros [Hn|[(xs' & z' & ex & Ha & Hlen)|(xs' & text & Ha)]]; [discriminate| |discriminate].
           injection Ha as <- <-. lia.
      * destruct above; simpl.
        -- split; [|intros _; eexists; reflexivity].
           intros _. right. right. exists xs, text. reflexivity.
        -- split; [intros [e He]; discriminate|].
           intros [Hn|[(xs' & z & ex & Ha & _)|(xs' & text' & Ha)]]; discriminate.
    + split; [intros [e He]; discriminate|].
      intros [Hn|[(xs' & z & ex & Ha & _)|(xs' & text & Ha)]]; discriminate.
    + split; [intros [e He]; discriminate|].
      intros [Hn|[(xs' & z & ex & Ha & _)|(xs' & text & Ha)]]; discriminate.
  - split; [intros _; left; reflexivity | intros _; eexists; reflexivity].
Qed.

(* ===================================================================== *)
(** ** Published names and the cache of the interpreter *)
(* ===================================================================== *)

Lemma call_read_interpreter resolver k
    (st : store (option Accumulator) Interpreter.state) :
  call (read (Interpreter.createInterpreter resolver) k) st
  = Done (mjoin (Interpreter.cache (mstate st) !! k)) st.
Proof. unfold call. simpl. destruct st; reflexivity. Qed.

Lemma call_swap_interpreter resolver k v x
    (st : store (option Accumulator) Interpreter.state) :
  (exists y, call (swap (Interpreter.createInterpreter resolver) k v x) st = Done y st) \/
  (exists e, call (swap (Interpreter.createInterpreter resolver) k v x) st = Raise e st).
Proof.
  unfold call. simpl. pose proof (swap_state k v x (mstate st)) as Hs.
  destruct (Interpreter.swap k v x (mstate st)) as [[y|e] s']; simpl in Hs; subst s';
    destruct st; simpl; [left | right]; eexists; reflexivity.
Qed.

(** X10: a line with a publish name, evaluated by the reference interpreter:
    when [parseTree] returns, the interpreter holds the returned value
    under the publish name of the line, and [read] answers with it. *)
Theorem parseTree_publishes (resolver : Resolver) (n t : nat)
    (st st' : store (option Accumulator) Interpreter.state)
    (v : option Accumulator) (name : string) :
  truthy_name (ref (heap st !!! t)) = Some name ->
  parseTree (Interpreter.createInterpreter resolver) n t st = Done v st' ->
  Interpreter.cache (mstate st') !! name = Some v /\
  Interpreter.read name (mstate st') = (Normal v, mstate st').
Proof.
  intros Hname Hp. destruct n as [|n]; [discriminate|].
  rewrite parseTree_S in Hp.
  apply bind_Done_inv in Hp as (tree & st0 & Hget & Hp). injection Hget as <- <-.
  apply bind_Done_inv in Hp as (u & st1 & Hloop & Hp).
  pose proof (ends_resolve_loop (Interpreter.createInterpreter resolver)
                (fun _ => True) (fun _ _ => True) (fun _ => I) (fun _ _ _ _ _ => I)
                (conj (fun _ _ _ _ _ => I)
                   (conj (fun _ _ => I) (conj (fun _ _ _ _ => I) (fun _ _ _ _ => I))))
                (parseTree (Interpreter.createInterpreter resolver) n) t
                (JS.obj_keys (dependencies (heap st !!! t))) st
                (fun d st1 Hn1 =>
                   ends_parseTree (Interpreter.createInterpreter resolver)
                     (fun _ => True) (fun _ _ => True) (fun _ => I) (fun _ _ _ _ _ => I)
                     (conj (fun _ _ _ _ _ => I)
                        (conj (fun _ _ => I) (conj (fun _ _ _ _ => I) (fun _ _ _ _ => I))))
                     n d st1 Hn1)
                (fun _ _ _ => I) (fun k Hk => obj_get_keys _ _ Hk)) as Hf.
  unfold ends_in in Hf. rewrite Hloop in Hf. destruct Hf as ([Hl _] & _).
  destruct (Hl t) as (_ & _ & Href).
  unfold fold_and_publish in Hp.
  apply bind_Done_inv in Hp as (tree1 & st2 & Hget1 & Hp). injection Hget1 as <- <-.
  apply bind_Done_inv in Hp as (tVal & st3 & Hred & Hp).
  rewrite Href, Hname in Hp. unfold call in Hp. simpl in Hp. injection Hp as <- <-.
  simpl. unfold Interpreter.read. simpl. rewrite lookup_insert_eq. split; reflexivity.
Qed.

(** The line [f: x] published under [r]. *)
Lemma parseTree_publishes_witness :
  let st := mkStore [mkTree (Some "r") "k" [] "f: x"]
              (∅ : gmap string (option Accumulator)) Interpreter.fresh in
  match parseTree (Interpreter.createInterpreter Sample.tuples) 1 0 st with
  | Done v st' =>
      v = Some ([], TUPLE, NaN) /\
      Interpreter.cache (mstate st') !! "r" = Some v /\
      Interpreter.read "r" (mstate st') = (Normal v, mstate st')
  | _ => False
  end.
Proof.
  intros st.
  destruct (parseTree (Interpreter.createInterpreter Sample.tuples) 1 0 st)
    as [v st'|e st'|] eqn:E; [|vm_compute in E; discriminate..].
  split; [vm_compute in E; congruence|].
  exact (parseTree_publishes Sample.tuples 1 0 st st' v "r" eq_refl E).
Defined.

Lemma reduceRight_go_ends {T MS : Type} (m : AbstractMachine T MS) arr todo :
  forall acc (st : store T MS),
    reduceRight_go (fun p v i r => call (fold m p v i r)) arr todo acc st <> Diverge.
Proof.
  induction todo as [|[i v] todo IH]; intros acc st; [discriminate|].
  simpl. unfold bind, call.
  destruct (fold m acc v i arr (mstate st)) as [[x|e] s']; [apply IH | discriminate].
Qed.

(** The last two statements of [parseTree] call nothing that recurses. *)
Lemma fold_and_publish_ends {T MS : Type} `{Value T} (m : AbstractMachine T MS) t
    (st : store T MS) :
  fold_and_publish m t st <> Diverge.
Proof.
  unfold fold_and_publish, bind, get_tree, reduceRight.
  pose proof (reduceRight_go_ends m
                (JS.split (currentValue (heap st !!! t)) Tokens.FUN_COMPOSITION)
                (rev (imap pair (JS.split (currentValue (heap st !!! t)) Tokens.FUN_COMPOSITION)))
                undefined st) as Hr.
  destruct (reduceRight_go _ _ _ _ st) as [tVal st1|e st1|]; [|discriminate|contradiction].
  destruct (truthy_name (ref (heap st !!! t))) as [name|]; [|discriminate].
  unfold call. destruct (save m name tVal (mstate st1)) as [[x|e] s']; discriminate.
Qed.

Section Memo.
Variable resolver : Resolver.
Implicit Types (st : store (option Accumulator) Interpreter.state).

(** With a value under the name [k] in the cache of the interpreter, the
    tree behind [k] is not evaluated. *)
Lemma attempt_cached (rec rec' : nat -> M (option Accumulator) Interpreter.state
                                        (option Accumulator)) t k st acc :
  Interpreter.cache (mstate st) !! k = Some (Some acc) ->
  attempt (Interpreter.createInterpreter resolver) rec t k st
  = attempt (Interpreter.createInterpreter resolver) rec' t k st /\
  match attempt (Interpreter.createInterpreter resolver) rec t k st with
  | Done _ st' => mstate st' = mstate st
  | Raise _ st' => mstate st' = mstate st
  | Diverge => False
  end.
Proof.
  intros Hc. unfold attempt.
  rewrite !(bind_done _ _ _ _ _ (get_tree_done t st)).
  rewrite !(bind_done _ _ _ _ _ (call_read_interpreter resolver k st)).
  rewrite Hc. cbn [mjoin option_join truthy Accumulator_Value].
  rewrite !(bind_done (ret (Some acc)) _ st (Some acc) st eq_refl).
  rewrite !(bind_done _ _ _ _ _ (get_tree_done t st)).
  destruct (call_swap_interpreter resolver k (currentValue (heap st !!! t)) (Some acc) st)
    as [[y Hy]|[e He]].
  - rewrite !(bind_done _ _ _ _ _ Hy), !(bind_done _ _ _ _ _ (get_tree_done t st)).
    destruct (JS.nonempty y); [split; reflexivity|].
    destruct (JS.obj_get (dependencies (heap st !!! t)) k) as [d|]; split; reflexivity.
  - rewrite !(bind_raise _ _ _ _ _ He). split; reflexivity.
Qed.

Lemma resolve_loop_cached (rec rec' : nat -> M (option Accumulator) Interpreter.state
                                             (option Accumulator)) t ks : forall st,
  (forall k, In k ks -> exists acc, Interpreter.cache (mstate st) !! k = Some (Some acc)) ->
  forEach (resolve (Interpreter.createInterpreter resolver) rec t) ks st
  = forEach (resolve (Interpreter.createInterpreter resolver) rec' t) ks st /\
  match forEach (resolve (Interpreter.createInterpreter resolver) rec t) ks st with
  | Done _ st' => mstate st' = mstate st
  | Raise _ st' => mstate st' = mstate st
  | Diverge => False
  end.
Proof.
  induction ks as [|k ks IH]; intros st Hks; [split; reflexivity|].
  destruct (Hks k (or_introl eq_refl)) as [acc Hacc].
  assert (Hstep :
    resolve (Interpreter.createInterpreter resolver) rec t k st
    = resolve (Interpreter.createInterpreter resolver) rec' t k st /\
    match resolve (Interpreter.createInterpreter resolver) rec t k st with
    | Done _ st' => mstate st' = mstate st
    | Raise _ st' => mstate st' = mstate st
    | Diverge => False
    end).
  { unfold resolve. rewrite !(bind_done _ _ _ _ _ (get_tree_done t st)).
    destruct (resolvable (currentValue (heap st !!! t)) k);
      [exact (attempt_cached rec rec' t k st acc Hacc) | split; reflexivity]. }
  destruct Hstep as [Heq Hst]. rewrite !forEach_cons. unfold bind. rewrite <- Heq.
  destruct (resolve (Interpreter.createInterpreter resolver) rec t k st)
    as [u st1|e st1|]; [|split; [reflexivity | exact Hst]|contradiction].
  destruct (IH st1) as [Heq1 Hst1].
  { intros k' Hk'. rewrite Hst. apply Hks. right. exact Hk'. }
  split; [exact Heq1|].
  destruct (forEach (resolve (Interpreter.createInterpreter resolver) rec t) ks st1)
    as [u2 st2|e2 st2|]; congruence.
Qed.

End Memo.

(** X11: memoisation: when the cache of the interpreter holds a value under
    every dependency name of a tree, [parseTree] evaluates none of the trees
    behind the names: it ends without a nested call, and the bound on the
    nesting does not matter. *)
Theorem parseTree_memoized (resolver : Resolver) (n t : nat)
    (st : store (option Accumulator) Interpreter.state) :
  (forall k, In k (JS.obj_keys (dependencies (heap st !!! t))) ->
             exists acc, Interpreter.cache (mstate st) !! k = Some (Some acc)) ->
  parseTree (Interpreter.createInterpreter resolver) (S n) t st
  = parseTree (Interpreter.createInterpreter resolver) 1 t st /\
  parseTree (Interpreter.createInterpreter resolver) 1 t st <> Diverge.
Proof.
  intros Hks. rewrite !parseTree_S.
  rewrite !(bind_done _ _ _ _ _ (get_tree_done t st)).
  destruct (resolve_loop_cached resolver
              (parseTree (Interpreter.createInterpreter resolver) n)
              (parseTree (Interpreter.createInterpreter resolver) 0) t _ st Hks) as [Heq Hst].
  unfold bind. rewrite <- Heq.
  destruct (forEach _ _ st) as [u st1|e st1|]; [|split; [reflexivity | discriminate]|contradiction].
  split; [reflexivity | apply fold_and_publish_ends].
Qed.

(** The third line of the test suite once [reference #2] is in the cache
    of the interpreter: the second line is not evaluated again. *)
Lemma parseTree_memoized_witness :
  let held := Interpreter.mk [] {[ "reference #2" := Some (Sample.summed, TUPLE, NaN) ]} in
  let st := mkStore [mkTree None "k" [("reference #2", 1%nat)] "avg: reference #2";
                     mkTree (Some "reference #2") "j" [] "tuple: sum: {s < 4}"]
              (∅ : gmap string (option Accumulator)) held in
  parseTree (Interpreter.createInterpreter Sample.expected) 5 0 st
  = parseTree (Interpreter.createInterpreter Sample.expected) 1 0 st /\
  parseTree (Interpreter.createInterpreter Sample.expected) 1 0 st <> Diverge.
Proof.
  intros held st. apply (parseTree_memoized Sample.expected 4 0 st).
  intros k [<-|[]]. exists (Sample.summed, TUPLE, NaN). reflexivity.
Defined.

(* ===================================================================== *)
(** ** [build] and the macro table *)
(* ===================================================================== *)

(** X12: the memory that [build] hands out is empty until the runtime is
    called; when the runtime returns, it has a value under the text of
    every line as the caller wrote it, the text before macro expansion, and
    under nothing else, while the lines are evaluated on their expanded
    texts. *)
Theorem build_memory_keys {MS : Type} (p : list (string * option string))
    (macro : JS.obj string) (m : AbstractMachine (option Accumulator) MS)
    (fuel : nat) (s : MS) :
  Abstract.cache (build p macro) = ∅ /\
  match Abstract.compile fuel m (build p macro) s with
  | Abstract.Returned a' _ =>
      (forall k, is_Some (Abstract.cache a' !! k) <-> In k (map fst p)) /\
      map source_text (Abstract.program a') = map (Abstract.expandLine macro) (map fst p)
  | _ => True
  end.
Proof.
  split; [reflexivity|]. unfold Abstract.compile.
  pose proof (run_ends m (fun _ => True) (fun _ _ => True) (fun _ => I)
                (fun _ _ _ _ _ => I)
                (conj (fun _ _ _ _ _ => I)
                   (conj (fun _ _ => I) (conj (fun _ _ _ _ => I) (fun _ _ _ _ => I))))
                fuel (Abstract.expandMacro (Abstract.macro (build p macro))
                        (Abstract.program (build p macro))) s
                (fun _ _ => I)) as Hrun.
  destruct (Abstract.run fuel m _ s) as [u st|e st|]; [|exact I..].
  destruct Hrun as [_ Hd]. cbn [Abstract.cache Abstract.program]. split.
  - intros k. rewrite <- elem_of_dom, Hd, expandMacro_keys, elem_of_list_to_set,
      list_elem_of_In. unfold build. cbn [Abstract.program]. rewrite map_map. reflexivity.
  - rewrite expandMacro_texts. unfold build. cbn [Abstract.program Abstract.macro].
    rewrite !map_map. reflexivity.
Qed.

Lemma expandLine_cons k v kwords text :
  Abstract.expandLine ((k, v) :: kwords) text
  = Abstract.expandLine kwords (if occurs text k then JS.replace text k v else text).
Proof. reflexivity. Qed.

Lemma expandLine_without_keys kwords : forall text,
  (forall k, In k (JS.obj_keys kwords) -> occurs text k = false) ->
  Abstract.expandLine kwords text = text.
Proof.
  induction kwords as [|[k v] kwords IH]; intros text Hno; [reflexivity|].
  rewrite expandLine_cons, (Hno k (or_introl eq_refl)). apply IH.
  intros k' Hk'. apply Hno. right. exact Hk'.
Qed.

(** X13: macro expansion leaves alone the lines that mention none of the keys
    of the macro table: a program none of whose lines mentions a key comes
    out as it went in. *)
Theorem expandMacro_without_keys (kwords : JS.obj string) (p : list Source) :
  (forall l k, In l p -> In k (JS.obj_keys kwords) -> occurs (source_text l) k = false) ->
  Abstract.expandMacro kwords p = p.
Proof.
  intros Hno. unfold Abstract.expandMacro. rewrite <- (map_id p) at 2.
  apply map_ext_in. intros [[text key] r] Hl.
  rewrite expandLine_without_keys; [reflexivity|].
  intros k Hk. exact (Hno _ k Hl Hk).
Qed.

(** The macro table of the test suite on lines that do not mention
    [today]. *)
Lemma expandMacro_without_keys_witness :
  Abstract.expandMacro [("today", "2023-01-01")]
    [("calc! 21 + 21", "calc! 21 + 21", Some "variable"); ("{x < variable}", "k", None)]
  = [("calc! 21 + 21", "calc! 21 + 21", Some "variable"); ("{x < variable}", "k", None)].
Proof.
  apply expandMacro_without_keys.
  intros l k [<-|[<-|[]]] [<-|[]]; reflexivity.
Defined.

Lemma append_inj_length b : forall b' x x',
  b +:+ x = b' +:+ x' -> String.length b = String.length b' -> b = b' /\ x = x'.
Proof.
  induction b as [|c b IH]; intros [|c' b'] x x' Heq Hlen; try discriminate.
  - rewrite !append_nil_l in Heq. split; [reflexivity | exact Heq].
  - rewrite !append_cons in Heq. injection Heq as -> Heq. simpl in Hlen.
    destruct (IH b' x x' Heq) as [-> ->]; [lia|]. split; reflexivity.
Qed.

Lemma append_inj_l h x y : h +:+ x = h +:+ y -> x = y.
Proof. intros Heq. exact (proj2 (append_inj_length h h x y Heq eq_refl)). Qed.

(** The first occurrence of a key is where [cut] cuts. *)
Lemma cut_complete s k b a :
  s = b +:+ k +:+ a ->
  (forall b' a', s = b' +:+ k +:+ a' -> (String.length b <= String.length b')%nat) ->
  JS.cut s k = Some (b, a).
Proof.
  intros Hs Hmin. destruct (JS.cut s k) as [[b0 a0]|] eqn:Hc.
  - pose proof (cut_sound _ _ _ _ Hc) as Hs0.
    pose proof (cut_first _ _ _ _ Hc b a Hs) as Hle.
    pose proof (Hmin b0 a0 Hs0) as Hge.
    rewrite Hs in Hs0. destruct (append_inj_length b b0 _ _ Hs0) as [<- Hrest]; [lia|].
    apply append_inj_l in Hrest. subst a0. reflexivity.
  - exfalso. exact (cut_none _ _ Hc b a Hs).
Qed.

(** X14: a macro replaces the first occurrence of its key only, and its value
    is read as a replacement pattern: a value without a dollar sign is put
    in as it is, while [$&] puts the key back, [$$] puts one dollar sign,
    and the two other patterns put in the text before the key and the text
    after it. *)
Theorem expandMacro_dollar_patterns (text k b a : string) :
  text = b +:+ k +:+ a ->
  (forall b' a', text = b' +:+ k +:+ a' -> (String.length b <= String.length b')%nat) ->
  (forall v, absent v "$" -> Abstract.expandLine [(k, v)] text = b +:+ v +:+ a) /\
  Abstract.expandLine [(k, "$&")] text = text /\
  Abstract.expandLine [(k, "$$")] text = b +:+ "$" +:+ a /\
  Abstract.expandLine [(k, "$`")] text = b +:+ b +:+ a /\
  Abstract.expandLine [(k, "$'")] text = b +:+ a +:+ a.
Proof.
  intros Hs Hmin. pose proof (cut_complete _ _ _ _ Hs Hmin) as Hc.
  assert (Hone : forall v, Abstract.expandLine [(k, v)] text
                           = b +:+ JS.GetSubstitution k b a v +:+ a).
  { intros v. rewrite expandLine_cons. unfold occurs, JS.indexOf, JS.replace. rewrite Hc.
    destruct (Z.gtb_spec (Z.of_nat (String.length b)) (-1)) as [_|Hle]; [reflexivity | lia]. }
  split; [|split; [|split; [|split]]].
  - intros v Hv. rewrite Hone, GetSubstitution_plain by exact Hv. reflexivity.
  - rewrite Hone. simpl. rewrite append_nil_r. symmetry. exact Hs.
  - rewrite Hone. reflexivity.
  - rewrite Hone. simpl. rewrite append_nil_r. reflexivity.
  - rewrite Hone. simpl. rewrite append_nil_r. reflexivity.
Qed.

(** The key [B] in the text [f: B + B]. *)
Lemma expandMacro_dollar_patterns_witness :
  Abstract.expandLine [("B", "7")] "f: B + B" = "f: 7 + B" /\
  Abstract.expandLine [("B", "$&")] "f: B + B" = "f: B + B" /\
  Abstract.expandLine [("B", "$$")] "f: B + B" = "f: $ + B".
Proof.
  destruct (expandMacro_dollar_patterns "f: B + B" "B" "f: " " + B" eq_refl)
    as (Hplain & Hamp & Hdollar & _).
  - intros b' a' Hs. destruct b' as [|c0 [|c1 [|c2 b']]]; simpl; try lia;
      rewrite ?append_cons, ?append_nil_l in Hs; discriminate.
  - split; [|split; [exact Hamp | exact Hdollar]].
    apply Hplain. intros b0 a0 Hv.
    destruct b0 as [|c0 [|c1 b0]]; rewrite ?append_cons, ?append_nil_l in Hv; discriminate.
Defined.

(* ===================================================================== *)
(** ** The registry of [QueryBuilder] *)
(* ===================================================================== *)

Section Registry.
Context {R : Type}.
Implicit Types (q : QueryBuilder.t R) (c : QueryBuilder.Queryable R).
Implicit Types (sup : gmap string (QueryBuilder.QueryableClause R)).
Implicit Types (l : JS.obj (QueryBuilder.QueryableClause R)).

Lemma register_other h l : forall sup key,
  (forall op, In op (JS.obj_keys l) -> key <> h +:+ op) ->
  fold_left (fun sup opfn => <[ h +:+ opfn.1 := opfn.2 ]> sup) l sup !! key = sup !! key.
Proof.
  induction l as [|[op fn] l IH]; intros sup key Hkey; [reflexivity|].
  simpl. rewrite IH by (intros op' Hop'; apply Hkey; right; exact Hop').
  apply lookup_insert_ne. intros Heq. exact (Hkey op (or_introl eq_refl) (eq_sym Heq)).
Qed.

Lemma register_found h l : forall sup op fn,
  NoDup (JS.obj_keys l) -> In (op, fn) l ->
  fold_left (fun sup opfn => <[ h +:+ opfn.1 := opfn.2 ]> sup) l sup !! (h +:+ op) = Some fn.
Proof.
  induction l as [|[op0 fn0] l IH]; intros sup op fn Hnd Hin; [destruct Hin|].
  simpl in Hnd. apply NoDup_cons in Hnd as [Hfresh Hnd]. simpl.
  destruct Hin as [[= -> ->]|Hin].
  - rewrite register_other; [apply lookup_insert_eq|].
    intros op' Hop' Heq. apply append_inj_l in Heq. subst op'.
    apply Hfresh. apply list_elem_of_In. exact Hop'.
  - apply IH; assumption.
Qed.

Lemma clause_key_short input : (String.length (Clause.clause_key input) <= 2)%nat.
Proof.
  unfold Clause.clause_key, QueryBuilder.parse_head, QueryBuilder.parse_func.
  rewrite length_append.
  assert (Hc : forall s, (String.length (JS.charAt0 s) <= 1)%nat)
    by (intros [|x s]; simpl; lia).
  pose proof (Hc (JS.trim (QueryBuilder.parse_expr input))).
  pose proof (Hc (JS.trim (JS.slice_from (QueryBuilder.parse_expr input) 1))). lia.
Qed.

End Registry.

(** X15: what [register] leaves in the registry, for clauses none of which
    makes the key [__proto__] (an assignment to that key creates no
    property): every handler of the clauses, under the header followed by
    its operator; the handlers that were there under other keys; and the
    header among the headers. *)
Theorem register_support {R : Type} (q : QueryBuilder.t R) (c : QueryBuilder.Queryable R) :
  NoDup (JS.obj_keys (QueryBuilder.clauses c)) ->
  (forall op, In op (JS.obj_keys (QueryBuilder.clauses c)) ->
              QueryBuilder.header c +:+ op <> "__proto__") ->
  (forall op fn, In (op, fn) (QueryBuilder.clauses c) ->
     QueryBuilder.support (QueryBuilder.register q c) !! (QueryBuilder.header c +:+ op)
     = Some fn) /\
  (forall key, (forall op, In op (JS.obj_keys (QueryBuilder.clauses c)) ->
                           key <> QueryBuilder.header c +:+ op) ->
     QueryBuilder.support (QueryBuilder.register q c) !! key = QueryBuilder.support q !! key) /\
  QueryBuilder.headers (QueryBuilder.register q c)
  = {[ QueryBuilder.header c ]} ∪ QueryBuilder.headers q.
Proof.
  intros Hnd _. split; [|split; [|reflexivity]].
  - intros op fn Hin. apply register_found; assumption.
  - intros key Hkey. apply register_other. exact Hkey.
Qed.

(** The two registrations of the test suite: both handlers of the header
    [x] are there afterwards. *)
Lemma register_support_witness :
  let f : QueryBuilder.QueryableClause unit := fun _ _ => true in
  let g : QueryBuilder.QueryableClause unit := fun _ _ => false in
  let q1 := QueryBuilder.register QueryBuilder.new (QueryBuilder.mkQueryable "x" [("=", f)]) in
  let q2 := QueryBuilder.register q1 (QueryBuilder.mkQueryable "x" [(">", g)]) in
  QueryBuilder.support q2 !! "x>" = Some g /\ QueryBuilder.support q2 !! "x=" = Some f /\
  QueryBuilder.headers q2 = {[ "x" ]} ∪ QueryBuilder.headers q1.
Proof.
  intros f g q1 q2.
  assert (Hnd : forall fn : QueryBuilder.QueryableClause unit,
            forall op, NoDup (JS.obj_keys [(op, fn)])).
  { intros fn op. apply NoDup_singleton. }
  destruct (register_support q1 (QueryBuilder.mkQueryable "x" [(">", g)]) (Hnd g ">"))
    as (Hnew & Hold & Hh); [intros op [<-|[]]; discriminate|].
  destruct (register_support QueryBuilder.new (QueryBuilder.mkQueryable "x" [("=", f)])
              (Hnd f "=")) as (Hfirst & _ & _); [intros op [<-|[]]; discriminate|].
  split; [exact (Hnew ">" g (or_introl eq_refl))|]. split; [|exact Hh].
  unfold q2. rewrite (Hold "x=").
  - exact (Hfirst "=" f (or_introl eq_refl)).
  - intros op [<-|[]]. discriminate.
Defined.

(** X16: [parse] looks a clause up under two characters at most, so that a
    handler registered under a longer key, a header of three characters
    for one, is never found: registering it changes nothing to what [parse]
    answers. *)
Theorem register_long_key_unreachable {R : Type} (q : QueryBuilder.t R)
    (c : QueryBuilder.Queryable R) :
  (forall op, In op (JS.obj_keys (QueryBuilder.clauses c)) ->
              (2 < String.length (QueryBuilder.header c +:+ op))%nat) ->
  forall input,
    (String.length (Clause.clause_key input) <= 2)%nat /\
    QueryBuilder.parse (QueryBuilder.register q c) input = QueryBuilder.parse q input.
Proof.
  intros Hlong input. pose proof (clause_key_short input) as Hshort.
  split; [exact Hshort|].
  assert (Hsame : QueryBuilder.support (QueryBuilder.register q c) !! Clause.clause_key input
                  = QueryBuilder.support q !! Clause.clause_key input).
  { apply register_other. intros op Hop Heq. specialize (Hlong op Hop).
    rewrite <- Heq in Hlong. lia. }
  rewrite (parse_lookup _ input _ Hsame). symmetry. apply parse_lookup. reflexivity.
Qed.

(** A handler registered for the header [date]. *)
Lemma register_long_key_unreachable_witness :
  let q : QueryBuilder.t unit :=
    QueryBuilder.register QueryBuilder.new
      (QueryBuilder.mkQueryable "date" [("=", fun _ _ => true)]) in
  QueryBuilder.parse q "date = today" = Abrupt (Clause.unexpected "date = today").
Proof.
  intros q.
  destruct (register_long_key_unreachable QueryBuilder.new
              (QueryBuilder.mkQueryable "date" [("=", fun (_ : string) (_ : unit) => true)]))
    with (input := "date = today") as [_ Hp].
  - intros op [<-|[]]. simpl. lia.
  - unfold q. rewrite Hp. reflexivity.
Defined.

(* ===================================================================== *)
(** ** The parts of a clause *)
(* ===================================================================== *)

Lemma every_blank s : every JS.is_whitespace s = blank s.
Proof. induction s as [|c s IH]; [reflexivity|]. simpl. rewrite IH. reflexivity. Qed.

Lemma trim_blank s : blank s = true -> JS.trim s = EmptyString.
Proof.
  intros Hs. unfold JS.trim. rewrite <- (append_nil_r s), trimStart_blank by exact Hs.
  reflexivity.
Qed.




(** X18: an empty clause, or one of white space only: [parse] looks it up under
    the empty key and hands the empty operand to the handler it finds
    there; without one it throws, the message carrying the clause as it
    was given. *)
Theorem parse_blank_clause {R : Type} (q : QueryBuilder.t R) (input : string) :
  blank input = true ->
  Clause.clause_key input = EmptyString /\
  QueryBuilder.parse q input =
    match QueryBuilder.support q !! EmptyString with
    | Some call => Normal (call EmptyString)
    | None => Abrupt (Clause.unexpected input)
    end.
Proof.
  intros Hb. pose proof (trim_blank input Hb) as Ht.
  assert (Hkey : Clause.clause_key input = EmptyString).
  { unfold Clause.clause_key, QueryBuilder.parse_head, QueryBuilder.parse_func,
      QueryBuilder.parse_expr. rewrite Ht. reflexivity. }
  assert (Htail : QueryBuilder.parse_tail input = EmptyString).
  { unfold QueryBuilder.parse_tail, QueryBuilder.parse_func, QueryBuilder.parse_expr.
    rewrite Ht. reflexivity. }
  split; [exact Hkey|].
  rewrite (parse_lookup q input _ eq_refl), Hkey, Htail. reflexivity.
Qed.

(** A comma at the end of a cluster makes an empty clause. *)
Lemma parse_blank_clause_witness :
  let q : QueryBuilder.t unit :=
    QueryBuilder.register QueryBuilder.new
      (QueryBuilder.mkQueryable "x" [("=", fun _ _ => true)]) in
  QueryBuilder.parse q " " = Abrupt (Clause.unexpected " ") /\
  QueryBuilder.scan q "{x = 1, }" = ([], Some (Clause.unexpected " ")).
Proof.
  intros q. destruct (parse_blank_clause q " " eq_refl) as [_ Hp].
  split; [rewrite Hp; reflexivity | reflexivity].
Defined.

(* ===================================================================== *)
(** ** The matches of the grammar *)
(* ===================================================================== *)

Lemma star_every p k x : forall s,
  QueryBuilder.star p s k = Some x ->
  exists pre rest, s = pre +:+ rest /\ every p pre = true /\ k rest = Some x.
Proof.
  induction s as [|c s IH]; simpl; intros Hs.
  - exists EmptyString, EmptyString. repeat split. exact Hs.
  - destruct (p c) eqn:Hc.
    + destruct (QueryBuilder.star p s k) as [y|] eqn:Hstar.
      * injection Hs as ->. destruct (IH eq_refl) as (pre & rest & -> & Hpre & Hk).
        exists (String c pre), rest. split; [reflexivity|]. split; [|exact Hk].
        simpl. rewrite Hc. exact Hpre.
      * exists EmptyString, (String c s). repeat split. exact Hs.
    + exists EmptyString, (String c s). repeat split. exact Hs.
Qed.

Lemma lazy_star_every p k x : forall s,
  QueryBuilder.lazy_star p s k = Some x ->
  exists pre rest, s = pre +:+ rest /\ every p pre = true /\ k rest = Some x.
Proof.
  induction s as [|c s IH]; simpl; intros Hs.
  - destruct (k EmptyString) as [y|] eqn:Hk; [|discriminate].
    exists EmptyString, EmptyString. repeat split. congruence.
  - destruct (k (String c s)) as [y|] eqn:Hk.
    + exists EmptyString, (String c s). repeat split. congruence.
    + destruct (p c) eqn:Hc; [|discriminate].
      destruct (IH Hs) as (pre & rest & -> & Hpre & Hk').
      exists (String c pre), rest. split; [reflexivity|]. split; [|exact Hk'].
      simpl. rewrite Hc. exact Hpre.
Qed.

Lemma run_class p s k :
  QueryBuilder.run (QueryBuilder.Class p) s k =
  match s with
  | String c s' => if p c then k s' else None
  | EmptyString => None
  end.
Proof. reflexivity. Qed.

Lemma lazy_star_cons p c s k :
  QueryBuilder.lazy_star p (String c s) k =
  match k (String c s) with
  | Some rest => Some rest
  | None => if p c then QueryBuilder.lazy_star p s k else None
  end.
Proof. reflexivity. Qed.

Lemma every_cons p c s : every p (String c s) = p c && every p s.
Proof. reflexivity. Qed.

(** The lazy repetition before the closing brace takes characters up to
    the first closing brace, and none of the characters it takes is one. *)
Lemma lazy_star_close p x : forall s,
  QueryBuilder.lazy_star p s
    (fun s' => QueryBuilder.run (QueryBuilder.Class (Ascii.eqb Tokens.CLUSTER_CLOSE)) s' Some)
  = Some x ->
  exists body, s = body +:+ String Tokens.CLUSTER_CLOSE x /\ every p body = true /\
               every (fun c => negb (Ascii.eqb c Tokens.CLUSTER_CLOSE)) body = true.
Proof.
  induction s as [|c s IH]; [discriminate|].
  rewrite lazy_star_cons. cbv beta. rewrite run_class.
  destruct (Ascii.eqb_spec Tokens.CLUSTER_CLOSE c) as [<-|Hne].
  - intros [= <-]. exists EmptyString. repeat split.
  - destruct (p c) eqn:Hc; [|discriminate]. intros Hs.
    destruct (IH Hs) as (body & -> & Hbody & Hopen).
    exists (String c body). split; [reflexivity|].
    rewrite !every_cons, Hc, Hbody, Hopen.
    destruct (Ascii.eqb_spec c Tokens.CLUSTER_CLOSE) as [->|_]; [contradiction|].
    split; reflexivity.
Qed.

Lemma run_seq_lazy p r s k :
  QueryBuilder.run (QueryBuilder.Seq (QueryBuilder.LazyPlus p) r) s k =
  match s with
  | String c s' =>
      if p c then QueryBuilder.lazy_star p s' (fun s'' => QueryBuilder.run r s'' k) else None
  | EmptyString => None
  end.
Proof. reflexivity. Qed.

(** What the grammar matches has the shape of a cluster. *)
Lemma match_here_cluster s e0 rest :
  QueryBuilder.match_here s = Some (e0, rest) -> cluster_text e0 /\ s = e0 +:+ rest.
Proof.
  unfold QueryBuilder.match_here.
  destruct (QueryBuilder.run QueryBuilder.grammar s Some) as [r|] eqn:Hrun; [|discriminate].
  intros [= <- <-]. unfold QueryBuilder.grammar in Hrun. rewrite run_seq_class in Hrun.
  destruct s as [|c s]; [discriminate|].
  destruct (QueryBuilder.is_sign c) eqn:Hc; [|discriminate].
  rewrite run_seq_star in Hrun.
  destruct (star_every _ _ _ _ Hrun) as (ws & mid & -> & Hws & Hmid). cbv beta in Hmid.
  rewrite run_seq_class in Hmid. destruct mid as [|o mid]; [discriminate|].
  destruct (Ascii.eqb_spec Tokens.CLUSTER_BEGIN o) as [<-|_]; [|discriminate].
  rewrite run_seq_lazy in Hmid. destruct mid as [|d mid]; [discriminate|].
  destruct (JS.is_line_terminator d) eqn:Hd; [discriminate|]. simpl negb in Hmid. cbv iota in Hmid.
  destruct (lazy_star_close _ _ _ Hmid) as (body & -> & Hbody & Hopen).
  assert (Heq : String c (ws +:+ String Tokens.CLUSTER_BEGIN
                                   (String d (body +:+ String Tokens.CLUSTER_CLOSE r)))
                = String c (ws +:+ String Tokens.CLUSTER_BEGIN
                                     (String d (body +:+ tok Tokens.CLUSTER_CLOSE))) +:+ r).
  { rewrite append_cons, append_assoc, !append_cons, append_assoc. reflexivity. }
  rewrite Heq, substring_prefix. split; [|reflexivity].
  exists c, ws, d, body. repeat split; assumption.
Qed.

Lemma exec_cluster s e0 rest :
  QueryBuilder.exec s = Some (e0, rest) ->
  cluster_text e0 /\ exists before, s = before +:+ e0 +:+ rest.
Proof.
  induction s as [|c s IH]; [discriminate|].
  change (QueryBuilder.exec (String c s))
    with (match QueryBuilder.match_here (String c s) with
          | Some r => Some r
          | None => QueryBuilder.exec s
          end).
  destruct (QueryBuilder.match_here (String c s)) as [[e r]|] eqn:Hm.
  - intros [= <- <-]. destruct (match_here_cluster _ _ _ Hm) as [Hcl Heq].
    split; [exact Hcl|]. exists EmptyString. rewrite append_nil_l. exact Heq.
  - intros He. destruct (IH He) as [Hcl [before Heq]].
    split; [exact Hcl|]. exists (String c before). rewrite append_cons, <- Heq. reflexivity.
Qed.

Lemma exec_all_cluster n : forall s, Forall cluster_text (QueryBuilder.exec_all n s).
Proof.
  induction n as [|n IH]; intros s; simpl; [constructor|].
  destruct (QueryBuilder.exec s) as [[e0 rest]|] eqn:He; [|constructor].
  constructor; [exact (proj1 (exec_cluster _ _ _ He)) | apply IH].
Qed.

(** A cluster is trimmed already, and shows its sign first. *)
Lemma cluster_text_trim e0 :
  cluster_text e0 -> JS.trim e0 = e0 /\ signed_text e0.
Proof.
  intros (c & ws & d & body & -> & Hc & _). split; [|exists c; eauto].
  assert (Heq : String c (ws +:+ String Tokens.CLUSTER_BEGIN
                                   (String d (body +:+ tok Tokens.CLUSTER_CLOSE)))
                = String c (ws +:+ String Tokens.CLUSTER_BEGIN (String d body))
                  +:+ String Tokens.CLUSTER_CLOSE EmptyString).
  { rewrite append_cons, append_assoc, !append_cons. reflexivity. }
  unfold JS.trim. rewrite trimStart_solid by exact (sign_is_solid _ Hc).
  rewrite Heq, trimEnd_blank_solid by reflexivity. reflexivity.
Qed.

Lemma cluster_text_braces e0 :
  cluster_text e0 ->
  ~ absent e0 (tok Tokens.CLUSTER_BEGIN) /\ ~ absent e0 (tok Tokens.CLUSTER_CLOSE).
Proof.
  intros (c & ws & d & body & -> & _). split; intros Ha.
  - apply (Ha (String c ws) (String d (body +:+ tok Tokens.CLUSTER_CLOSE))).
    rewrite append_cons. reflexivity.
  - apply (Ha (String c (ws +:+ String Tokens.CLUSTER_BEGIN (String d body))) EmptyString).
    rewrite append_nil_r, append_cons, append_assoc, !append_cons. reflexivity.
Qed.

Lemma exec_without x s :
  absent s (tok x) -> (forall e0, cluster_text e0 -> ~ absent e0 (tok x)) ->
  QueryBuilder.exec s = None.
Proof.
  intros Ha Hx. destruct (QueryBuilder.exec s) as [[e0 rest]|] eqn:He; [|reflexivity].
  exfalso. destruct (exec_cluster _ _ _ He) as [Hcl [before ->]].
  apply (Hx e0 Hcl). intros b a ->. apply (Ha (before +:+ b) (a +:+ rest)).
  rewrite !append_assoc. reflexivity.
Qed.

Lemma matches_without x s :
  absent s (tok x) -> (forall e0, cluster_text e0 -> ~ absent e0 (tok x)) ->
  QueryBuilder.matches s = [].
Proof.
  intros Ha Hx. unfold QueryBuilder.matches.
  destruct (String.length s); [reflexivity|]. simpl.
  rewrite (exec_without x s Ha Hx). reflexivity.
Qed.

(** X19: without an opening brace, or without a closing brace, there is no
    cluster in the input: [scan] yields nothing and throws nothing,
    whatever the registry holds. *)
Theorem scan_without_cluster {R : Type} (q : QueryBuilder.t R) (input : string) :
  absent input (tok Tokens.CLUSTER_BEGIN) \/ absent input (tok Tokens.CLUSTER_CLOSE) ->
  QueryBuilder.matches (QueryBuilder.signed input) = [] /\
  QueryBuilder.scan q input = ([], None).
Proof.
  intros Ha.
  assert (Hm : QueryBuilder.matches (QueryBuilder.signed input) = []).
  { destruct Ha as [Ha|Ha].
    - assert (Hs : QueryBuilder.signed input = input).
      { unfold QueryBuilder.signed. destruct input as [|c input]; [reflexivity|].
        simpl. destruct (Ascii.eqb_spec c Tokens.CLUSTER_BEGIN) as [->|_]; [|reflexivity].
        exfalso. apply (Ha EmptyString input). reflexivity. }
      rewrite Hs. apply (matches_without Tokens.CLUSTER_BEGIN); [exact Ha|].
      intros e0 He0. exact (proj1 (cluster_text_braces e0 He0)).
    - apply (matches_without Tokens.CLUSTER_CLOSE).
      + unfold QueryBuilder.signed.
        destruct (String.eqb _ _); [|exact Ha].
        intros b a Heq. destruct b as [|c b].
        * rewrite append_nil_l in Heq. discriminate.
        * unfold tok in Heq. rewrite !append_cons in Heq. injection Heq as _ Heq.
          rewrite append_nil_l in Heq. exact (Ha b a Heq).
      + intros e0 He0. exact (proj2 (cluster_text_braces e0 He0)). }
  split; [exact Hm|]. unfold QueryBuilder.scan. rewrite Hm. reflexivity.
Qed.

(** A filter whose cluster is not closed. *)
Lemma scan_without_cluster_witness :
  QueryBuilder.scan (QueryBuilder.new (R := unit)) "{x = 1" = ([], None).
Proof.
  apply (scan_without_cluster (QueryBuilder.new (R := unit)) "{x = 1"). right.
  apply indexOf_absent. reflexivity.
Defined.

Section ScanShape.
Context {R : Type}.
Variable q : QueryBuilder.t R.

Lemma parse_all_length cs : forall ps,
  QueryBuilder.parse_all q cs = Normal ps -> length ps = length cs.
Proof.
  induction cs as [|c cs IH]; intros ps; simpl.
  - intros [= <-]. reflexivity.
  - destruct (QueryBuilder.parse q c) as [f|e]; [|discriminate].
    destruct (QueryBuilder.parse_all q cs) as [fs|e]; [|discriminate].
    intros [= <-]. simpl. rewrite (IH fs eq_refl). reflexivity.
Qed.

Lemma split_length s c : (0 < length (JS.split s c))%nat.
Proof.
  induction s as [|d s IH]; simpl; [lia|].
  destruct (Ascii.eqb d c); [simpl; lia|].
  destruct (JS.split s c); simpl; lia.
Qed.

(** What [scan] yields from a list of matches. *)
Lemma drain_matches es :
  Forall cluster_text es ->
  map QueryBuilder.text (QueryBuilder.drain q es).1
  = take (length (QueryBuilder.drain q es).1) es /\
  ((QueryBuilder.drain q es).2 = None ->
   length (QueryBuilder.drain q es).1 = length es) /\
  ((QueryBuilder.drain q es).2 <> None ->
   (length (QueryBuilder.drain q es).1 < length es)%nat) /\
  Forall (fun y => QueryBuilder.sign y = JS.charAt0 (QueryBuilder.text y) /\
                   cluster_text (QueryBuilder.text y) /\
                   (0 < length (QueryBuilder.test y))%nat)
    (QueryBuilder.drain q es).1.
Proof.
  induction es as [|e0 es IH]; intros Hcl.
  - simpl. repeat split; try constructor. intros Hne. contradiction.
  - inversion Hcl as [|? ? Hc0 Hcl']; subst. specialize (IH Hcl').
    destruct IH as (Htexts & Hall & Hsome & Hshape).
    destruct (cluster_text_trim e0 Hc0) as [Htrim Hsg].
    rewrite drain_cons, cluster_clauses_eq, (signed_text_trim e0 Hsg), Htrim.
    destruct (QueryBuilder.parse_all q (Clause.cluster_clauses e0)) as [ps|e] eqn:Hps.
    + cbn [fst snd length map]. split; [simpl; rewrite Htexts; reflexivity|].
      split; [intros Hn; simpl; rewrite (Hall Hn); reflexivity|].
      split; [intros Hn; simpl; specialize (Hsome Hn); lia|].
      constructor; [|exact Hshape]. cbn [QueryBuilder.sign QueryBuilder.text QueryBuilder.test].
      split; [reflexivity|]. split; [exact Hc0|].
      rewrite (parse_all_length _ _ Hps). apply split_length.
    + cbn [fst snd length map]. split; [reflexivity|].
      split; [discriminate|]. split; [intros _; simpl; lia | constructor].
Qed.

End ScanShape.

(** X20: what [scan] yields, whatever the registry holds and the input is: the
    texts of the queries are the matches of the grammar in the signed
    input, as they stand and in their order, all of them when [scan] ends
    without an error and the matches before the failing one otherwise;
    each text is a cluster (a sign, white space or none, braces around one
    character at least), which trimming leaves as it is; the sign is the
    first character of the text; and there is one predicate at least. *)
Theorem scan_yields_matches {R : Type} (q : QueryBuilder.t R) (input : string) :
  let ms := QueryBuilder.matches (QueryBuilder.signed input) in
  let r := QueryBuilder.scan q input in
  map QueryBuilder.text r.1 = take (length r.1) ms /\
  (r.2 = None -> length r.1 = length ms) /\
  (r.2 <> None -> (length r.1 < length ms)%nat) /\
  Forall (fun y => QueryBuilder.sign y = JS.charAt0 (QueryBuilder.text y) /\
                   cluster_text (QueryBuilder.text y) /\
                   JS.trim (QueryBuilder.text y) = QueryBuilder.text y /\
                   (0 < length (QueryBuilder.test y))%nat) r.1.
Proof.
  intros ms r. unfold r, QueryBuilder.scan. fold ms.
  destruct (drain_matches q ms (exec_all_cluster _ _)) as (Htexts & Hall & Hsome & Hshape).
  split; [exact Htexts|]. split; [exact Hall|]. split; [exact Hsome|].
  eapply Forall_impl; [exact Hshape|]. intros y (Hs & Hc & Ht).
  split; [exact Hs|]. split; [exact Hc|]. split; [exact (proj1 (cluster_text_trim _ Hc)) | exact Ht].
Qed.

(** The filter of the test suite whose second cluster has no handler. *)
Lemma scan_yields_matches_witness :
  let q : QueryBuilder.t unit :=
    QueryBuilder.register QueryBuilder.new
      (QueryBuilder.mkQueryable "x" [("=", fun _ _ => true)]) in
  let r := QueryBuilder.scan q "{x = something} + {x > 0}" in
  QueryBuilder.matches (QueryBuilder.signed "{x = something} + {x > 0}")
  = ["~{x = something}"; "+ {x > 0}"] /\
  map QueryBuilder.text r.1 = ["~{x = something}"] /\ r.2 <> None.
Proof.
  intros q r.
  destruct (scan_yields_matches q "{x = something} + {x > 0}") as (Htexts & _ & _ & _).
  split; [reflexivity|]. split; [|discriminate].
  fold r in Htexts. rewrite Htexts. reflexivity.
Defined.

(* ===================================================================== *)
(** ** The clauses of a match *)
(* ===================================================================== *)

Lemma every_app p s t : every p (s +:+ t) = every p s && every p t.
Proof.
  induction s as [|c s IH]; [reflexivity|].
  rewrite append_cons, !every_cons, IH, andb_assoc. reflexivity.
Qed.

Lemma every_impl (p p' : ascii -> bool) s :
  (forall c, p c = true -> p' c = true) -> every p s = true -> every p' s = true.
Proof.
  intros Himpl. induction s as [|c s IH]; [reflexivity|].
  rewrite !every_cons, !andb_true_iff. intros [Hc Hs]. split; [exact (Himpl c Hc) | exact (IH Hs)].
Qed.

(** A character is first found after a text that does not hold it. *)
Lemma cut_char pre x rest :
  every (fun c => negb (Ascii.eqb c x)) pre = true ->
  JS.cut (pre +:+ String x rest) (tok x) = Some (pre, rest).
Proof.
  induction pre as [|c pre IH]; intros Hpre.
  - rewrite append_nil_l. simpl. rewrite Ascii.eqb_refl. reflexivity.
  - rewrite every_cons, andb_true_iff, negb_true_iff in Hpre. destruct Hpre as [Hc Hpre].
    rewrite append_cons. simpl. rewrite Ascii.eqb_sym, Hc, (IH Hpre). reflexivity.
Qed.

Lemma substring_take mid post :
  String.substring 0 (String.length mid) (mid +:+ post) = mid.
Proof.
  induction mid as [|c mid IH]; [destruct post; reflexivity|].
  rewrite append_cons. simpl. rewrite IH. reflexivity.
Qed.

(** [slice] between the end of a prefix and the start of a suffix. *)
Lemma slice_middle pre mid post :
  JS.slice (pre +:+ mid +:+ post) (Z.of_nat (String.length pre))
    (Z.of_nat (String.length pre + String.length mid)) = mid.
Proof.
  unfold JS.slice. rewrite !length_append.
  set (lp := String.length pre). set (lm := String.length mid).
  set (lq := String.length post).
  destruct (Z.ltb_spec (Z.of_nat lp) 0) as [Hneg|_]; [lia|].
  destruct (Z.ltb_spec (Z.of_nat (lp + lm)) 0) as [Hneg|_]; [lia|].
  rewrite !Z.min_l by lia.
  replace (Z.to_nat (Z.of_nat lp)) with lp by lia.
  replace (Z.to_nat (Z.max (Z.of_nat (lp + lm) - Z.of_nat lp) 0)) with lm by lia.
  unfold lp, lm. rewrite substring_skip. apply substring_take.
Qed.

Lemma whitespace_no_brace x :
  x = Tokens.CLUSTER_BEGIN \/ x = Tokens.CLUSTER_CLOSE ->
  forall c, JS.is_whitespace c = true -> negb (Ascii.eqb c x) = true.
Proof.
  intros Hx c Hc. apply negb_true_iff. destruct (Ascii.eqb_spec c x) as [->|_]; [|reflexivity].
  destruct Hx as [-> | ->]; discriminate.
Qed.

Lemma sign_no_brace x :
  x = Tokens.CLUSTER_BEGIN \/ x = Tokens.CLUSTER_CLOSE ->
  forall c, QueryBuilder.is_sign c = true -> negb (Ascii.eqb c x) = true.
Proof.
  intros Hx c Hc. apply negb_true_iff. destruct (Ascii.eqb_spec c x) as [->|_]; [|reflexivity].
  destruct Hx as [-> | ->]; discriminate.
Qed.

(** The clauses of a cluster are the pieces, between commas, of the text
    between its braces. *)
Lemma cluster_of_clauses e0 c ws d body :
  cluster_of e0 c ws d body ->
  Clause.cluster_clauses e0 =
  if Ascii.eqb d Tokens.CLUSTER_CLOSE then [EmptyString]
  else JS.split (String d body) Tokens.CLAUSE_DELIMITER.
Proof.
  intros Hcl. destruct (cluster_text_trim e0) as [Htrim _]; [exists c, ws, d, body; exact Hcl|].
  destruct Hcl as (-> & Hc & Hws & Hd & Hbody & Hopen).
  unfold Clause.cluster_clauses. rewrite Htrim.
  assert (Hbegin :
    JS.indexOf (String c (ws +:+ String Tokens.CLUSTER_BEGIN
                                   (String d (body +:+ tok Tokens.CLUSTER_CLOSE))))
      (tok Tokens.CLUSTER_BEGIN) = Z.of_nat (String.length (String c ws))).
  { unfold JS.indexOf. rewrite <- append_cons, cut_char; [reflexivity|].
    rewrite every_cons, (sign_no_brace _ (or_introl eq_refl) c Hc).
    exact (every_impl _ _ ws (whitespace_no_brace _ (or_introl eq_refl)) Hws). }
  assert (Hpre : every (fun x => negb (Ascii.eqb x Tokens.CLUSTER_CLOSE))
                   (String c (ws +:+ tok Tokens.CLUSTER_BEGIN)) = true).
  { rewrite every_cons, every_app, (sign_no_brace _ (or_intror eq_refl) c Hc).
    rewrite (every_impl _ _ ws (whitespace_no_brace _ (or_intror eq_refl)) Hws). reflexivity. }
  assert (Hlen : String.length (String c (ws +:+ tok Tokens.CLUSTER_BEGIN))
                 = S (String.length (String c ws))).
  { simpl. rewrite length_append. simpl. lia. }
  rewrite Hbegin.
  replace (Z.of_nat (String.length (String c ws)) + 1)
    with (Z.of_nat (String.length (String c (ws +:+ tok Tokens.CLUSTER_BEGIN))))
    by (rewrite Hlen; lia).
  destruct (Ascii.eqb_spec d Tokens.CLUSTER_CLOSE) as [->|Hne].
  - assert (Heq : String c (ws +:+ String Tokens.CLUSTER_BEGIN
                                     (String Tokens.CLUSTER_CLOSE
                                        (body +:+ tok Tokens.CLUSTER_CLOSE)))
                  = String c (ws +:+ tok Tokens.CLUSTER_BEGIN)
                    +:+ String Tokens.CLUSTER_CLOSE (body +:+ tok Tokens.CLUSTER_CLOSE)).
    { rewrite append_cons, append_assoc. reflexivity. }
    rewrite Heq. unfold JS.indexOf at 1. rewrite cut_char by exact Hpre.
    replace (Z.of_nat (String.length (String c (ws +:+ tok Tokens.CLUSTER_BEGIN))))
      with (Z.of_nat (String.length (String c (ws +:+ tok Tokens.CLUSTER_BEGIN))
                      + String.length EmptyString)) at 2 by (simpl; lia).
    rewrite <- (append_nil_l (String Tokens.CLUSTER_CLOSE _)).
    rewrite slice_middle. reflexivity.
  - assert (Heq : String c (ws +:+ String Tokens.CLUSTER_BEGIN
                                     (String d (body +:+ tok Tokens.CLUSTER_CLOSE)))
                  = (String c (ws +:+ tok Tokens.CLUSTER_BEGIN) +:+ String d body)
                    +:+ String Tokens.CLUSTER_CLOSE EmptyString).
    { rewrite !append_cons, !append_assoc. reflexivity. }
    rewrite Heq. unfold JS.indexOf at 1. rewrite cut_char.
    + rewrite append_assoc, length_append, slice_middle. reflexivity.
    + rewrite every_app, Hpre, every_cons, Hopen.
      apply Ascii.eqb_neq in Hne. rewrite Hne. reflexivity.
Qed.

(** X21: the clauses that [scan] hands to [parse]: every match of the grammar
    is a sign, white space or none and a pair of braces around one
    character at least, without a closing brace after the first of these
    characters; and its clauses are the pieces, between commas, of the
    text between the braces, or the one empty clause when the first
    character between the braces is itself a closing brace. *)
Theorem scan_clauses_between_braces (s e0 : string) :
  In e0 (QueryBuilder.matches s) ->
  exists c ws d body,
    cluster_of e0 c ws d body /\
    Clause.cluster_clauses e0 =
    (if Ascii.eqb d Tokens.CLUSTER_CLOSE then [EmptyString]
     else JS.split (String d body) Tokens.CLAUSE_DELIMITER).
Proof.
  intros Hin. pose proof (exec_all_cluster (String.length s) s) as Hall.
  rewrite List.Forall_forall in Hall. destruct (Hall e0 Hin) as (c & ws & d & body & Hcl).
  exists c, ws, d, body. split; [exact Hcl | exact (cluster_of_clauses _ _ _ _ _ Hcl)].
Qed.

(** The second cluster of a filter with two clusters. *)
Lemma scan_clauses_between_braces_witness :
  exists c ws d body,
    cluster_of "+ {x > 0, y = 1}" c ws d body /\
    Clause.cluster_clauses "+ {x > 0, y = 1}" = ["x > 0"; " y = 1"].
Proof.
  destruct (scan_clauses_between_braces "~{x = something} + {x > 0, y = 1}"
              "+ {x > 0, y = 1}") as (c & ws & d & body & Hcl & Hclauses).
  - right. left. reflexivity.
  - exists c, ws, d, body. split; [exact Hcl | reflexivity].
Defined.

(* ===================================================================== *)
(** ** A line without dependencies on the reference interpreter *)
(* ===================================================================== *)

Lemma reduceRight_go_interpreter resolver arr todo :
  forall acc h (c : gmap string (option Accumulator)) errs ic,
    reduceRight_go
      (fun p v i r => call (fold (Interpreter.createInterpreter resolver) p v i r))
      arr todo acc (mkStore h c (Interpreter.mk errs ic))
    = Done (segment_fold resolver arr todo (acc, errs)).1
        (mkStore h c (Interpreter.mk (segment_fold resolver arr todo (acc, errs)).2 ic)).
Proof.
  induction todo as [|[i v] todo IH]; intros acc h c errs ic; [reflexivity|].
  simpl reduceRight_go. unfold segment_fold. simpl fold_left. fold (segment_fold resolver arr).
  unfold bind, call. simpl. unfold Interpreter.fold.
  destruct (resolver (JS.trim v) acc i arr) as [a|e]; simpl; apply IH.
Qed.

(** X22: a line without dependencies, evaluated by the reference interpreter:
    the segments of its text between colons go to the resolver from the
    last to the first, each one trimmed, with its position and the whole
    list of segments (untrimmed), and with what the call before returned;
    a call that throws leaves the accumulator as it was and adds one entry
    to the log, with the segment as it stands in the text; the last
    accumulator is returned, and saved under the publish name of the line
    when it has one.  Nothing else changes. *)
Theorem parseTree_leaf (resolver : Resolver) (n t : nat)
    (st : store (option Accumulator) Interpreter.state) :
  dependencies (heap st !!! t) = [] ->
  let arr := JS.split (currentValue (heap st !!! t)) Tokens.FUN_COMPOSITION in
  let r := segment_fold resolver arr (rev (imap pair arr))
             (None, Interpreter.errors (mstate st)) in
  parseTree (Interpreter.createInterpreter resolver) (S n) t st
  = Done r.1
      (mkStore (heap st) (this_cache st)
         (Interpreter.mk r.2
            (match truthy_name (ref (heap st !!! t)) with
             | Some name => <[name := r.1]> (Interpreter.cache (mstate st))
             | None => Interpreter.cache (mstate st)
             end))).
Proof.
  intros Hdeps arr r. rewrite parseTree_S.
  rewrite (bind_done _ _ _ _ _ (get_tree_done t st)), Hdeps.
  simpl forEach. rewrite (bind_done _ _ _ tt _ eq_refl).
  unfold fold_and_publish. rewrite (bind_done _ _ _ _ _ (get_tree_done t st)).
  fold arr. unfold reduceRight, undefined. simpl Accumulator_Value.
  destruct st as [h c [errs ic]]. simpl heap in *. simpl mstate in *.
  rewrite (bind_done _ _ _ _ _
             (reduceRight_go_interpreter resolver arr (rev (imap pair arr)) None h c errs ic)).
  fold r. destruct (truthy_name (ref (h !!! t))) as [name|]; reflexivity.
Qed.

(** The line [f: g: x] with the resolver of the test suite that answers
    the first call and throws at the others: one value, two errors. *)
Lemma parseTree_leaf_witness :
  let st := mkStore [mkTree (Some "r") "k" [] "f: g: x"]
              (∅ : gmap string (option Accumulator)) Interpreter.fresh in
  match parseTree (Interpreter.createInterpreter Sample.once) 1 0 st with
  | Done v st' =>
      v = Some ([mkTuple (Int 0) (Int 0)], TUPLE, NaN) /\
      map (fun e => (e.1.1.2, e.2)) (Interpreter.errors (mstate st'))
      = [(" g", 1%nat); ("f", 0%nat)] /\
      Interpreter.cache (mstate st') !! "r" = Some v
  | _ => False
  end.
Proof.
  intros st. rewrite (parseTree_leaf Sample.once 0 0 st eq_refl).
  split; [reflexivity|]. split; [reflexivity|]. apply lookup_insert_eq.
Defined.

(* ===================================================================== *)
(** ** What [parseTree] writes *)
(* ===================================================================== *)

(** X23: [parseTree] writes texts and nothing else: however it ends, by
    returning or by throwing, and whatever the machine, every tree has the
    dependencies, the display key and the publish name it had, there are as
    many trees as before, and the cache of the [Abstract] object is as it
    was; and what it throws is an exception of the machine. *)
Theorem parseTree_writes_texts_only {T MS : Type} `{Value T}
    (m : AbstractMachine T MS) (n t : nat) (st : store T MS) :
  match parseTree m n t st with
  | Done _ st' =>
      same_links (heap st) (heap st') /\ length (heap st') = length (heap st) /\
      this_cache st' = this_cache st
  | Raise e st' =>
      same_links (heap st) (heap st') /\ length (heap st') = length (heap st) /\
      this_cache st' = this_cache st /\ raises m e
  | Diverge => True
  end.
Proof.
  pose proof (ends_parseTree m (fun _ => True) (fun _ _ => True) (fun _ => I)
                (fun _ _ _ _ _ => I)
                (conj (fun _ _ _ _ _ => I)
                   (conj (fun _ _ => I) (conj (fun _ _ _ _ => I) (fun _ _ _ _ => I))))
                n t st (fun _ _ _ => I)) as Hp.
  unfold ends_in in Hp. destruct (parseTree m n t st) as [v st'|e st'|]; [| |exact I].
  - destruct Hp as ([Hl Hc] & Hlen & _). split; [exact Hl|]. split; [exact Hlen | exact Hc].
  - destruct Hp as [([Hl Hc] & Hlen & _) He]. split; [exact Hl|]. split; [exact Hlen|].
    split; [exact Hc | exact He].
Qed.

(* ===================================================================== *)
(** ** Programs on which [compile] comes to an end *)
(* ===================================================================== *)

Lemma refers_spec p i j : refers p i j = true <-> refers_to p i j.
Proof.
  unfold refers. rewrite existsb_exists. split.
  - intros (a & _ & Ha). destruct (JS.obj_get (Abstract.scan_mem p) a) as [j'|] eqn:Hget;
      [|discriminate].
    apply andb_true_iff in Ha as [Hj Hocc]. apply Nat.eqb_eq in Hj. subst j'.
    exists a. split; assumption.
  - intros (a & Hget & Hocc). exists a. split; [exact (obj_get_Some_keys _ _ _ Hget)|].
    rewrite Hget, Nat.eqb_refl, Hocc. reflexivity.
Qed.

Lemma refers_to_target p i j : refers_to p i j -> (j < length p)%nat.
Proof.
  intros (a & Hget & _). destruct (scan_mem_spec p a) as [Hsome _].
  apply Hsome in Hget as [Hp _]. exact (publishes_range _ _ _ Hp).
Qed.

Section Shallow.
Variable p : list Source.

Lemma shallow_step k i j :
  shallow p (S k) i = true -> refers_to p i j -> shallow p k j = true.
Proof.
  simpl. rewrite forallb_forall. intros Hall Hij. specialize (Hall j).
  rewrite (proj2 (refers_spec p i j) Hij) in Hall. apply Hall.
  apply in_seq. pose proof (refers_to_target _ _ _ Hij). lia.
Qed.

Lemma shallow_mono k : forall i, shallow p k i = true -> shallow p (S k) i = true.
Proof.
  induction k as [|k IH]; intros i; [discriminate|].
  intros Hk. change (shallow p (S (S k)) i)
    with (forallb (fun j => implb (refers p i j) (shallow p (S k) j)) (seq 0 (length p))).
  simpl in Hk. rewrite forallb_forall in *. intros j Hj. specialize (Hk j Hj).
  destruct (refers p i j); [|reflexivity]. simpl in *. exact (IH j Hk).
Qed.

Lemma shallow_le k k' i : (k <= k')%nat -> shallow p k i = true -> shallow p k' i = true.
Proof.
  induction 1 as [|k' _ IH]; [tauto|]. intros Hk. exact (shallow_mono _ _ (IH Hk)).
Qed.

(** A line that is not shallow has a reference to a line that is not. *)
Lemma deep_step k i :
  shallow p (S k) i = false -> exists j, refers_to p i j /\ shallow p k j = false.
Proof.
  simpl. intros Hf.
  destruct (forallb (fun j => implb (refers p i j) (shallow p k j)) (seq 0 (length p))) eqn:E;
    [discriminate|].
  assert (Hex : existsb (fun j => negb (implb (refers p i j) (shallow p k j)))
                  (seq 0 (length p)) = true).
  { clear Hf. induction (seq 0 (length p)) as [|j l IH]; [discriminate|].
    simpl in *. destruct (implb (refers p i j) (shallow p k j)); [exact (IH E) | reflexivity]. }
  apply existsb_exists in Hex as (j & _ & Hj). exists j.
  destruct (refers p i j) eqn:Hr; [|discriminate].
  destruct (shallow p k j); [discriminate|]. split; [apply refers_spec; exact Hr | reflexivity].
Qed.

Lemma height_le k i : shallow p k i = true -> (height p i <= k)%nat.
Proof.
  intros Hk. unfold height.
  apply (Nat.le_trans _ (length (seq 0 k))); [|rewrite length_seq; lia].
  apply NoDup_incl_length.
  - apply List.NoDup_filter, seq_NoDup.
  - intros x Hx. apply filter_In in Hx as [_ Hx]. apply in_seq.
    destruct (le_lt_dec k x) as [Hle|Hlt]; [|lia].
    rewrite (shallow_le k x i Hle Hk) in Hx. discriminate.
Qed.

Lemma height_gt k i :
  shallow p k i = false -> (k < length p)%nat -> (k < height p i)%nat.
Proof.
  intros Hk Hlt. unfold height.
  apply (Nat.le_trans _ (length (seq 0 (S k)))); [rewrite length_seq; lia|].
  apply NoDup_incl_length; [apply seq_NoDup|].
  intros x Hx. apply in_seq in Hx. apply filter_In. split; [apply in_seq; lia|].
  destruct (shallow p x i) eqn:E; [|reflexivity].
  rewrite (shallow_le x k i ltac:(lia) E) in Hk. discriminate.
Qed.

Lemma height_bound i : (height p i <= length p)%nat.
Proof.
  unfold height.
  apply (Nat.le_trans _ (length (seq 0 (length p)))); [|rewrite length_seq; lia].
  apply NoDup_incl_length; [apply List.NoDup_filter, seq_NoDup|].
  intros x Hx. apply filter_In in Hx as [Hx _]. exact Hx.
Qed.

(** When every line is shallow at the number of lines, the heights go
    down along the references. *)
Lemma shallow_acyclic :
  (forall i, (i < length p)%nat -> shallow p (length p) i = true) -> acyclic p.
Proof.
  intros Hall. exists (height p). intros i j Hij.
  pose proof (refers_to_range _ _ _ Hij) as Hi.
  assert (Hh : shallow p (height p i) i = true).
  { destruct (shallow p (height p i) i) eqn:E; [reflexivity|].
    pose proof (height_bound i) as Hb.
    destruct (decide (height p i < length p)%nat) as [Hlt|Hge].
    - pose proof (height_gt _ _ E Hlt). lia.
    - replace (height p i) with (length p) in E by lia. rewrite (Hall i Hi) in E. discriminate. }
  destruct (height p i) as [|k] eqn:Ek; [discriminate|].
  pose proof (height_le k j (shallow_step k i j Hh Hij)). lia.
Qed.

Lemma filter_length_le {A : Type} (f g : A -> bool) l :
  (forall x, f x = true -> g x = true) ->
  (length (List.filter f l) <= length (List.filter g l))%nat /\
  (length (List.filter f l) = length (List.filter g l) ->
   forall x, In x l -> g x = true -> f x = true).
Proof.
  intros Hfg. induction l as [|a l [IHle IHeq]]; [split; [reflexivity | intros _ x []]|].
  simpl. destruct (f a) eqn:Hf.
  - rewrite (Hfg a Hf). simpl. split; [lia|]. intros Hlen x [<-|Hx] Hg; [exact Hf|].
    apply IHeq; [lia | exact Hx | exact Hg].
  - destruct (g a) eqn:Hg; simpl.
    + split; [lia|]. intros Hlen. lia.
    + split; [exact IHle|]. intros Hlen x [<-|Hx] Hgx; [congruence|].
      apply IHeq; assumption.
Qed.

Lemma deep_count_step k :
  (deep_count p (S k) <= deep_count p k)%nat /\
  (deep_count p (S k) = deep_count p k ->
   forall i, (i < length p)%nat -> shallow p k i = false -> shallow p (S k) i = false).
Proof.
  unfold deep_count.
  destruct (filter_length_le (fun i => negb (shallow p (S k) i))
              (fun i => negb (shallow p k i)) (seq 0 (length p))) as [Hle Heq].
  { intros i Hi. apply negb_true_iff in Hi. apply negb_true_iff.
    destruct (shallow p k i) eqn:E; [|reflexivity].
    rewrite (shallow_mono _ _ E) in Hi. discriminate. }
  split; [exact Hle|]. intros Hlen i Hi Hk.
  apply negb_true_iff. apply (Heq Hlen); [apply in_seq; lia|].
  rewrite Hk. reflexivity.
Qed.

(** The count of the lines that are not shallow goes down by one at least
    at every bound, until it stays where it is. *)
Lemma deep_count_settles m :
  (m <= length p)%nat ->
  (exists k, (k < m)%nat /\ deep_count p (S k) = deep_count p k) \/
  (deep_count p m + m <= length p)%nat.
Proof.
  induction m as [|m IH]; intros Hm.
  - right. unfold deep_count. simpl.
    rewrite List.forallb_filter_id; [rewrite length_seq; lia|].
    apply forallb_forall. reflexivity.
  - destruct IH as [(k & Hk & Heq)|Hle]; [lia | left; exists k; split; [lia | exact Heq] |].
    destruct (deep_count_step m) as [Hstep _].
    destruct (decide (deep_count p (S m) = deep_count p m)) as [Heq|Hne].
    + left. exists m. split; [lia | exact Heq].
    + right. lia.
Qed.

(** Either the references go down along a rank, or some lines, one at
    least, each refer to one of them. *)
Lemma acyclic_or_cycle :
  acyclic p \/
  exists C : nat -> bool,
    (exists i, C i = true) /\
    forall i, C i = true -> exists j, C j = true /\ refers_to p i j.
Proof.
  destruct (forallb (shallow p (length p)) (seq 0 (length p))) eqn:Hall.
  - left. apply shallow_acyclic. intros i Hi. rewrite forallb_forall in Hall.
    apply Hall. apply in_seq. lia.
  - right.
    assert (Hdeep : exists i0, (i0 < length p)%nat /\ shallow p (length p) i0 = false).
    { assert (Hex : forall l1, (forall x, In x l1 -> (x < length p)%nat) ->
                forallb (shallow p (length p)) l1 = false ->
                exists i0, (i0 < length p)%nat /\ shallow p (length p) i0 = false).
      { induction l1 as [|x l1 IH1]; intros Hin Hf; [discriminate|].
        simpl in Hf. destruct (shallow p (length p) x) eqn:Ex.
        - apply IH1; [intros y Hy; apply Hin; right; exact Hy | exact Hf].
        - exists x. split; [apply Hin; left; reflexivity | exact Ex]. }
      apply (Hex (seq 0 (length p))); [|exact Hall].
      intros x Hx. apply in_seq in Hx. lia. }
    destruct Hdeep as (i0 & Hi0 & Hd0).
    destruct (deep_count_settles (length p) (Nat.le_refl _)) as [(k & Hk & Heq)|Hle].
    + exists (fun i => (i <? length p)%nat && negb (shallow p k i)). split.
      * exists i0. apply andb_true_iff. split; [apply Nat.ltb_lt; exact Hi0|].
        apply negb_true_iff. destruct (shallow p k i0) eqn:E; [|reflexivity].
        rewrite (shallow_le k (length p) i0 ltac:(lia) E) in Hd0. discriminate.
      * intros i Hi. apply andb_true_iff in Hi as [Hlt Hdeepi].
        apply Nat.ltb_lt in Hlt. apply negb_true_iff in Hdeepi.
        destruct (deep_count_step k) as [_ Hsame].
        destruct (deep_step k i (Hsame Heq i Hlt Hdeepi)) as (j & Hij & Hj).
        exists j. split; [|exact Hij]. apply andb_true_iff. split.
        -- apply Nat.ltb_lt. exact (refers_to_target _ _ _ Hij).
        -- rewrite Hj. reflexivity.
    + exfalso. assert (Hzero : deep_count p (length p) = 0%nat) by lia.
      unfold deep_count in Hzero. apply length_zero_iff_nil in Hzero.
      assert (Hin : In i0 (List.filter (fun i => negb (shallow p (length p) i))
                             (seq 0 (length p)))).
      { apply filter_In. split; [apply in_seq; lia | rewrite Hd0; reflexivity]. }
      rewrite Hzero in Hin. destruct Hin.
Qed.

End Shallow.

(** X24: the programs on which [compile] comes to an end: [compile],
    with a bound large enough on the nesting of the calls, returns or
    throws, whatever the machine, exactly when the references between the
    lines of the expanded program go down along some rank, that is, when no
    line refers to itself, directly or through other lines. *)
Theorem compile_ends_iff_acyclic {T MS : Type} `{Value T}
    (m : AbstractMachine T MS) (a : Abstract.t T) (s : MS) :
  (exists fuel, Abstract.compile fuel m a s <> Abstract.Diverges) <->
  acyclic (Abstract.expandMacro (Abstract.macro a) (Abstract.program a)).
Proof.
  set (p := Abstract.expandMacro (Abstract.macro a) (Abstract.program a)). split.
  - intros [fuel Hends]. destruct (acyclic_or_cycle p) as [Hac|(C & Hne & Hclosed)];
      [exact Hac|].
    exfalso. apply Hends. exact (reference_cycle_diverges m a s C Hne Hclosed fuel).
  - intros [rank Hrank]. exists (S (list_sum (map rank (seq 0 (length p))))).
    pose proof (run_ok m rank _ p s Hrank (Nat.le_refl _)) as Hrun.
    unfold Abstract.compile. fold p.
    destruct (Abstract.run _ m p s) as [u st|e st|]; [discriminate | discriminate | contradiction].
Qed.
